(** * set-version.py: propagation of version strings by regular-expression
      substitution

    The script reads [variables.toml], takes three values out of it and calls
    [replace(file, pattern, replacement)] seven times.  [replace] reads a
    file as text, runs [re.sub], and writes the file back only when the text
    changed; it prints one status line.

    The development embeds
    - Python text as lists of characters (code points below 256),
    - the part of [re] the script exercises: the pattern syntax of its seven
      patterns, the backtracking matcher for single-character items with
      greedy repetition, the replacement-template syntax, and the
      left-to-right scan of [re.sub],
    - the value of [tomllib.load] as a tree of tables and scalars,
    - the file store, standard output and exceptions as an explicit state
      and error monad. *)

From Stdlib Require Import List Ascii String ZArith Lia Bool Arith DecimalString Permutation.
From stdpp Require Import base gmap strings list.
Import ListNotations.

Local Open Scope string_scope.
Local Open Scope nat_scope.
Local Open Scope list_scope.

#[local] Set Warnings "-register-all".

(* ===================================================================== *)
(** ** Text *)
(* ===================================================================== *)

Module Text.

(** A Python [str] whose code points are all below 256. *)
Definition text := list ascii.

Definition txt (s : string) : text := list_ascii_of_string s.

Definition code (c : ascii) : nat := nat_of_ascii c.

Definition DQUOTE : ascii := "034"%char.
Definition BACKSLASH : ascii := "092"%char.
Definition LF : ascii := "010"%char.
Definition CR : ascii := "013"%char.

(** [str.isdecimal] on one character: below 256 the decimal digits are
    exactly 0-9. *)
Definition isdecimal (c : ascii) : bool :=
  (48 <=? code c) && (code c <=? 57).

Definition isoctal (c : ascii) : bool :=
  (48 <=? code c) && (code c <=? 55).

Definition digit_value (c : ascii) : nat := code c - 48.

(** [str.isspace] on one character: TAB LF VT FF CR, FS GS RS US, SPACE,
    NEL (0x85) and NBSP (0xA0) are the white space below 256. *)
Definition isspace (c : ascii) : bool :=
  let n := code c in
  ((9 <=? n) && (n <=? 13)) || ((28 <=? n) && (n <=? 32))
  || (n =? 133) || (n =? 160).

Definition isasciiletter (c : ascii) : bool :=
  let n := code c in
  ((65 <=? n) && (n <=? 90)) || ((97 <=? n) && (n <=? 122)).

Definition isalnum_ascii (c : ascii) : bool :=
  isasciiletter c || isdecimal c.

Definition eqc (a b : ascii) : bool := Ascii.eqb a b.

(** Text-mode reading with [newline=None]: CR LF and a lone CR both come
    out as LF. *)
Fixpoint universal_newlines (s : text) : text :=
  match s with
  | [] => []
  | c :: s' =>
      if eqc c CR then
        LF :: match s' with
              | d :: s'' =>
                  if eqc d LF then universal_newlines s''
                  else universal_newlines s'
              | [] => []
              end
      else c :: universal_newlines s'
  end.

(** [str(n)] for an [int]. *)
Definition str_of_int (z : Z) : text :=
  txt (NilZero.string_of_int (Z.to_int z)).

End Text.
Export Text.

(* ===================================================================== *)
(** ** The regular expressions of the script *)
(* ===================================================================== *)

Module Re.

(** A set of characters that one pattern item accepts. *)
Inductive charset : Type :=
| CLit (c : ascii)      (* the character itself *)
| CDigit                (* \d *)
| CSpace                (* \s *)
| CAny.                 (* .  (no DOTALL: anything but LF) *)

Definition in_charset (cs : charset) (c : ascii) : bool :=
  match cs with
  | CLit a => eqc a c
  | CDigit => isdecimal c
  | CSpace => isspace c
  | CAny => negb (eqc c LF)
  end.

(** A compiled pattern is a sequence of nodes; repetition applies to
    one-character items only (sre's REPEAT_ONE). *)
Inductive node : Type :=
| NOne (cs : charset)
| NRepeat (lo : nat) (hi : option nat) (cs : charset)   (* greedy *)
| NAtEnd.                                               (* $ *)

Definition regex := list node.

(** *** Pattern syntax

    The parser covers ordinary characters, [\d], [\s], a backslash before
    a character that is not an ASCII letter or digit, [.], [$] and the
    greedy quantifiers [*], [+], [?] after a one-character item.  Anything
    else (groups, sets, alternation, [^], braces, lazy quantifiers, other
    letter escapes) is outside the fragment and gives [None], as does a
    pattern [re.compile] rejects. *)

Definition flush (pending : option charset) : regex :=
  match pending with
  | Some cs => [NOne cs]
  | None => []
  end.

Definition escape_item (c : ascii) : option charset :=
  if eqc c "d" then Some CDigit
  else if eqc c "s" then Some CSpace
  else if isalnum_ascii c then None
  else Some (CLit c).

Definition quantifier (c : ascii) : option (nat * option nat) :=
  if eqc c "*" then Some (0, None)
  else if eqc c "+" then Some (1, None)
  else if eqc c "?" then Some (0, Some 1)
  else None.

Definition unsupported (c : ascii) : bool :=
  existsb (eqc c) (txt "^()[]{}|").

(** [pending] is the last one-character item, held back until the next
    character shows whether a quantifier follows; [esc] says that the
    previous character was an unconsumed backslash. *)
Fixpoint parse_from (pending : option charset) (esc : bool) (s : text)
  : option regex :=
  match s with
  | [] => if esc then None else Some (flush pending)
  | c :: s' =>
      if esc then
        match escape_item c with
        | Some cs => option_map (app (flush pending)) (parse_from (Some cs) false s')
        | None => None
        end
      else if eqc c BACKSLASH then parse_from pending true s'
      else
        match quantifier c with
        | Some (lo, hi) =>
            match pending with
            | Some cs => option_map (cons (NRepeat lo hi cs)) (parse_from None false s')
            | None => None
            end
        | None =>
            if unsupported c then None
            else if eqc c "$" then
              option_map (fun r => flush pending ++ NAtEnd :: r) (parse_from None false s')
            else
              option_map (app (flush pending))
                (parse_from (Some (if eqc c "." then CAny else CLit c)) false s')
        end
  end.

Definition compile (pattern : text) : option regex :=
  parse_from None false pattern.

(** *** Matching *)

(** [$] without MULTILINE: at the end of the string, or just before a
    line feed that ends the string. *)
Definition at_end (s : text) : bool :=
  match s with
  | [] => true
  | [c] => eqc c LF
  | _ => false
  end.

(** How many leading characters of [s] lie in [cs], up to [hi]. *)
Fixpoint count_run (cs : charset) (hi : option nat) (s : text) : nat :=
  match hi with
  | Some 0 => 0
  | _ =>
      match s with
      | c :: s' =>
          if in_charset cs c then S (count_run cs (option_map pred hi) s') else 0
      | [] => 0
      end
  end.

(** Greedy repetition: the tail [k] is tried after [n] repetitions, then
    after [n-1], down to [lo]. *)
Fixpoint backtrack (k : text -> option text) (lo n : nat) (s : text)
  : option text :=
  if n <? lo then None
  else
    match k (drop n s) with
    | Some rest => Some rest
    | None =>
        match n with
        | 0 => None
        | S n' => backtrack k lo n' s
        end
    end.

(** [match_here ok re s]: the pattern matched at the start of [s]; the
    result is what is left of [s] after the match.  [ok] is the test the
    engine applies on reaching the end of the pattern. *)
Fixpoint match_here (ok : text -> bool) (re : regex) (s : text)
  : option text :=
  match re with
  | [] => if ok s then Some s else None
  | NOne cs :: re' =>
      match s with
      | c :: s' => if in_charset cs c then match_here ok re' s' else None
      | [] => None
      end
  | NRepeat lo hi cs :: re' =>
      backtrack (match_here ok re') lo (count_run cs hi s) s
  | NAtEnd :: re' =>
      if at_end s then match_here ok re' s else None
  end.

Definition any_end : text -> bool := fun _ => true.

(** A match that must advance: the engine's [must_advance] flag refuses a
    success that consumed nothing. *)
Definition shorter_than (s : text) : text -> bool :=
  fun rest => length rest <? length s.

(** *** Replacement templates

    [re] compiles a replacement string that contains a backslash into
    literals and group references; the script's patterns have no group,
    so the only reference that compiles is the whole match. *)

Inductive titem : Type :=
| TLit (c : ascii)
| TWhole.               (* \g<0> *)

Definition template := list titem.

Inductive tstate : Type :=
| TS_text                                   (* outside an escape *)
| TS_esc                                    (* after a backslash *)
| TS_g                                      (* after \g *)
| TS_name (len : nat) (zeros : bool)        (* inside \g< ... *)
| TS_oct (more : nat) (v : nat)             (* after \0, [more] digits may follow *)
| TS_dig1 (c : ascii)                       (* after \c, c in 1-9 *)
| TS_dig2 (c d : ascii).                    (* after \cd *)

(** The characters [re] knows as escapes in a replacement. *)
Definition known_escape (c : ascii) : option ascii :=
  if eqc c "a" then Some "007"%char
  else if eqc c "b" then Some "008"%char
  else if eqc c "f" then Some "012"%char
  else if eqc c "n" then Some LF
  else if eqc c "r" then Some CR
  else if eqc c "t" then Some "009"%char
  else if eqc c "v" then Some "011"%char
  else if eqc c BACKSLASH then Some BACKSLASH
  else None.

Definition step_text (c : ascii) : tstate * template :=
  if eqc c BACKSLASH then (TS_esc, []) else (TS_text, [TLit c]).

Definition chr (n : nat) : ascii := ascii_of_nat n.

(** One character of the replacement string; [None] is the error [re]
    raises (a bad escape, a reference to a group the pattern lacks, a
    malformed or unknown group name, an octal escape out of range). *)
Definition step (st : tstate) (c : ascii) : option (tstate * template) :=
  match st with
  | TS_text => Some (step_text c)
  | TS_esc =>
      if eqc c "g" then Some (TS_g, [])
      else if eqc c "0" then Some (TS_oct 2 0, [])
      else if isdecimal c then Some (TS_dig1 c, [])
      else
        match known_escape c with
        | Some e => Some (TS_text, [TLit e])
        | None =>
            if isasciiletter c then None
            else Some (TS_text, [TLit BACKSLASH; TLit c])
        end
  | TS_g => if eqc c "<" then Some (TS_name 0 true, []) else None
  | TS_name len zeros =>
      if eqc c ">" then
        match len with
        | 0 => None
        | S _ => if zeros then Some (TS_text, [TWhole]) else None
        end
      else Some (TS_name (S len) (zeros && eqc c "0"), [])
  | TS_oct more v =>
      match more with
      | S more' =>
          if isoctal c then
            match more' with
            | 0 => Some (TS_text, [TLit (chr (8 * v + digit_value c))])
            | S _ => Some (TS_oct more' (8 * v + digit_value c), [])
            end
          else
            let '(st', out) := step_text c in Some (st', TLit (chr v) :: out)
      | 0 => let '(st', out) := step_text c in Some (st', TLit (chr v) :: out)
      end
  | TS_dig1 a =>
      if isdecimal c then Some (TS_dig2 a c, []) else None
  | TS_dig2 a b =>
      if isoctal a && isoctal b && isoctal c then
        let v := 64 * digit_value a + 8 * digit_value b + digit_value c in
        if v <=? 255 then Some (TS_text, [TLit (chr v)]) else None
      else None
  end.

(** The end of the replacement string. *)
Definition finish (st : tstate) : option template :=
  match st with
  | TS_text => Some []
  | TS_oct _ v => Some [TLit (chr v)]
  | _ => None
  end.

Fixpoint parse_template_from (st : tstate) (s : text) : option template :=
  match s with
  | [] => finish st
  | c :: s' =>
      match step st c with
      | Some (st', out) => option_map (app out) (parse_template_from st' s')
      | None => None
      end
  end.

Definition parse_template (repl : text) : option template :=
  parse_template_from TS_text repl.

Definition expand_item (whole : text) (i : titem) : text :=
  match i with
  | TLit c => [c]
  | TWhole => whole
  end.

Definition expand (tpl : template) (whole : text) : text :=
  concat (map (expand_item whole) tpl).

(** *** Substitution *)

(** One search step at a position where the scan may start a match: the
    text to put out and the number of characters the match consumed.
    After an empty match the engine looks once more at the same place for
    a match that advances. *)
Definition attempt (re : regex) (tpl : template) (s : text) : text * nat :=
  match match_here any_end re s with
  | None => ([], 0)
  | Some rest =>
      match length s - length rest with
      | 0 =>
          match match_here (shorter_than s) re s with
          | Some rest2 =>
              let n := length s - length rest2 in
              (expand tpl [] ++ expand tpl (take n s), n)
          | None => (expand tpl [], 0)
          end
      | S k => (expand tpl (take (S k) s), S k)
      end
  end.

(** The scan of [Pattern.sub]: [skip] characters still belong to the match
    found last; otherwise a match is attempted here, and without one the
    character is copied. *)
Fixpoint sub_from (re : regex) (tpl : template) (skip : nat) (s : text)
  : text :=
  match skip with
  | S k =>
      match s with
      | [] => []
      | _ :: s' => sub_from re tpl k s'
      end
  | 0 =>
      let '(out, n) := attempt re tpl s in
      out ++ match s with
             | [] => []
             | c :: s' =>
                 match n with
                 | 0 => c :: sub_from re tpl 0 s'
                 | S k => sub_from re tpl k s'
                 end
             end
  end.

Definition sub (re : regex) (tpl : template) (s : text) : text :=
  sub_from re tpl 0 s.

End Re.

(* ===================================================================== *)
(** ** What [tomllib.load] returns *)
(* ===================================================================== *)

Module Toml.

(** A TOML value as the Python object [tomllib] builds for it.  Only a
    table answers [value[key]] for a string key.  A float, a date or time
    and an array carry the text [str()] gives for them, and so does a
    table (its [repr]); these texts are computed by the interpreter. *)
Inductive value : Type :=
| TString (s : text)
| TInteger (z : Z)
| TBoolean (b : bool)
| TOther (shown : text)
| TTable (shown : text) (entries : list (string * value)).

Definition table := list (string * value).

Fixpoint lookup_key (k : string) (d : table) : option value :=
  match d with
  | [] => None
  | (k', v) :: d' => if String.eqb k k' then Some v else lookup_key k d'
  end.

(** What an f-string field [{v}] puts out: [str(v)]. *)
Definition format_value (v : value) : text :=
  match v with
  | TString s => s
  | TInteger z => str_of_int z
  | TBoolean true => txt "True"
  | TBoolean false => txt "False"
  | TOther shown => shown
  | TTable shown _ => shown
  end.

(** The outcome of lines 16-17: opening [variables.toml] and parsing it. *)
Inductive config_file : Type :=
| ConfigMissing                    (* open() raises FileNotFoundError *)
| ConfigMalformed                  (* tomllib.load raises TOMLDecodeError *)
| ConfigParsed (doc : table).

End Toml.

(* ===================================================================== *)
(** ** The script *)
(* ===================================================================== *)

Module SetVersion.
Import Re Toml.

(** *** State, output and exceptions *)

Inductive event : Type :=
| EvRead (path : string)                    (* Path.read_text returned *)
| EvWrite (path : string) (data : text)     (* Path.write_text *)
| EvPrint (line : text).                    (* print *)

(** The readable and writable regular files by path, each with its
    characters, and everything done so far, oldest first.  A path is kept
    in the form [str(Path(...))] prints; the five names the script uses
    are already of that form. *)
Record world : Type := World {
  files : gmap string text;
  trace : list event
}.

Inductive exn : Type :=
| FileNotFoundError (path : string)
| TOMLDecodeError
| KeyError (key : string)
| TypeError                     (* subscript of a value that is no table *)
| PatternError                  (* what [Re.compile] does not take: re.error, or a pattern outside the fragment *)
| TemplateError.                (* re.error or IndexError from the replacement *)

(** A computation either returns or raises; the world is threaded through
    and stays as it was when an exception is raised. *)
Definition M (A : Type) : Type := world -> (exn + A) * world.

Definition ret {A} (a : A) : M A := fun w => (inr a, w).
Definition raise {A} (e : exn) : M A := fun w => (inl e, w).
Definition bind {A B} (m : M A) (f : A -> M B) : M B :=
  fun w =>
    match m w with
    | (inr a, w') => f a w'
    | (inl e, w') => (inl e, w')
    end.

Notation "x <- m ;; k" := (bind m (fun x => k))
  (at level 100, m at next level, right associativity).
Notation "m ;;; k" := (bind m (fun _ => k))
  (at level 100, right associativity).

Definition log (e : event) : M unit :=
  fun w => (inr tt, {| files := files w; trace := trace w ++ [e] |}).

Definition read_text (file : string) : M text :=
  fun w =>
    match files w !! file with
    | Some data =>
        (inr (universal_newlines data),
         {| files := files w; trace := trace w ++ [EvRead file] |})
    | None => (inl (FileNotFoundError file), w)
    end.

(** [Path.write_text] on a path that can be written, where the line
    separator is LF: the write succeeds and the file holds the text as
    given.  A write that fails is not modelled. *)
Definition write_text (file : string) (data : text) : M unit :=
  fun w =>
    (inr tt,
     {| files := <[file := data]> (files w);
        trace := trace w ++ [EvWrite file data] |}).

Definition print (line : text) : M unit := log (EvPrint line).

Definition stdout (w : world) : list text :=
  omap (fun e => match e with EvPrint l => Some l | _ => None end) (trace w).

Definition writes (w : world) : list (string * text) :=
  omap (fun e => match e with EvWrite p d => Some (p, d) | _ => None end)
       (trace w).

Definition reads (w : world) : list string :=
  omap (fun e => match e with EvRead p => Some p | _ => None end) (trace w).

(** *** [re.sub(pattern, replacement, text)]

    The pattern is compiled, then the replacement, then the text is
    scanned. *)
Definition re_sub (pattern replacement : text) (s : text) : exn + text :=
  match compile pattern with
  | None => inl PatternError
  | Some re =>
      match parse_template replacement with
      | None => inl TemplateError
      | Some tpl => inr (sub re tpl s)
      end
  end.

Definition lift {A} (r : exn + A) : M A :=
  match r with
  | inl e => raise e
  | inr a => ret a
  end.

Definition text_eqb (a b : text) : bool := bool_decide (a = b).

Definition updated (file : string) : text := txt "Updated " ++ txt file.
Definition no_changes (file : string) : text :=
  txt "No changes needed in " ++ txt file.

(** *** Lines 6-14

    [replace_with resub] is the function for whatever [re.sub] answers:
    [resub pattern replacement text] is the text [re.sub] returns or the
    exception it raises.  [replace] is the function with the [re.sub] of
    module [Re], which knows the patterns of the fragment described there;
    what is proved of [replace_with] for every [resub] holds for every
    pattern. *)
Definition replace_with (resub : text -> text -> text -> exn + text)
    (file : string) (pattern replacement : text) : M unit :=
  text <- read_text file ;;
  new_text <- lift (resub pattern replacement text) ;;
  if negb (text_eqb text new_text) then
    write_text file new_text ;;;
    print (updated file)
  else
    print (no_changes file).

Definition replace : string -> text -> text -> M unit := replace_with re_sub.

(** *** Lines 16-18 *)
Definition load (cfg : config_file) : M value :=
  match cfg with
  | ConfigMissing => raise (FileNotFoundError "variables.toml")
  | ConfigMalformed => raise TOMLDecodeError
  | ConfigParsed doc => ret (TTable [] doc)
  end.

(** [v[key]] for a string key. *)
Definition getitem (v : value) (key : string) : M value :=
  match v with
  | TTable _ d =>
      match lookup_key key d with
      | Some x => ret x
      | None => raise (KeyError key)
      end
  | _ => raise TypeError
  end.

(** *** The string literals of lines 20-30

    The patterns are raw strings: their backslashes reach [re] as
    written.  The replacements are f-strings, in which a backslash and a
    double quote stand for the double quote alone. *)

Definition bsq : text := [BACKSLASH; DQUOTE].
Definition dq : text := [DQUOTE].

Definition semver : text := txt "\d+\.\d+\.\d+".

Definition pat_label : text :=
  txt "LABEL version=" ++ bsq ++ semver ++ bsq.
Definition pat_cargo : text :=
  txt "version\s*=\s*" ++ bsq ++ semver ++ bsq.
Definition pat_ps1_gen : text :=
  txt "$OPENAPI_GENERATOR_VERSION=" ++ bsq ++ semver ++ bsq.
Definition pat_ps1_spec : text :=
  txt "$SPEC_PATH=" ++ bsq ++ semver ++ bsq.
Definition pat_sh_gen : text :=
  txt "OPENAPI_GENERATOR_VERSION=" ++ bsq ++ semver ++ bsq.
Definition pat_sh_spec : text :=
  txt "SPEC_PATH=" ++ bsq ++ semver ++ bsq.

Definition fstring (before : string) (v : value) : text :=
  txt before ++ dq ++ format_value v ++ dq.

Definition rep_label (v : value) : text := fstring "LABEL version=" v.
Definition rep_cargo (v : value) : text := fstring "version = " v.
Definition rep_ps1_gen (v : value) : text := fstring "$OPENAPI_GENERATOR_VERSION=" v.
Definition rep_ps1_spec (v : value) : text := fstring "$SPEC_PATH=" v.
Definition rep_sh_gen (v : value) : text := fstring "OPENAPI_GENERATOR_VERSION=" v.
Definition rep_sh_spec (v : value) : text := fstring "SPEC_PATH=" v.

(** *** Lines 16-30 *)
Definition main (cfg : config_file) : M unit :=
  file <- load cfg ;;
  version_table <- getitem file "version" ;;
  version <- getitem version_table "version" ;;
  replace "Dockerfile.deploy" pat_label (rep_label version) ;;;
  replace "Dockerfile" pat_label (rep_label version) ;;;
  replace "Cargo.toml" pat_cargo (rep_cargo version) ;;;
  oapid <- getitem file "openapi" ;;
  oapigen_version <- getitem oapid "oapigen-version" ;;
  replace "oapigen.ps1" pat_ps1_gen (rep_ps1_gen oapigen_version) ;;;
  oapi_spec <- getitem oapid "oapi-spec" ;;
  replace "oapigen.ps1" pat_ps1_spec (rep_ps1_spec oapi_spec) ;;;
  oapigen_version' <- getitem oapid "oapigen-version" ;;
  replace "oapigen.sh" pat_sh_gen (rep_sh_gen oapigen_version') ;;;
  oapi_spec' <- getitem oapid "oapi-spec" ;;
  replace "oapigen.sh" pat_sh_spec (rep_sh_spec oapi_spec').

(** *** The calls as a list

    One call of [replace] as data, and a run of a list of calls; used to
    speak about the order of the calls. *)
Record rule : Type := Rule {
  target : string;
  pattern : text;
  replacement : text
}.

Definition apply_rule (r : rule) : M unit :=
  replace (target r) (pattern r) (replacement r).

Fixpoint run_rules (rs : list rule) : M unit :=
  match rs with
  | [] => ret tt
  | r :: rs' => apply_rule r ;;; run_rules rs'
  end.

(** The seven calls of lines 20-30, in order, for the three values. *)
Definition script_rules (version oapigen_version oapi_spec : value)
  : list rule :=
  [ Rule "Dockerfile.deploy" pat_label (rep_label version);
    Rule "Dockerfile" pat_label (rep_label version);
    Rule "Cargo.toml" pat_cargo (rep_cargo version);
    Rule "oapigen.ps1" pat_ps1_gen (rep_ps1_gen oapigen_version);
    Rule "oapigen.ps1" pat_ps1_spec (rep_ps1_spec oapi_spec);
    Rule "oapigen.sh" pat_sh_gen (rep_sh_gen oapigen_version);
    Rule "oapigen.sh" pat_sh_spec (rep_sh_spec oapi_spec) ].

End SetVersion.

(* ===================================================================== *)
(** ** Vocabulary for the properties *)
(* ===================================================================== *)

Module Shape.
Import Re Toml SetVersion.

(** The pattern that matches the characters of [l] one by one. *)
Definition lits (l : text) : regex := map (fun c => NOne (CLit c)) l.

Definition Digits (a : text) : Prop :=
  a <> [] /\ Forall (fun c => isdecimal c = true) a.

(** A text of the form digits, dot, digits, dot, digits: what
    [\d+\.\d+\.\d+] matches in full. *)
Definition Semver (v : text) : Prop :=
  exists a b c, v = a ++ "."%char :: b ++ "."%char :: c
                /\ Digits a /\ Digits b /\ Digits c.

Definition Spaces (ws : text) : Prop :=
  Forall (fun c => isspace c = true) ws.

(** The version part of the patterns and the closing quote, compiled. *)
Definition semver_quote : regex :=
  [ NRepeat 1 None CDigit; NOne (CLit "."); NRepeat 1 None CDigit;
    NOne (CLit "."); NRepeat 1 None CDigit; NOne (CLit DQUOTE) ].

(** A key, an opening quote, a version and a closing quote; [key]
    includes the equals sign. *)
Definition re_keyed (key : string) : regex :=
  lits (txt key ++ dq) ++ semver_quote.

Definition re_cargo : regex :=
  lits (txt "version")
  ++ NRepeat 0 None CSpace :: NOne (CLit "=") :: NRepeat 0 None CSpace
  :: NOne (CLit DQUOTE) :: semver_quote.

Definition quoted (key : string) (v : text) : text :=
  txt key ++ dq ++ v ++ dq.

(** The texts the keyed patterns match. *)
Definition Keyed (key : string) (m : text) : Prop :=
  exists v, Semver v /\ m = quoted key v.

(** The texts the Cargo.toml pattern matches. *)
Definition CargoVersion (m : text) : Prop :=
  exists ws1 ws2 v, Spaces ws1 /\ Spaces ws2 /\ Semver v
    /\ m = txt "version" ++ ws1 ++ "="%char :: ws2 ++ dq ++ v ++ dq.

(** Every occurrence in [t] of a text of shape [Occ] is [r] already. *)
Definition Settled (Occ : text -> Prop) (r : text) (t : text) : Prop :=
  forall u m z, t = u ++ m ++ z -> Occ m -> m = r.

(** The characters that follow the key in an occurrence. *)
Definition sym (c : ascii) : bool :=
  isspace c || isdecimal c || eqc c "=" || eqc c "." || eqc c DQUOTE.

(** A text made of the key [pre] and at least one of those characters. *)
Definition Framed (pre : text) (m : text) : Prop :=
  exists body, m = pre ++ body /\ Forall (fun c => sym c = true) body /\ body <> [].

(** The places of [l] at which [a] is followed by [b]. *)
Fixpoint pair_places (a b : ascii) (i : nat) (l : text) : list nat :=
  match l with
  | x :: ((y :: _) as l') =>
      (if eqc x a && eqc y b then [i] else []) ++ pair_places a b (S i) l'
  | _ => []
  end.

(** A key that starts with two characters outside [sym] and shows that
    pair at its start only. *)
Definition DistinctStart (key : string) : Prop :=
  exists a b l, txt key = a :: b :: l /\ sym a = false /\ sym b = false
    /\ Forall (fun k => k = 0) (pair_places a b 0 (txt key)).





(** A text without a backslash. *)
Definition plain (s : text) : Prop :=
  Forall (fun c => eqc c BACKSLASH = false) s.

(** A text without a carriage return. *)
Definition nocr (s : text) : Prop :=
  Forall (fun c => eqc c CR = false) s.

(** [table.key], when [table] is a table of the document. *)
Definition field (doc : table) (tbl key : string) : option value :=
  match lookup_key tbl doc with
  | Some (TTable _ d) => lookup_key key d
  | _ => None
  end.

(** The configuration file is missing or malformed, or it has no
    [version.version]. *)
Definition no_version (cfg : config_file) : Prop :=
  match cfg with
  | ConfigMissing | ConfigMalformed => True
  | ConfigParsed doc => field doc "version" "version" = None
  end.

(** One of the three fields the script reads is absent. *)
Definition field_absent (doc : table) : Prop :=
  field doc "version" "version" = None
  \/ field doc "openapi" "oapigen-version" = None
  \/ field doc "openapi" "oapi-spec" = None.

(** The status line of a call on [file]. *)
Definition status_of (file : string) (line : text) : Prop :=
  line = updated file \/ line = no_changes file.

(** The two calls on [oapigen.ps1], lines 26-27. *)
Definition ps1_rules (oapigen_version oapi_spec : value) : list rule :=
  [ Rule "oapigen.ps1" pat_ps1_gen (rep_ps1_gen oapigen_version);
    Rule "oapigen.ps1" pat_ps1_spec (rep_ps1_spec oapi_spec) ].

(** What lines 20-30 put behind which key: the pattern of the call, the
    key its f-string starts with, and the configuration value it formats
    between the quotes. *)
Definition inserted (version oapigen_version oapi_spec : value)
  : list (text * string * value) :=
  [ (pat_label, "LABEL version=", version);
    (pat_cargo, "version = ", version);
    (pat_ps1_gen, "$OPENAPI_GENERATOR_VERSION=", oapigen_version);
    (pat_ps1_spec, "$SPEC_PATH=", oapi_spec);
    (pat_sh_gen, "OPENAPI_GENERATOR_VERSION=", oapigen_version);
    (pat_sh_spec, "SPEC_PATH=", oapi_spec) ].

(** A rule whose pattern compiles to [re] and whose replacement [re]
    takes literally and has no carriage return. *)
Definition Literal (r : rule) (re : regex) : Prop :=
  compile (pattern r) = Some re /\ plain (replacement r) /\ nocr (replacement r).

(** What such a rule makes of the text of its file. *)
Definition act (r : rule) (re : regex) (t : text) : text :=
  sub re (map TLit (replacement r)) t.

(** What a list of such rules, run in order, makes of the text of [file]. *)
Fixpoint passes (rs : list (rule * regex)) (file : string) (t : text) : text :=
  match rs with
  | [] => t
  | (r, re) :: rs' =>
      passes rs' file (if String.eqb (target r) file then act r re t else t)
  end.

(** The patterns of the seven calls, compiled. *)
Definition script_regexes : list regex :=
  [ re_keyed "LABEL version="; re_keyed "LABEL version="; re_cargo;
    NAtEnd :: re_keyed "OPENAPI_GENERATOR_VERSION=";
    NAtEnd :: re_keyed "SPEC_PATH=";
    re_keyed "OPENAPI_GENERATOR_VERSION="; re_keyed "SPEC_PATH=" ].

(** Orders of the calls that differ by exchanging neighbours on different
    files. *)
Inductive Reorder : list rule -> list rule -> Prop :=
| Reorder_refl l : Reorder l l
| Reorder_swap l1 a b l2 :
    target a <> target b ->
    Reorder (l1 ++ a :: b :: l2) (l1 ++ b :: a :: l2)
| Reorder_trans l1 l2 l3 : Reorder l1 l2 -> Reorder l2 l3 -> Reorder l1 l3.

(** Worlds with the same files in which the same things were done, in
    some order. *)
Definition same_outcome (w w' : world) : Prop :=
  files w = files w' /\ Permutation (trace w) (trace w').

(** The seven target paths in call order. *)
Definition targets : list string :=
  [ "Dockerfile.deploy"; "Dockerfile"; "Cargo.toml"; "oapigen.ps1";
    "oapigen.ps1"; "oapigen.sh"; "oapigen.sh" ].

(** The world after a call of [replace] that read [file]. *)
Definition after_read (file : string) (w : world) : world :=
  {| files := files w; trace := trace w ++ [EvRead file] |}.
Definition after_same (file : string) (w : world) : world :=
  {| files := files w;
     trace := trace w ++ [EvRead file; EvPrint (no_changes file)] |}.
Definition after_update (file : string) (new_text : text) (w : world) : world :=
  {| files := <[file := new_text]> (files w);
     trace := trace w ++ [EvRead file; EvWrite file new_text;
                          EvPrint (updated file)] |}.

(** The world after a call of [replace] that read [text] and computed
    [new_text]. *)
Definition settle (file : string) (text new_text : text) (w : world) : world :=
  if bool_decide (text = new_text) then after_same file w
  else after_update file new_text w.

(** The world after calls on [fs] that each found nothing to change. *)
Fixpoint quiet (fs : list string) (w : world) : world :=
  match fs with
  | [] => w
  | f :: fs' => quiet fs' (after_same f w)
  end.

(** What [read_text] returns for a file, if it exists. *)
Definition view (w : world) (file : string) : option text :=
  universal_newlines <$> files w !! file.

End Shape.

(* ===================================================================== *)
(** ** Sample inputs *)
(* ===================================================================== *)

Module Examples.
Import Re Toml SetVersion Shape.

(** A text in double quotes. *)
Definition q (s : string) : text := dq ++ txt s ++ dq.

Definition lines (ls : list text) : text :=
  concat (map (fun l => l ++ [LF]) ls).

Definition version_table (v : value) : value :=
  TTable (txt "{'version': ...}") [("version", v)].

Definition openapi_table (g s : value) : value :=
  TTable (txt "{'oapigen-version': ..., 'oapi-spec': ...}")
         [("oapigen-version", g); ("oapi-spec", s)].

(** The configuration of the end-to-end scenario: versions 2.0.1, 5.4.0
    and 3.1.0. *)
Definition doc_ok : table :=
  [ ("version", version_table (TString (txt "2.0.1")));
    ("openapi", openapi_table (TString (txt "5.4.0")) (TString (txt "3.1.0"))) ].

(** The same without the [openapi] table. *)
Definition doc_no_openapi : table :=
  [ ("version", version_table (TString (txt "2.0.1"))) ].

(** No [version] table. *)
Definition doc_no_version : table :=
  [ ("openapi", openapi_table (TString (txt "5.4.0")) (TString (txt "3.1.0"))) ].

(** [version = 2], an integer. *)
Definition doc_integer : table :=
  [ ("version", version_table (TInteger 2));
    ("openapi", openapi_table (TString (txt "5.4.0")) (TString (txt "3.1.0"))) ].

(** A version made of a backslash and the letter n. *)
Definition doc_backslash : table :=
  [ ("version", version_table (TString (txt "\n")));
    ("openapi", openapi_table (TString (txt "5.4.0")) (TString (txt "3.1.0"))) ].

(** A version that closes the quote and opens a second label. *)
Definition echo_version : text :=
  txt "1.0.0" ++ dq ++ txt " LABEL version=" ++ dq ++ txt "1.0.0".

Definition doc_echo : table :=
  [ ("version", version_table (TString echo_version));
    ("openapi", openapi_table (TString (txt "5.4.0")) (TString (txt "3.1.0"))) ].

(** A generator version that brings a [SPEC_PATH] assignment along. *)
Definition carrier_version : text :=
  txt "0" ++ dq ++ txt " SPEC_PATH=" ++ dq ++ txt "1.2.3".

Definition dockerfile : text :=
  lines [ txt "FROM scratch"; txt "LABEL version=" ++ q "1.0.0" ].

Definition cargo_toml : text :=
  lines [ txt "[package]";
          txt "name = " ++ q "ltzf";
          txt "version = " ++ q "0.1.0";
          txt "[dependencies]";
          txt "serde = { version = " ++ q "1.0.0" ++ txt " }" ].

Definition oapigen_ps1 : text :=
  lines [ txt "$OPENAPI_GENERATOR_VERSION=" ++ q "7.0.0";
          txt "$SPEC_PATH=" ++ q "0.1.0" ].

Definition oapigen_sh : text :=
  lines [ txt "OPENAPI_GENERATOR_VERSION=" ++ q "7.0.0";
          txt "SPEC_PATH=" ++ q "0.1.0" ].

Definition doc_carrier : table :=
  [ ("version", version_table (TString (txt "2.0.1")));
    ("openapi", openapi_table (TString carrier_version) (TString (txt "3.1.0"))) ].

(** The seven calls with the two on [oapigen.sh] exchanged. *)
Definition rules_sh_exchanged (v g s : value) : list rule :=
  [ Rule "Dockerfile.deploy" pat_label (rep_label v);
    Rule "Dockerfile" pat_label (rep_label v);
    Rule "Cargo.toml" pat_cargo (rep_cargo v);
    Rule "oapigen.ps1" pat_ps1_gen (rep_ps1_gen g);
    Rule "oapigen.ps1" pat_ps1_spec (rep_ps1_spec s);
    Rule "oapigen.sh" pat_sh_spec (rep_sh_spec s);
    Rule "oapigen.sh" pat_sh_gen (rep_sh_gen g) ].

Definition files_ok : gmap string text :=
  <["Dockerfile.deploy" := dockerfile]>
  (<["Dockerfile" := dockerfile]>
   (<["Cargo.toml" := cargo_toml]>
    (<["oapigen.ps1" := oapigen_ps1]>
     (<["oapigen.sh" := oapigen_sh]> ∅)))).

Definition world_ok : world := World files_ok [].

End Examples.

(* ===================================================================== *)
(** ** Further vocabulary: the calls of lines 20-30 as data *)
(* ===================================================================== *)

Module Calls.
Import Re Toml SetVersion Shape.

(** The seven calls: target, pattern, and the f-string as a function of the
    value it formats. *)
Definition calls : list (string * text * (value -> text)) :=
  [ ("Dockerfile.deploy", pat_label, rep_label);
    ("Dockerfile", pat_label, rep_label);
    ("Cargo.toml", pat_cargo, rep_cargo);
    ("oapigen.ps1", pat_ps1_gen, rep_ps1_gen);
    ("oapigen.ps1", pat_ps1_spec, rep_ps1_spec);
    ("oapigen.sh", pat_sh_gen, rep_sh_gen);
    ("oapigen.sh", pat_sh_spec, rep_sh_spec) ].

(** The files a run can write. *)
Definition written_files : list string :=
  [ "Dockerfile.deploy"; "Dockerfile"; "Cargo.toml"; "oapigen.sh" ].

(** The calls whose pattern is a key, a quote, a version and a quote:
    lines 20, 21, 29 and 30, each with its key. *)
Definition keyed_calls : list (string * string) :=
  [ ("Dockerfile.deploy", "LABEL version=");
    ("Dockerfile", "LABEL version=");
    ("oapigen.sh", "OPENAPI_GENERATOR_VERSION=");
    ("oapigen.sh", "SPEC_PATH=") ].

(** The raw pattern string of such a call. *)
Definition keyed_pattern (key : string) : text :=
  txt key ++ bsq ++ semver ++ bsq.

(** The pattern matches at no place of [t]. *)
Definition Unmatched (re : regex) (t : text) : Prop :=
  forall u s, t = u ++ s -> match_here any_end re s = None.

(** A value that the pattern of [key] does not match once it is written
    behind the key: not of the form digits, dot, digits, dot, digits,
    without a double quote, and without the first character of the key. *)
Definition Unmatchable (key : string) (fv : text) : Prop :=
  ~ Semver fv /\ ~ In DQUOTE fv /\ (forall a l, txt key = a :: l -> ~ In a fv).

(** The text and what remains of it from each later place on. *)
Fixpoint suffixes (t : text) : list text :=
  t :: match t with
       | [] => []
       | _ :: t' => suffixes t'
       end.

(** A test for [Unmatched]. *)
Definition unmatchedb (re : regex) (t : text) : bool :=
  forallb (fun s => match match_here any_end re s with
                    | None => true
                    | Some _ => false
                    end)
          (suffixes t).

(** What the calls of [rs] on [file], in order, make of its content;
    [None] is a file that does not exist.  A call that raises leaves the
    content as it is. *)
Fixpoint content_after (rs : list rule) (file : string) (c : option text)
  : option text :=
  match rs with
  | [] => c
  | r :: rs' =>
      content_after rs' file
        (if String.eqb (target r) file then
           match c with
           | Some data =>
               match re_sub (pattern r) (replacement r) (universal_newlines data) with
               | inr new_text =>
                   if bool_decide (universal_newlines data = new_text) then c
                   else Some new_text
               | inl _ => c
               end
           | None => None
           end
         else c)
  end.

(** The calls of [rs] on [file]. *)
Definition on_file (file : string) (rs : list rule) : list rule :=
  filter (fun r => String.eqb (target r) file = true) rs.

(** The events of calls that completed, one after the other: each call
    reads its file and then either prints the No-changes line, or writes
    the file and prints the Updated line. *)
Inductive call_events : list event -> Prop :=
| call_events_none : call_events []
| call_events_same f evs :
    call_events evs ->
    call_events (EvRead f :: EvPrint (no_changes f) :: evs)
| call_events_updated f data evs :
    call_events evs ->
    call_events (EvRead f :: EvWrite f data :: EvPrint (updated f) :: evs).

(** The events of a run by the way it ended: those of the calls that
    completed and, only when the run ended with an exception, at most the
    read of the call in which [re.sub] raised, as the last event. *)
Definition run_events {A} (res : exn + A) (evs : list event) : Prop :=
  exists done last,
    evs = done ++ last
    /\ call_events done
    /\ match res with
       | inr _ => last = []
       | inl _ => last = [] \/ exists f, last = [EvRead f]
       end.

(** An ASCII letter that is no escape in a replacement string. *)
Definition bad_escape_letter (c : ascii) : bool :=
  isasciiletter c && negb (eqc c "g")
  && match known_escape c with Some _ => false | None => true end.

End Calls.

(* ===================================================================== *)
(** ** Further sample inputs *)
(* ===================================================================== *)

Module MoreExamples.
Import Re Toml SetVersion Shape Examples.

(** The sample files without Cargo.toml. *)
Definition world_no_cargo : world :=
  World (delete "Cargo.toml" files_ok) [].

(** A version that ends in a backslash and the letter x. *)
Definition doc_bad_escape : table :=
  [ ("version", version_table (TString (txt "2.0.1\x")));
    ("openapi", openapi_table (TString (txt "5.4.0")) (TString (txt "3.1.0"))) ].

(** A pre-release version, which the patterns do not match. *)
Definition prerelease : value := TString (txt "2.0.1-rc1").

(** A Dockerfile whose lines end in CR LF, alone in the file store. *)
Definition dockerfile_crlf : text :=
  txt "FROM scratch" ++ [CR; LF] ++ txt "LABEL version=" ++ q "1.0.0" ++ [CR; LF].

Definition world_crlf : world :=
  World (<["Dockerfile" := dockerfile_crlf]> ∅) [].

End MoreExamples.

(* ===================================================================== *)
(** ** Properties *)
(* ===================================================================== *)

Import Re Toml SetVersion Shape Examples.

(** *** The monad and [replace] *)

Section ReplaceFacts.
Lemma bind_unit_ret (m : M unit) w : (m ;;; ret tt) w = m w.
Proof. unfold bind, ret. destruct (m w) as [[e|[]] w']; reflexivity. Qed.

Lemma replace_with_eq resub file pat repl w :
  replace_with resub file pat repl w =
  match files w !! file with
  | None => (inl (FileNotFoundError file), w)
  | Some data =>
      match resub pat repl (universal_newlines data) with
      | inl e => (inl e, after_read file w)
      | inr new_text =>
          if bool_decide (universal_newlines data = new_text)
          then (inr tt, after_same file w)
          else (inr tt, after_update file new_text w)
      end
  end.
Proof.
  unfold replace_with, bind, read_text.
  destruct (files w !! file) as [data|]; [|reflexivity].
  destruct (resub pat repl (universal_newlines data)) as [e|new_text]; simpl; [reflexivity|].
  unfold text_eqb. destruct (bool_decide _); simpl.
  - unfold print, log, after_same. simpl. rewrite <- app_assoc. reflexivity.
  - unfold bind, write_text, print, log, after_update. simpl.
    rewrite <- !app_assoc. reflexivity.
Qed.

Lemma replace_eq file pat repl w :
  replace file pat repl w =
  match files w !! file with
  | None => (inl (FileNotFoundError file), w)
  | Some data =>
      match re_sub pat repl (universal_newlines data) with
      | inl e => (inl e, after_read file w)
      | inr new_text =>
          if bool_decide (universal_newlines data = new_text)
          then (inr tt, after_same file w)
          else (inr tt, after_update file new_text w)
      end
  end.
Proof. exact (replace_with_eq re_sub file pat repl w). Qed.
End ReplaceFacts.


(** *** The matcher *)

Section MatchFacts.
Implicit Types (s rest : text) (re : regex) (ok : text -> bool).

Lemma backtrack_some k lo n s rest :
  backtrack k lo n s = Some rest -> exists j, j <= n /\ lo <= j /\ k (drop j s) = Some rest.
Proof.
  induction n as [|n IH]; simpl.
  - destruct (0 <? lo) eqn:E; [discriminate|]. apply Nat.ltb_ge in E.
    destruct (k (drop 0 s)) eqn:Ek; [|discriminate].
    intros [= <-]. exists 0. auto.
  - destruct (S n <? lo) eqn:E; [discriminate|]. apply Nat.ltb_ge in E.
    destruct (k (drop (S n) s)) eqn:Ek.
    + intros [= <-]. exists (S n). auto.
    + intros H. destruct (IH H) as (j & ? & ? & ?). exists j. auto with lia.
Qed.



Lemma eqc_true a b : eqc a b = true <-> a = b.
Proof. apply Ascii.eqb_eq. Qed.

Lemma match_here_lits ok l re s rest :
  match_here ok (lits l ++ re) s = Some rest <->
  exists s', s = l ++ s' /\ match_here ok re s' = Some rest.
Proof.
  revert s. induction l as [|a l IH]; intros s; simpl.
  - split; [intros H; exists s; auto | intros (s' & -> & H); exact H].
  - destruct s as [|c s].
    + split; [discriminate | intros (s' & [=] & _)].
    + destruct (eqc a c) eqn:E.
      * apply eqc_true in E. subst c. rewrite IH.
        split; intros (s' & Hs & H); exists s'; split; auto; congruence.
      * split; [discriminate|]. intros (s' & [= -> _] & _).
        rewrite (proj2 (eqc_true a a) eq_refl) in E. discriminate.
Qed.

Lemma count_run_le cs s : count_run cs None s <= length s.
Proof.
  induction s as [|c s IH]; simpl; [lia|].
  destruct (in_charset cs c); simpl; lia.
Qed.

Lemma count_run_take cs s :
  Forall (fun c => in_charset cs c = true) (take (count_run cs None s) s).
Proof.
  induction s as [|c s IH]; simpl; [constructor|].
  destruct (in_charset cs c) eqn:E; simpl; [|constructor].
  constructor; assumption.
Qed.

Lemma count_run_app cs run s' :
  Forall (fun c => in_charset cs c = true) run ->
  match s' with c :: _ => in_charset cs c = false | [] => True end ->
  count_run cs None (run ++ s') = length run.
Proof.
  intros Hrun Hs'. induction Hrun as [|c run Hc _ IH]; simpl.
  - destruct s' as [|c s']; simpl; [reflexivity|]. rewrite Hs'. reflexivity.
  - rewrite Hc, IH. reflexivity.
Qed.

(** A tail that refuses every text starting in [cs]: greedy repetition of
    [cs] before it never gives a character back. *)
Definition refuses ok cs re : Prop :=
  forall c s, in_charset cs c = true -> match_here ok re (c :: s) = None.

Lemma drop_in_run cs s j :
  j < count_run cs None s ->
  exists c s', drop j s = c :: s' /\ in_charset cs c = true.
Proof.
  revert j. induction s as [|c s IH]; intros j; simpl; [lia|].
  destruct (in_charset cs c) eqn:E; [|lia].
  destruct j as [|j]; simpl.
  - intros _. eauto.
  - intros Hj. apply IH. lia.
Qed.

Lemma match_here_repeat ok lo cs re s rest :
  refuses ok cs re ->
  match_here ok (NRepeat lo None cs :: re) s = Some rest <->
  exists run s', s = run ++ s' /\ Forall (fun c => in_charset cs c = true) run /\
                 lo <= length run /\ match_here ok re s' = Some rest.
Proof.
  intros Href. simpl. split.
  - intros H. pose proof H as H0. apply backtrack_some in H as (j & Hj & Hlo & Hk).
    destruct (Nat.eq_dec j (count_run cs None s)) as [->|Hne].
    + pose proof (count_run_take cs s) as Hall.
      eexists _, _. split; [symmetry; apply take_drop|]. split; [exact Hall|].
      split; [|exact Hk]. rewrite length_take.
      pose proof (count_run_le cs s). lia.
    + exfalso. destruct (drop_in_run cs s j) as (c & s' & Ed & Hc); [lia|].
      rewrite Ed, Href in Hk by exact Hc. discriminate.
  - intros (run & s' & -> & Hrun & Hlo & Hk).
    assert (Hn : count_run cs None (run ++ s') = length run).
    { apply count_run_app; [exact Hrun|]. destruct s' as [|c s']; [exact I|].
      destruct (in_charset cs c) eqn:E; [|reflexivity].
      rewrite Href in Hk by exact E. discriminate. }
    rewrite Hn. destruct (length run) as [|n] eqn:El.
    + destruct run; [|discriminate]. destruct lo; [|lia].
      simpl. rewrite drop_0, Hk. reflexivity.
    + simpl. destruct (S n <? lo) eqn:E; [apply Nat.ltb_lt in E; lia|].
      replace (drop (S n) (run ++ s')) with s'.
      2:{ rewrite <- El. rewrite drop_app_length. reflexivity. }
      rewrite Hk. reflexivity.
Qed.
End MatchFacts.

(** *** The compiled patterns and what they match *)

Ltac list_norm :=
  unfold quoted, dq; simpl;
  repeat (progress (rewrite <- ?app_assoc; simpl)); try reflexivity.

Ltac off_class :=
  let c := fresh "c" in let Hc := fresh "Hc" in let E := fresh "E" in
  intros c Hc; simpl in Hc;
  match goal with |- eqc ?x c = false =>
    destruct (eqc x c) eqn:E;
    [apply eqc_true in E; subst c; vm_compute in Hc; discriminate | reflexivity]
  end.

Section Patterns.
Implicit Types (s rest : text) (ok : text -> bool).

Lemma compile_label : compile pat_label = Some (re_keyed "LABEL version=").
Proof. reflexivity. Qed.
Lemma compile_cargo : compile pat_cargo = Some re_cargo.
Proof. reflexivity. Qed.
Lemma compile_sh_gen :
  compile pat_sh_gen = Some (re_keyed "OPENAPI_GENERATOR_VERSION=").
Proof. reflexivity. Qed.
Lemma compile_sh_spec : compile pat_sh_spec = Some (re_keyed "SPEC_PATH=").
Proof. reflexivity. Qed.
Lemma compile_ps1_gen :
  compile pat_ps1_gen = Some (NAtEnd :: re_keyed "OPENAPI_GENERATOR_VERSION=").
Proof. reflexivity. Qed.
Lemma compile_ps1_spec :
  compile pat_ps1_spec = Some (NAtEnd :: re_keyed "SPEC_PATH=").
Proof. reflexivity. Qed.

Lemma match_here_one ok x re s rest :
  match_here ok (NOne (CLit x) :: re) s = Some rest <->
  exists s', s = x :: s' /\ match_here ok re s' = Some rest.
Proof. apply (match_here_lits ok [x] re s rest). Qed.

Lemma refuses_lit ok cs x re :
  (forall c, in_charset cs c = true -> eqc x c = false) ->
  refuses ok cs (NOne (CLit x) :: re).
Proof. intros H c s Hc. simpl. rewrite (H c Hc). reflexivity. Qed.

Lemma refuses_digit_dot ok re : refuses ok CDigit (NOne (CLit ".") :: re).
Proof. apply refuses_lit. off_class. Qed.
Lemma refuses_digit_quote ok re : refuses ok CDigit (NOne (CLit DQUOTE) :: re).
Proof. apply refuses_lit. off_class. Qed.
Lemma refuses_space_eq ok re : refuses ok CSpace (NOne (CLit "=") :: re).
Proof. apply refuses_lit. off_class. Qed.
Lemma refuses_space_quote ok re : refuses ok CSpace (NOne (CLit DQUOTE) :: re).
Proof. apply refuses_lit. off_class. Qed.

Lemma Digits_intro a :
  Forall (fun c => in_charset CDigit c = true) a -> 1 <= length a -> Digits a.
Proof. intros H Hl. split; [destruct a; simpl in Hl; [lia|discriminate] | exact H]. Qed.

Lemma Digits_elim a :
  Digits a -> Forall (fun c => in_charset CDigit c = true) a /\ 1 <= length a.
Proof. intros [Hne H]. split; [exact H|]. destruct a; simpl; [congruence|lia]. Qed.

Lemma match_semver_quote ok re s rest :
  match_here ok (semver_quote ++ re) s = Some rest <->
  exists v s', Semver v /\ s = v ++ DQUOTE :: s' /\ match_here ok re s' = Some rest.
Proof.
  unfold semver_quote. simpl app. split.
  - intros H.
    apply match_here_repeat in H as (a & s1 & -> & Ha & Hla & H);
      [|apply refuses_digit_dot].
    apply match_here_one in H as (s2 & -> & H).
    apply match_here_repeat in H as (b & s3 & -> & Hb & Hlb & H);
      [|apply refuses_digit_dot].
    apply match_here_one in H as (s4 & -> & H).
    apply match_here_repeat in H as (c & s5 & -> & Hc & Hlc & H);
      [|apply refuses_digit_quote].
    apply match_here_one in H as (s6 & -> & H).
    exists (a ++ "."%char :: b ++ "."%char :: c), s6. split; [|split].
    + exists a, b, c. auto using Digits_intro.
    + list_norm.
    + exact H.
  - intros (v & s' & (a & b & c & -> & Ha & Hb & Hc) & -> & H).
    apply Digits_elim in Ha as [Ha Hla], Hb as [Hb Hlb], Hc as [Hc Hlc].
    apply match_here_repeat; [apply refuses_digit_dot|].
    exists a, ("."%char :: b ++ "."%char :: c ++ DQUOTE :: s').
    split; [list_norm|].
    split; [exact Ha|]. split; [exact Hla|].
    apply match_here_one. eexists. split; [reflexivity|].
    apply match_here_repeat; [apply refuses_digit_dot|].
    exists b, ("."%char :: c ++ DQUOTE :: s'). split; [reflexivity|].
    split; [exact Hb|]. split; [exact Hlb|].
    apply match_here_one. eexists. split; [reflexivity|].
    apply match_here_repeat; [apply refuses_digit_quote|].
    exists c, (DQUOTE :: s'). split; [reflexivity|].
    split; [exact Hc|]. split; [exact Hlc|].
    apply match_here_one. eexists. split; [reflexivity|]. exact H.
Qed.

Lemma match_here_nil s rest : match_here any_end [] s = Some rest <-> s = rest.
Proof. simpl. unfold any_end. split; [intros [= ->]|intros ->]; reflexivity. Qed.

(** A keyed pattern matches at the start of [s] exactly when [s] begins
    with the key, a quote, a version and a quote. *)
Lemma match_keyed key s rest :
  match_here any_end (re_keyed key) s = Some rest <->
  exists m, Keyed key m /\ s = m ++ rest.
Proof.
  unfold re_keyed. rewrite match_here_lits. split.
  - intros (s' & -> & H).
    rewrite <- (app_nil_r semver_quote) in H.
    apply match_semver_quote in H as (v & s'' & Hv & -> & H).
    apply match_here_nil in H as ->.
    exists (quoted key v). split; [exists v; auto|].
    list_norm.
  - intros (m & (v & Hv & ->) & ->).
    exists (v ++ DQUOTE :: rest). split.
    + list_norm.
    + rewrite <- (app_nil_r semver_quote). apply match_semver_quote.
      exists v, rest. split; [exact Hv|]. split; [reflexivity|].
      apply match_here_nil. reflexivity.
Qed.

Lemma match_cargo s rest :
  match_here any_end re_cargo s = Some rest <->
  exists m, CargoVersion m /\ s = m ++ rest.
Proof.
  unfold re_cargo. rewrite match_here_lits. split.
  - intros (s' & -> & H).
    apply match_here_repeat in H as (ws1 & s1 & -> & Hw1 & _ & H);
      [|apply refuses_space_eq].
    apply match_here_one in H as (s2 & -> & H).
    apply match_here_repeat in H as (ws2 & s3 & -> & Hw2 & _ & H);
      [|apply refuses_space_quote].
    apply match_here_one in H as (s4 & -> & H).
    rewrite <- (app_nil_r semver_quote) in H.
    apply match_semver_quote in H as (v & s'' & Hv & -> & H).
    apply match_here_nil in H as ->.
    eexists. split; [exists ws1, ws2, v; split; [exact Hw1|]; split; [exact Hw2|];
                     split; [exact Hv|reflexivity]|].
    list_norm.
  - intros (m & (ws1 & ws2 & v & Hw1 & Hw2 & Hv & ->) & ->).
    exists (ws1 ++ "="%char :: ws2 ++ DQUOTE :: v ++ DQUOTE :: rest). split.
    + list_norm.
    + apply match_here_repeat; [apply refuses_space_eq|].
      eexists ws1, _. split; [reflexivity|]. split; [exact Hw1|]. split; [lia|].
      apply match_here_one. eexists. split; [reflexivity|].
      apply match_here_repeat; [apply refuses_space_quote|].
      eexists ws2, _. split; [reflexivity|]. split; [exact Hw2|]. split; [lia|].
      apply match_here_one. eexists. split; [reflexivity|].
      rewrite <- (app_nil_r semver_quote). apply match_semver_quote.
      exists v, rest. split; [exact Hv|]. split; [reflexivity|].
      apply match_here_nil. reflexivity.
Qed.

(** A pattern that starts with [$] and goes on with a character other
    than the line feed matches nowhere. *)
Lemma match_after_end ok x re s :
  eqc x LF = false -> match_here ok (NAtEnd :: NOne (CLit x) :: re) s = None.
Proof.
  intros Hx. simpl. destruct s as [|c [|d s]]; simpl; try reflexivity.
  destruct (eqc c LF) eqn:E; [|reflexivity].
  apply eqc_true in E. subst c. rewrite Hx. reflexivity.
Qed.

Lemma match_ps1 ok key s :
  (exists x l, txt key ++ dq = x :: l /\ eqc x LF = false) ->
  match_here ok (NAtEnd :: re_keyed key) s = None.
Proof.
  intros (x & l & E & Hx). unfold re_keyed. rewrite E. simpl lits. simpl app.
  apply match_after_end. exact Hx.
Qed.
End Patterns.

(** *** The scan of [sub] *)

Section SubFacts.
Variables (re : regex) (tpl : template).
Implicit Types (s rest m : text).

Lemma sub_from_drop k s :
  k <= length s -> sub_from re tpl k s = sub re tpl (drop k s).
Proof.
  revert s. induction k as [|k IH]; intros s Hk.
  - rewrite drop_0. reflexivity.
  - destruct s as [|c s]; simpl in Hk; [lia|]. simpl. apply IH. lia.
Qed.

(** Where no match starts, the character is copied. *)
Lemma sub_none s :
  match_here any_end re s = None ->
  sub re tpl s = match s with [] => [] | c :: s' => c :: sub re tpl s' end.
Proof.
  intros H. unfold sub. destruct s as [|c s]; simpl; unfold attempt; rewrite H; reflexivity.
Qed.

(** A match that is not empty is replaced and the scan goes on behind it. *)
Lemma sub_some m rest :
  match_here any_end re (m ++ rest) = Some rest -> m <> [] ->
  sub re tpl (m ++ rest) = expand tpl m ++ sub re tpl rest.
Proof.
  intros H Hm. destruct m as [|c m]; [congruence|].
  change ((c :: m) ++ rest) with (c :: m ++ rest) in *.
  unfold sub. cbn [sub_from]. unfold attempt. rewrite H.
  replace (length (c :: m ++ rest) - length rest) with (S (length m))
    by (simpl; rewrite length_app; lia).
  rewrite sub_from_drop by (rewrite length_app; lia).
  replace (take (S (length m)) (c :: m ++ rest)) with (c :: m)
    by (simpl; rewrite take_app_length; reflexivity).
  rewrite drop_app_length. reflexivity.
Qed.

Lemma text_length_ind (P : text -> Prop) :
  (forall s, (forall s', length s' < length s -> P s') -> P s) -> forall s, P s.
Proof.
  intros H s. remember (length s) as n eqn:E. revert s E.
  induction n as [n IH] using lt_wf_ind. intros s ->.
  apply H. intros s' Hs'. eapply IH; [exact Hs'|reflexivity].
Qed.




End SubFacts.

(** *** Replacement strings without a backslash *)

Section Templates.
Lemma parse_template_plain s :
  plain s -> parse_template s = Some (map TLit s).
Proof.
  unfold parse_template. induction 1 as [|c s Hc _ IH]; [reflexivity|].
  simpl. unfold step_text. rewrite Hc. simpl. rewrite IH. reflexivity.
Qed.

Lemma expand_lits s whole : expand (map TLit s) whole = s.
Proof.
  unfold expand. induction s as [|c s IH]; [reflexivity|].
  simpl. f_equal. exact IH.
Qed.
End Templates.

(** *** Patterns whose matches are known by shape

    [Occ] is the set of texts the pattern matches, none of them empty, and
    the replacement is the literal [r]. *)

Lemma app_eq_le {A} (x1 y1 x2 y2 : list A) :
  x1 ++ y1 = x2 ++ y2 -> length x1 <= length x2 ->
  exists l, x2 = x1 ++ l /\ y1 = l ++ y2.
Proof.
  intros E Hl. apply app_eq_app in E as [l [[E1 E2]|[E1 E2]]].
  - assert (l = []) as -> by
      (apply (f_equal length) in E1; rewrite length_app in E1;
       destruct l; [reflexivity|simpl in E1; lia]).
    exists []. rewrite app_nil_r in *. simpl in *. auto.
  - exists l. auto.
Qed.

Section Occurrences.
Variables (re : regex) (tpl : template) (Occ : text -> Prop) (r : text).
Hypothesis Hmatch : forall s rest,
  match_here any_end re s = Some rest <-> exists m, Occ m /\ s = m ++ rest.
Hypothesis Hne : forall m, Occ m -> m <> [].
Hypothesis Htpl : forall m, expand tpl m = r.
Implicit Types (s t u m x y z : text).

Lemma occ_match m rest : Occ m -> match_here any_end re (m ++ rest) = Some rest.
Proof. intros Hm. apply Hmatch. exists m. auto. Qed.

(** No occurrence is a proper prefix of another. *)
Lemma occ_unique m1 m2 x y :
  Occ m1 -> Occ m2 -> m1 ++ x = m2 ++ y -> m1 = m2 /\ x = y.
Proof.
  intros H1 H2 E.
  pose proof (occ_match m1 x H1) as M1. rewrite E in M1.
  rewrite (occ_match m2 y H2) in M1. injection M1 as ->.
  apply app_inv_tail in E. auto.
Qed.

Lemma sub_occ_expand m rest :
  Occ m -> sub re tpl (m ++ rest) = expand tpl m ++ sub re tpl rest.
Proof. intros Hm. rewrite sub_some; auto using occ_match. Qed.

Lemma sub_occ m rest : Occ m -> sub re tpl (m ++ rest) = r ++ sub re tpl rest.
Proof. intros Hm. rewrite sub_occ_expand, Htpl by exact Hm. reflexivity. Qed.

Lemma sub_empty : sub re tpl [] = [].
Proof.
  rewrite sub_none; [reflexivity|].
  destruct (match_here any_end re []) as [rest|] eqn:E; [|reflexivity].
  apply Hmatch in E as (m & Hm & E). symmetry in E.
  apply app_eq_nil in E as [-> _]. destruct (Hne _ Hm eq_refl).
Qed.

Lemma sub_copy c s :
  match_here any_end re (c :: s) = None ->
  sub re tpl (c :: s) = c :: sub re tpl s.
Proof. intros H. rewrite sub_none by exact H. reflexivity. Qed.

(** Induction along the scan. *)
Lemma scan_ind (P : text -> Prop) :
  P [] ->
  (forall c s, match_here any_end re (c :: s) = None -> P s -> P (c :: s)) ->
  (forall m rest, Occ m -> P rest -> P (m ++ rest)) ->
  forall s, P s.
Proof.
  intros Hnil Hcopy Hocc s. induction s as [s IH] using text_length_ind.
  destruct (match_here any_end re s) as [rest|] eqn:E.
  - apply Hmatch in E as (m & Hm & ->). apply Hocc; [exact Hm|].
    apply IH. rewrite length_app. specialize (Hne _ Hm).
    destruct m; [congruence|simpl; lia].
  - destruct s as [|c s]; [exact Hnil|]. apply Hcopy; [exact E|].
    apply IH. simpl. lia.
Qed.

(** A text in which every occurrence is the replacement already is left
    as it is. *)
Lemma sub_settled t : Settled Occ r t -> sub re tpl t = t.
Proof.
  induction t as [|c s Hno IH|m rest Hm IH] using scan_ind; intros Hs.
  - apply sub_empty.
  - rewrite sub_copy by exact Hno. f_equal. apply IH.
    intros u m z -> Hm. apply (Hs (c :: u) m z); [reflexivity|exact Hm].
  - rewrite sub_occ by exact Hm.
    assert (m = r) as -> by (apply (Hs [] m rest); [reflexivity|exact Hm]).
    f_equal. apply IH.
    intros u m z -> Hm'. apply (Hs (r ++ u) m z); [|exact Hm'].
    rewrite <- app_assoc. reflexivity.
Qed.

(** The replacement does not hide the fact that a match was absent: if an
    occurrence of shape [OccA] starts in front of the scanned text and
    reaches into the result, it was there before, provided no such
    occurrence reaches into a replacement that starts later. *)
Section Observer.
Variable OccA : text -> Prop.
Hypothesis Hover : forall m u x y,
  OccA m -> u <> [] -> m ++ x = u ++ r ++ y -> length m <= length u.

Lemma reach_back t : forall u m z,
  u <> [] -> OccA m -> u ++ sub re tpl t = m ++ z ->
  exists z', u ++ t = m ++ z'.
Proof.
  induction t as [|c s Hno IH|m1 rest Hm1 IH] using scan_ind; intros u m z Hu Hm E.
  - rewrite sub_empty in E. eauto.
  - rewrite sub_copy in E by exact Hno.
    destruct (IH (u ++ [c]) m z) as [z' Hz'].
    + destruct u; discriminate.
    + exact Hm.
    + rewrite <- app_assoc. exact E.
    + exists z'. rewrite <- Hz', <- app_assoc. reflexivity.
  - rewrite sub_occ in E by exact Hm1.
    symmetry in E. pose proof (Hover m u z _ Hm Hu E) as Hl.
    destruct (app_eq_le _ _ _ _ E Hl) as (l & -> & _).
    exists (l ++ m1 ++ rest). rewrite <- app_assoc. reflexivity.
Qed.

(** Settledness for [OccA] survives the substitution. *)
Variable rA : text.
Hypothesis HneA : forall m, OccA m -> m <> [].
Hypothesis Hin : forall m u y z,
  OccA m -> r ++ y = u ++ m ++ z -> m = rA \/ length r <= length u.

Lemma sub_keeps_settled t :
  Settled OccA rA t -> Settled OccA rA (sub re tpl t).
Proof.
  induction t as [|c s Hno IH|m1 rest Hm1 IH] using scan_ind; intros Hs.
  - rewrite sub_empty. exact Hs.
  - rewrite sub_copy by exact Hno. intros u m z E Hm.
    destruct u as [|c' u].
    + destruct (reach_back s [c] m z) as [z' Hz']; [discriminate|exact Hm|exact E|].
      apply (Hs [] m z'); [exact Hz'|exact Hm].
    + injection E as <- E. refine (IH _ u m z E Hm).
      intros u' m' z' -> Hm'. apply (Hs (c :: u') m' z'); [reflexivity|exact Hm'].
  - rewrite sub_occ by exact Hm1. intros u m z E Hm.
    destruct (Hin m u _ z Hm E) as [->|Hl]; [reflexivity|].
    destruct (app_eq_le _ _ _ _ E Hl) as (l & _ & E').
    refine (IH _ l m z E' Hm).
    intros u' m' z' -> Hm'. apply (Hs (m1 ++ u') m' z'); [|exact Hm'].
    rewrite <- app_assoc. reflexivity.
Qed.
End Observer.

(** No occurrence reaches into another one that starts later. *)
Hypothesis Hapart : forall m1 m2 u x y,
  Occ m1 -> Occ m2 -> u <> [] -> m1 ++ x = u ++ m2 ++ y -> length m1 <= length u.

(** Every occurrence is replaced, wherever it stands. *)
Lemma sub_around (pre m post : text) :
  Occ m ->
  sub re tpl (pre ++ m ++ post)
  = sub re tpl pre ++ expand tpl m ++ sub re tpl post.
Proof.
  intros Hm. induction pre as [|c s Hno IH|m1 rest Hm1 IH] using scan_ind.
  - rewrite sub_empty. simpl. apply sub_occ_expand. exact Hm.
  - rewrite sub_copy by exact Hno. simpl. rewrite sub_copy; [f_equal; exact IH|].
    destruct (match_here any_end re (c :: s ++ m ++ post)) as [rest|] eqn:E; [|reflexivity].
    exfalso. apply Hmatch in E as (m0 & Hm0 & E).
    change (c :: s ++ m ++ post) with ((c :: s) ++ m ++ post) in E. symmetry in E.
    pose proof (Hapart m0 m (c :: s) _ _ Hm0 Hm ltac:(discriminate) E) as Hl.
    destruct (app_eq_le _ _ _ _ E Hl) as (l & E' & _).
    rewrite E', occ_match in Hno by exact Hm0. discriminate.
  - rewrite <- app_assoc, sub_occ_expand by exact Hm1.
    rewrite (sub_occ_expand m1 rest Hm1), IH, <- app_assoc. reflexivity.
Qed.

(** After the substitution every occurrence is the replacement, when the
    replacement is itself an occurrence. *)
Hypothesis Hr : Occ r.

Lemma sub_settles t : Settled Occ r (sub re tpl t).
Proof.
  induction t as [|c s Hno IH|m1 rest Hm1 IH] using scan_ind.
  - rewrite sub_empty. intros u m z E Hm. symmetry in E.
    apply app_eq_nil in E as [_ E]. apply app_eq_nil in E as [-> _].
    destruct (Hne _ Hm eq_refl).
  - rewrite sub_copy by exact Hno. intros u m z E Hm.
    destruct u as [|c' u].
    + exfalso.
      destruct (reach_back Occ (fun m u x y Hm => Hapart m r u x y Hm Hr) s [c] m z)
        as [z' Hz']; [discriminate|exact Hm|exact E|].
      simpl in Hz'. rewrite Hz', occ_match in Hno by exact Hm. discriminate.
    + injection E as <- E. apply (IH u m z E Hm).
  - rewrite sub_occ by exact Hm1. intros u m z E Hm.
    destruct u as [|c u].
    + simpl in E. symmetry in E. apply (occ_unique m r _ _ Hm Hr) in E as [-> _]. reflexivity.
    + pose proof (Hapart r m (c :: u) _ _ Hr Hm ltac:(discriminate) E) as Hl.
      destruct (app_eq_le _ _ _ _ E Hl) as (l & _ & E').
      apply (IH l m z E' Hm).
Qed.

(** Substituting twice is substituting once. *)
Lemma sub_idempotent t : sub re tpl (sub re tpl t) = sub re tpl t.
Proof. apply sub_settled, sub_settles. Qed.
End Occurrences.

(** *** Occurrences do not overlap

    An occurrence is its key followed by characters that no key contains;
    so another occurrence can only start inside it where the key repeats
    its own first two characters. *)

Section Apart.
Implicit Types (pre body u x y tail m : text) (a b : ascii).

Lemma mid_in {A} (l x u y : list A) (a : A) :
  l ++ x = u ++ a :: y -> length u < length l -> In a l.
Proof.
  revert l. induction u as [|c u IH]; intros [|d l]; simpl; try lia.
  - intros [= -> _] _. auto.
  - intros [= _ E] Hl. right. apply IH; [exact E|lia].
Qed.

Lemma pair_overlap a b tail body x y :
  Forall (fun c => sym c = true) body -> body <> [] ->
  sym a = false -> sym b = false ->
  forall u pre i,
    (pre ++ body) ++ x = u ++ (a :: b :: tail) ++ y ->
    length u < length (pre ++ body) ->
    In (i + length u) (pair_places a b i pre).
Proof.
  intros Hbody Hne Ha Hb.
  assert (Hsym : forall c, In c body -> sym c = true)
    by (apply List.Forall_forall; exact Hbody).
  induction u as [|c u IH]; intros pre i E Hl.
  - destruct pre as [|p [|q pre]]; simpl in E.
    + destruct body as [|d body]; [congruence|]. injection E as -> _.
      rewrite Hsym in Ha by (left; reflexivity). discriminate.
    + destruct body as [|d body]; [congruence|]. injection E as -> -> _.
      rewrite Hsym in Hb by (left; reflexivity). discriminate.
    + injection E as -> -> _. simpl.
      rewrite !(proj2 (eqc_true _ _) eq_refl). simpl. left. lia.
  - destruct pre as [|p pre].
    + exfalso. simpl in E, Hl.
      assert (In a body) as Hin by (apply (mid_in body x (c :: u) _ a E); exact Hl).
      rewrite Hsym in Ha by exact Hin. discriminate.
    + simpl in E. injection E as _ E. simpl in Hl.
      specialize (IH pre (S i) E ltac:(lia)).
      replace (i + length (c :: u)) with (S i + length u) by (simpl; lia).
      destruct pre as [|q pre]; [destruct IH|].
      cbn [pair_places]. apply in_or_app. right. exact IH.
Qed.

(** If the pair occurs in the key at its start only, an occurrence does
    not reach into a text that starts with the pair. *)
Lemma framed_apart pre a b tail m u x y :
  Framed pre m -> sym a = false -> sym b = false ->
  Forall (fun k => k = 0) (pair_places a b 0 pre) ->
  u <> [] -> m ++ x = u ++ (a :: b :: tail) ++ y -> length m <= length u.
Proof.
  intros (body & -> & Hbody & Hne) Ha Hb Hp Hu E.
  destruct (Nat.le_gt_cases (length (pre ++ body)) (length u)) as [|Hl]; [assumption|].
  pose proof (pair_overlap a b tail body x y Hbody Hne Ha Hb u pre 0 E Hl) as Hin.
  rewrite List.Forall_forall in Hp. apply Hp in Hin. simpl in Hin.
  destruct u; [congruence|discriminate].
Qed.

(** If the pair does not occur in the key, no text that starts with the
    pair starts inside an occurrence. *)
Lemma framed_inside pre a b tail m u x y :
  Framed pre m -> sym a = false -> sym b = false ->
  pair_places a b 0 pre = [] ->
  m ++ x = u ++ (a :: b :: tail) ++ y -> length m <= length u.
Proof.
  intros (body & -> & Hbody & Hne) Ha Hb Hp E.
  destruct (Nat.le_gt_cases (length (pre ++ body)) (length u)) as [|Hl]; [assumption|].
  pose proof (pair_overlap a b tail body x y Hbody Hne Ha Hb u pre 0 E Hl) as Hin.
  rewrite Hp in Hin. destruct Hin.
Qed.

Lemma sym_digit c : isdecimal c = true -> sym c = true.
Proof. unfold sym. intros ->. rewrite orb_true_r. reflexivity. Qed.

Lemma sym_space c : isspace c = true -> sym c = true.
Proof. unfold sym. intros ->. reflexivity. Qed.

Lemma Semver_sym v : Semver v -> Forall (fun c => sym c = true) v.
Proof.
  intros (a & b & c & -> & [_ Ha] & [_ Hb] & [_ Hc]).
  assert (Hd : forall l, Forall (fun c => isdecimal c = true) l ->
                         Forall (fun c => sym c = true) l)
    by (intros l Hl; eapply List.Forall_impl; [|exact Hl]; apply sym_digit).
  apply Forall_app; split; [auto|].
  apply Forall_cons; split; [reflexivity|].
  apply Forall_app; split; [auto|].
  apply Forall_cons; split; [reflexivity|auto].
Qed.

Lemma Keyed_framed key m : Keyed key m -> Framed (txt key) m.
Proof.
  intros (v & Hv & ->). exists (dq ++ v ++ dq). split; [reflexivity|].
  split; [|discriminate].
  apply Forall_app; split; [repeat constructor|].
  apply Forall_app; split; [apply Semver_sym; exact Hv|repeat constructor].
Qed.

Lemma Cargo_framed m : CargoVersion m -> Framed (txt "version") m.
Proof.
  intros (ws1 & ws2 & v & Hw1 & Hw2 & Hv & ->).
  exists (ws1 ++ "="%char :: ws2 ++ dq ++ v ++ dq). split; [reflexivity|].
  split; [|destruct ws1; discriminate].
  apply Forall_app; split; [eapply List.Forall_impl; [|exact Hw1]; apply sym_space|].
  apply Forall_cons; split; [reflexivity|].
  apply Forall_app; split; [eapply List.Forall_impl; [|exact Hw2]; apply sym_space|].
  apply Forall_app; split; [repeat constructor|].
  apply Forall_app; split; [apply Semver_sym; exact Hv|repeat constructor].
Qed.

Lemma Framed_nonempty pre m : Framed pre m -> m <> [].
Proof. intros (body & -> & _ & Hne) E. apply app_eq_nil in E as [_ E]. auto. Qed.
End Apart.

(** *** The four patterns that can match *)

Section Instances.
Implicit Types (s t u m x y z v : text) (key : string).

Lemma distinct_label : DistinctStart "LABEL version=".
Proof. do 3 eexists. split; [reflexivity|]. repeat split; repeat constructor. Qed.
Lemma distinct_cargo : DistinctStart "version".
Proof. do 3 eexists. split; [reflexivity|]. repeat split; repeat constructor. Qed.
Lemma distinct_sh_gen : DistinctStart "OPENAPI_GENERATOR_VERSION=".
Proof. do 3 eexists. split; [reflexivity|]. repeat split; repeat constructor. Qed.
Lemma distinct_sh_spec : DistinctStart "SPEC_PATH=".
Proof. do 3 eexists. split; [reflexivity|]. repeat split; repeat constructor. Qed.

Lemma Keyed_nonempty key m : Keyed key m -> m <> [].
Proof. intros H. eapply Framed_nonempty, Keyed_framed, H. Qed.

Lemma Cargo_nonempty m : CargoVersion m -> m <> [].
Proof. intros H. eapply Framed_nonempty, Cargo_framed, H. Qed.

Lemma keyed_apart key :
  DistinctStart key ->
  forall m1 m2 u x y,
    Keyed key m1 -> Keyed key m2 -> u <> [] ->
    m1 ++ x = u ++ m2 ++ y -> length m1 <= length u.
Proof.
  intros (a & b & l & Hk & Ha & Hb & Hp) m1 m2 u x y H1 (v2 & _ & ->) Hu E.
  unfold quoted in E. rewrite Hk in E. rewrite Hk in Hp.
  eapply (framed_apart (a :: b :: l) a b l);
    [rewrite <- Hk; apply Keyed_framed, H1|exact Ha|exact Hb|exact Hp|exact Hu|].
  rewrite E. list_norm.
Qed.

Lemma cargo_apart m1 m2 u x y :
  CargoVersion m1 -> CargoVersion m2 -> u <> [] ->
  m1 ++ x = u ++ m2 ++ y -> length m1 <= length u.
Proof.
  intros H1 (ws1 & ws2 & v2 & _ & _ & _ & ->) Hu E.
  destruct distinct_cargo as (a & b & l & Hk & Ha & Hb & Hp).
  rewrite Hk in E, Hp.
  eapply (framed_apart (a :: b :: l) a b l);
    [rewrite <- Hk; apply Cargo_framed, H1|exact Ha|exact Hb|exact Hp|exact Hu|].
  rewrite E. list_norm.
Qed.

Lemma quoted_keyed key v : Semver v -> Keyed key (quoted key v).
Proof. intros Hv. exists v. auto. Qed.

Lemma quoted_cargo v : Semver v -> CargoVersion (quoted "version = " v).
Proof.
  intros Hv. exists [" "%char], [" "%char], v.
  split; [repeat constructor|]. split; [repeat constructor|]. split; [exact Hv|].
  reflexivity.
Qed.

(** A pattern that matches nowhere leaves every text as it is. *)
Lemma sub_never re tpl :
  (forall s, match_here any_end re s = None) -> forall s, sub re tpl s = s.
Proof.
  intros H s. induction s as [|c s IH]; rewrite sub_none by apply H; [reflexivity|].
  rewrite IH. reflexivity.
Qed.

Lemma sub_ps1_gen tpl s :
  sub (NAtEnd :: re_keyed "OPENAPI_GENERATOR_VERSION=") tpl s = s.
Proof.
  apply sub_never. intros s'. apply match_ps1. do 2 eexists. split; reflexivity.
Qed.

Lemma sub_ps1_spec tpl s : sub (NAtEnd :: re_keyed "SPEC_PATH=") tpl s = s.
Proof.
  apply sub_never. intros s'. apply match_ps1. do 2 eexists. split; reflexivity.
Qed.

(** Idempotence of the keyed rules and of the Cargo.toml rule for a
    version of the right shape. *)
Lemma keyed_settles key v t :
  DistinctStart key -> Semver v ->
  Settled (Keyed key) (quoted key v)
          (sub (re_keyed key) (map TLit (quoted key v)) t).
Proof.
  intros Hk Hv.
  exact (sub_settles (re_keyed key) _ (Keyed key) (quoted key v)
           (match_keyed key) (Keyed_nonempty key) (expand_lits _)
           (keyed_apart key Hk) (quoted_keyed key v Hv) t).
Qed.

Lemma keyed_settled key v t :
  Settled (Keyed key) (quoted key v) t ->
  sub (re_keyed key) (map TLit (quoted key v)) t = t.
Proof.
  exact (sub_settled (re_keyed key) _ (Keyed key) (quoted key v)
           (match_keyed key) (Keyed_nonempty key) (expand_lits _) t).
Qed.

Lemma keyed_idempotent key v t :
  DistinctStart key -> Semver v ->
  let f := sub (re_keyed key) (map TLit (quoted key v)) in f (f t) = f t.
Proof. intros Hk Hv f. apply keyed_settled, keyed_settles; assumption. Qed.

Lemma cargo_idempotent v t :
  Semver v ->
  let f := sub re_cargo (map TLit (quoted "version = " v)) in f (f t) = f t.
Proof.
  intros Hv f. unfold f.
  exact (sub_idempotent re_cargo _ CargoVersion (quoted "version = " v)
           match_cargo Cargo_nonempty (expand_lits _) cargo_apart
           (quoted_cargo v Hv) t).
Qed.

(** The rule for [SPEC_PATH] neither makes nor breaks an occurrence of
    the [OPENAPI_GENERATOR_VERSION] shape. *)
Lemma spec_keeps_gen vg vs t :
  Semver vs ->
  Settled (Keyed "OPENAPI_GENERATOR_VERSION=")
          (quoted "OPENAPI_GENERATOR_VERSION=" vg) t ->
  Settled (Keyed "OPENAPI_GENERATOR_VERSION=")
          (quoted "OPENAPI_GENERATOR_VERSION=" vg)
          (sub (re_keyed "SPEC_PATH=") (map TLit (quoted "SPEC_PATH=" vs)) t).
Proof.
  intros Hvs.
  apply (sub_keeps_settled (re_keyed "SPEC_PATH=") _ (Keyed "SPEC_PATH=")
           (quoted "SPEC_PATH=" vs) (match_keyed "SPEC_PATH=")
           (Keyed_nonempty "SPEC_PATH=") (expand_lits _)).
  - intros m u x y Hm _ E.
    eapply (framed_inside (txt "OPENAPI_GENERATOR_VERSION=") "S" "P");
      [apply Keyed_framed, Hm|reflexivity|reflexivity|reflexivity|exact E].
  - intros m u y z (v & _ & ->) E. right.
    eapply (framed_inside (txt "SPEC_PATH=") "O" "P");
      [apply Keyed_framed, quoted_keyed, Hvs|reflexivity|reflexivity|reflexivity|exact E].
Qed.

Lemma sh_second_run vg vs t :
  Semver vg -> Semver vs ->
  let g := sub (re_keyed "OPENAPI_GENERATOR_VERSION=")
               (map TLit (quoted "OPENAPI_GENERATOR_VERSION=" vg)) in
  let p := sub (re_keyed "SPEC_PATH=") (map TLit (quoted "SPEC_PATH=" vs)) in
  g (p (g t)) = p (g t) /\ p (p (g t)) = p (g t).
Proof.
  intros Hg Hs g p. split.
  - apply keyed_settled, spec_keeps_gen; [exact Hs|].
    apply keyed_settles; [apply distinct_sh_gen|exact Hg].
  - apply keyed_idempotent; [apply distinct_sh_spec|exact Hs].
Qed.
End Instances.

(** *** Line ends *)

Section Newlines.
Lemma universal_newlines_nocr s : nocr (universal_newlines s).
Proof.
  induction s as [s IH] using text_length_ind.
  destruct s as [|c s]; [constructor|]. simpl.
  destruct (eqc c CR) eqn:E.
  - constructor; [reflexivity|].
    destruct s as [|d s]; [constructor|].
    destruct (eqc d LF); apply IH; simpl; lia.
  - constructor; [exact E|]. apply IH. simpl. lia.
Qed.

Lemma universal_newlines_id s : nocr s -> universal_newlines s = s.
Proof.
  induction 1 as [|c s Hc _ IH]; [reflexivity|].
  simpl. rewrite Hc, IH. reflexivity.
Qed.

Lemma attempt_forall (P : ascii -> Prop) re tpl s :
  (forall m, Forall P m -> Forall P (expand tpl m)) ->
  Forall P s -> Forall P (fst (attempt re tpl s)).
Proof.
  intros Hexp Hs. unfold attempt.
  destruct (match_here any_end re s); [|constructor].
  destruct (length s - length _).
  - destruct (match_here _ re s); simpl.
    + apply Forall_app; split; apply Hexp; [constructor|].
      apply Forall_take. exact Hs.
    + apply Hexp. constructor.
  - simpl. apply Hexp. apply Forall_take. exact Hs.
Qed.

Lemma sub_from_forall (P : ascii -> Prop) re tpl :
  (forall m, Forall P m -> Forall P (expand tpl m)) ->
  forall s k, Forall P s -> Forall P (sub_from re tpl k s).
Proof.
  intros Hexp. induction s as [|c s IH]; intros k Hs.
  - destruct k; simpl; [|constructor].
    pose proof (attempt_forall P re tpl [] Hexp Hs) as Ha.
    destruct (attempt re tpl []) as [out n]. rewrite app_nil_r. exact Ha.
  - pose proof Hs as Hs'. apply Forall_cons in Hs' as [Hc Hs'].
    destruct k as [|k]; simpl; [|apply IH; exact Hs'].
    pose proof (attempt_forall P re tpl (c :: s) Hexp Hs) as Ha.
    destruct (attempt re tpl (c :: s)) as [out n].
    apply Forall_app; split; [exact Ha|].
    destruct n; [constructor; [exact Hc|]|]; apply IH; exact Hs'.
Qed.

Lemma sub_lits_nocr re r s :
  nocr r -> nocr s -> nocr (sub re (map TLit r) s).
Proof.
  intros Hr Hs. apply sub_from_forall; [|exact Hs].
  intros m _. rewrite expand_lits. exact Hr.
Qed.
End Newlines.

(** *** [replace] on the world *)

Section WorldFacts.
Implicit Types (w : world) (file g : string) (t new_text : text).

Lemma view_none w file : view w file = None <-> files w !! file = None.
Proof. unfold view. destruct (files w !! file); simpl; split; congruence. Qed.

Lemma replace_view file pat repl w :
  replace file pat repl w =
  match view w file with
  | None => (inl (FileNotFoundError file), w)
  | Some t =>
      match re_sub pat repl t with
      | inl e => (inl e, after_read file w)
      | inr new_text => (inr tt, settle file t new_text w)
      end
  end.
Proof.
  rewrite replace_eq. unfold view, settle.
  destruct (files w !! file) as [data|]; simpl; [|reflexivity].
  destruct (re_sub pat repl (universal_newlines data)); [reflexivity|].
  destruct (bool_decide _); reflexivity.
Qed.

Lemma files_settle file t new_text w :
  files (settle file t new_text w) =
  if bool_decide (t = new_text) then files w else <[file := new_text]> (files w).
Proof. unfold settle. destruct (bool_decide _); reflexivity. Qed.

Lemma view_settle_other file t new_text w g :
  g <> file -> view (settle file t new_text w) g = view w g.
Proof.
  intros Hg. unfold view. rewrite files_settle.
  destruct (bool_decide _); [reflexivity|].
  rewrite lookup_insert_ne by congruence. reflexivity.
Qed.

Lemma view_settle file t new_text w :
  view w file = Some t -> nocr new_text ->
  view (settle file t new_text w) file = Some new_text.
Proof.
  intros Hv Hn. unfold view. rewrite files_settle.
  destruct (bool_decide _) eqn:E.
  - apply bool_decide_eq_true in E. subst. exact Hv.
  - rewrite lookup_insert_eq. simpl. rewrite universal_newlines_id by exact Hn.
    reflexivity.
Qed.

Lemma view_nocr w file t : view w file = Some t -> nocr t.
Proof.
  unfold view. destruct (files w !! file); simpl; [|discriminate].
  intros [= <-]. apply universal_newlines_nocr.
Qed.

Lemma settle_same file t w : settle file t t w = after_same file w.
Proof. unfold settle. rewrite bool_decide_eq_true_2; reflexivity. Qed.

Lemma view_after_same file w g : view (after_same file w) g = view w g.
Proof. reflexivity. Qed.

Lemma bind_ok {A B} (m : M A) (f : A -> M B) w a w' :
  m w = (inr a, w') -> bind m f w = f a w'.
Proof. unfold bind. intros ->. reflexivity. Qed.

Lemma bind_err {A B} (m : M A) (f : A -> M B) w e w' :
  m w = (inl e, w') -> bind m f w = (inl e, w').
Proof. unfold bind. intros ->. reflexivity. Qed.

Lemma re_sub_plain pat re repl t :
  compile pat = Some re -> plain repl ->
  re_sub pat repl t = inr (sub re (map TLit repl) t).
Proof.
  intros Hc Hp. unfold re_sub. rewrite Hc, parse_template_plain by exact Hp.
  reflexivity.
Qed.
End WorldFacts.

(** *** The run as a whole *)

Section MainFacts.
Implicit Types (w : world) (doc : table) (v g s : value).

(** With the three fields in place the run is the seven calls. *)
Lemma main_rules doc v g s w :
  field doc "version" "version" = Some v ->
  field doc "openapi" "oapigen-version" = Some g ->
  field doc "openapi" "oapi-spec" = Some s ->
  main (ConfigParsed doc) w = run_rules (script_rules v g s) w.
Proof.
  unfold field. intros Hv Hg Hs.
  destruct (lookup_key "version" doc) as [[| | | |sh1 d1]|] eqn:Ev; try discriminate.
  destruct (lookup_key "openapi" doc) as [[| | | |sh2 d2]|] eqn:Eo; try discriminate.
  unfold main, load. simpl run_rules. unfold apply_rule. simpl target. simpl pattern.
  simpl replacement.
  cbv beta iota delta [bind ret getitem raise].
  rewrite Ev, Eo. cbv beta iota. rewrite Hv, Hg, Hs. cbv beta iota.
  repeat match goal with
         | |- context [replace ?a ?b ?c ?w0] =>
             destruct (replace a b c w0) as [[?|[]] ?]; cbv beta iota
         end; reflexivity.
Qed.

Lemma replace_ok_inv file pat repl w w' :
  replace file pat repl w = (inr tt, w') ->
  exists t new_text,
    view w file = Some t /\ re_sub pat repl t = inr new_text
    /\ w' = settle file t new_text w.
Proof.
  rewrite replace_view. destruct (view w file) as [t|]; [|discriminate].
  destruct (re_sub pat repl t) as [e|new_text] eqn:E; [discriminate|].
  intros [= <-]. exists t, new_text. auto.
Qed.

Lemma reads_settle file t new_text w :
  reads (settle file t new_text w) = reads w ++ [file].
Proof.
  unfold settle, reads. destruct (bool_decide _); simpl; rewrite omap_app; reflexivity.
Qed.

Lemma stdout_settle file t new_text w :
  stdout (settle file t new_text w)
  = stdout w ++ [if bool_decide (t = new_text) then no_changes file else updated file].
Proof.
  unfold settle, stdout. destruct (bool_decide _); simpl; rewrite omap_app; reflexivity.
Qed.


Lemma run_rules_ok rs : forall w w',
  run_rules rs w = (inr tt, w') ->
  reads w' = reads w ++ map target rs
  /\ exists ls, stdout w' = stdout w ++ ls /\ Forall2 status_of (map target rs) ls.
Proof.
  induction rs as [|r rs IH]; intros w w'; simpl.
  - intros [= <-]. rewrite app_nil_r. split; [reflexivity|].
    exists []. rewrite app_nil_r. split; [reflexivity|constructor].
  - unfold bind, apply_rule.
    destruct (replace (target r) (pattern r) (replacement r) w) as [[e|[]] w1] eqn:E;
      [discriminate|].
    intros H. apply replace_ok_inv in E as (t & new_text & _ & _ & ->).
    apply IH in H as (Hr & ls & Hs & Hl).
    rewrite Hr, Hs, reads_settle, stdout_settle, <- !app_assoc. split; [reflexivity|].
    eexists. split; [reflexivity|]. constructor; [|exact Hl].
    unfold status_of. destruct (bool_decide _); auto.
Qed.

Lemma main_no_version cfg w :
  no_version cfg -> exists e, main cfg w = (inl e, w).
Proof.
  destruct cfg as [| |doc]; simpl; [eauto|eauto|].
  unfold field, main, load. cbv beta iota delta [bind ret getitem raise].
  destruct (lookup_key "version" doc) as [[| | | |sh d]|]; eauto.
  intros ->. eauto.
Qed.

Lemma main_field_absent doc w :
  field_absent doc -> exists e w', main (ConfigParsed doc) w = (inl e, w').
Proof.
  intros [H|H].
  { destruct (main_no_version (ConfigParsed doc) w H) as [e He]. eauto. }
  revert H. unfold field, main, load. cbv beta iota delta [bind ret getitem raise].
  destruct (lookup_key "version" doc) as [[| | | |sh d]|]; eauto.
  destruct (lookup_key "version" d); eauto.
  intros H.
  repeat match goal with
         | |- context [replace ?a ?b ?c ?w0] =>
             destruct (replace a b c w0) as [[?|[]] ?]; cbv beta iota; eauto
         | |- context [lookup_key ?k ?d0] =>
             destruct (lookup_key k d0) as [[| | | |? ?]|] eqn:?; cbv beta iota; eauto
         end.
  all: destruct H as [H|H]; discriminate.
Qed.

Lemma main_ok_fields cfg w w' :
  main cfg w = (inr tt, w') ->
  exists doc v g s,
    cfg = ConfigParsed doc
    /\ field doc "version" "version" = Some v
    /\ field doc "openapi" "oapigen-version" = Some g
    /\ field doc "openapi" "oapi-spec" = Some s.
Proof.
  intros H. destruct cfg as [| |doc]; try discriminate.
  destruct (field doc "version" "version") as [v|] eqn:Ev.
  2:{ destruct (main_field_absent doc w (or_introl Ev)) as (e & w1 & He). congruence. }
  destruct (field doc "openapi" "oapigen-version") as [g|] eqn:Eg.
  2:{ destruct (main_field_absent doc w (or_intror (or_introl Eg))) as (e & w1 & He).
      congruence. }
  destruct (field doc "openapi" "oapi-spec") as [s|] eqn:Es.
  2:{ destruct (main_field_absent doc w (or_intror (or_intror Es))) as (e & w1 & He).
      congruence. }
  exists doc, v, g, s. auto.
Qed.
End MainFacts.

(* ===================================================================== *)
(** ** The claims *)
(* ===================================================================== *)

(** *** Configuration failures *)

(** C8.  If [variables.toml] is absent the run ends with
    [FileNotFoundError] at once: the world is the one it started in, so no
    target file was read or written and nothing was printed. *)
Theorem missing_config_is_fatal (w : world) :
  main ConfigMissing w = (inl (FileNotFoundError "variables.toml"), w).
Proof. reflexivity. Qed.

(** C1, as stated, fails: without the [openapi] table the run raises
    [KeyError] only at line 24, after the three version rules have
    rewritten their files. *)
Lemma missing_openapi_after_version_rules :
  let r := main (ConfigParsed doc_no_openapi) world_ok in
  field doc_no_openapi "openapi" "oapi-spec" = None
  /\ fst r = inl (KeyError "openapi")
  /\ map fst (writes (snd r)) = ["Dockerfile.deploy"; "Dockerfile"; "Cargo.toml"]
  /\ files (snd r) !! "Dockerfile.deploy"
     = Some (lines [ txt "FROM scratch"; txt "LABEL version=" ++ q "2.0.1" ])
  /\ files (snd r) !! "Dockerfile.deploy" <> files world_ok !! "Dockerfile.deploy".
Proof. vm_compute. repeat split; discriminate. Qed.

(** C1, amended.  If [variables.toml] is missing or malformed, or if it has
    no [version.version], the run raises before any rule is applied: the
    world is unchanged, so no target file was read or modified and nothing
    was printed. *)
Theorem config_failure_applies_no_rule (cfg : config_file) (w : world) :
  no_version cfg -> exists e, main cfg w = (inl e, w).
Proof. apply main_no_version. Qed.

Lemma config_failure_applies_no_rule_witness :
  no_version (ConfigParsed doc_no_version)
  /\ exists e, main (ConfigParsed doc_no_version) world_ok = (inl e, world_ok).
Proof.
  split; [reflexivity|].
  apply (config_failure_applies_no_rule (ConfigParsed doc_no_version) world_ok).
  reflexivity.
Defined.

(** C9, as stated, fails: an integer [version.version] is accepted and
    written with [str()]. *)
Lemma integer_version_accepted :
  let r := main (ConfigParsed doc_integer) world_ok in
  field doc_integer "version" "version" = Some (TInteger 2)
  /\ fst r = inr tt
  /\ files (snd r) !! "Dockerfile"
     = Some (lines [ txt "FROM scratch"; txt "LABEL version=" ++ q "2" ]).
Proof. vm_compute. repeat split. Qed.

(** C9, amended.  If one of [version.version], [openapi.oapigen-version]
    and [openapi.oapi-spec] is absent, the run ends with an exception,
    whatever the files are. *)
Theorem missing_field_fails (doc : table) (w : world) :
  field_absent doc -> exists e w', main (ConfigParsed doc) w = (inl e, w').
Proof. apply main_field_absent. Qed.

Lemma missing_field_fails_witness :
  field_absent doc_no_openapi
  /\ exists e w', main (ConfigParsed doc_no_openapi) world_ok = (inl e, w').
Proof.
  split; [right; left; reflexivity|].
  apply (missing_field_fails doc_no_openapi world_ok).
  right. left. reflexivity.
Defined.

(** *** The calls of a run *)

(** C2, as stated, fails: a run that succeeds makes seven calls of
    [replace], not six, and prints seven lines. *)
Lemma successful_run_has_seven_calls :
  let r := main (ConfigParsed doc_ok) world_ok in
  fst r = inr tt
  /\ reads (snd r) = targets
  /\ length (reads (snd r)) = 7
  /\ length (stdout (snd r)) = 7
  /\ length (reads (snd r)) <> 6.
Proof. vm_compute. repeat split. discriminate. Qed.

(** C2, amended.  A run that succeeds makes exactly seven calls of
    [replace], on the seven targets in order, and prints exactly one status
    line for each call and nothing else. *)
Theorem run_makes_seven_calls (cfg : config_file) (w w' : world) :
  main cfg w = (inr tt, w') ->
  reads w' = reads w ++ targets
  /\ exists ls, stdout w' = stdout w ++ ls
                /\ Forall2 status_of targets ls
                /\ length ls = 7.
Proof.
  intros H. destruct (main_ok_fields cfg w w' H) as (doc & v & g & s & -> & Hv & Hg & Hs).
  rewrite (main_rules doc v g s w Hv Hg Hs) in H.
  apply run_rules_ok in H as (Hr & ls & Hl & Hf).
  split; [exact Hr|]. exists ls. split; [exact Hl|]. split; [exact Hf|].
  apply Forall2_length in Hf. rewrite <- Hf. reflexivity.
Qed.

Lemma run_makes_seven_calls_witness :
  let w' := snd (main (ConfigParsed doc_ok) world_ok) in
  main (ConfigParsed doc_ok) world_ok = (inr tt, w')
  /\ reads w' = reads world_ok ++ targets
  /\ exists ls, stdout w' = stdout world_ok ++ ls
                /\ Forall2 status_of targets ls
                /\ length ls = 7.
Proof.
  split; [vm_compute; reflexivity|].
  apply (run_makes_seven_calls (ConfigParsed doc_ok) world_ok).
  vm_compute. reflexivity.
Defined.

(** *** One call of [replace] *)



(** C4, as stated, fails for the report: a value with a bad escape makes
    [re.sub] raise on the replacement, and the call prints nothing. *)
Lemma ps1_call_with_bad_escape_prints_nothing :
  let g := TString (txt "5.4.0\x") in
  let r := Rule "oapigen.ps1" pat_ps1_gen (rep_ps1_gen g) in
  In r (ps1_rules g (TString (txt "3.1.0")))
  /\ fst (apply_rule r world_ok) = inl TemplateError
  /\ stdout (snd (apply_rule r world_ok)) = []
  /\ files (snd (apply_rule r world_ok)) = files world_ok.
Proof.
  intros g r. split; [left; reflexivity|].
  split; [vm_compute; reflexivity|].
  split; vm_compute; reflexivity.
Qed.

(** C4, amended.  For every content of [oapigen.ps1] and every
    configuration value, the patterns of the two rules on it match at no
    place of any text (the leading dollar sign is the end anchor and a
    letter must follow it), and the call modifies no file and writes
    nothing.  When [re] accepts the replacement the call prints the
    No-changes line for [oapigen.ps1]; when it does not, the call raises
    after reading the file and prints nothing. *)
Theorem ps1_rules_change_nothing
    (w : world) (data : text) (g s : value) (r : rule) :
  files w !! "oapigen.ps1" = Some data ->
  In r (ps1_rules g s) ->
  (exists re, compile (pattern r) = Some re
              /\ forall ok t, match_here ok re t = None)
  /\ files (snd (apply_rule r w)) = files w
  /\ writes (snd (apply_rule r w)) = writes w
  /\ (is_Some (parse_template (replacement r)) ->
      apply_rule r w = (inr tt, after_same "oapigen.ps1" w)
      /\ stdout (after_same "oapigen.ps1" w)
         = stdout w ++ [no_changes "oapigen.ps1"])
  /\ (parse_template (replacement r) = None ->
      apply_rule r w = (inl TemplateError, after_read "oapigen.ps1" w)
      /\ stdout (after_read "oapigen.ps1" w) = stdout w).
Proof.
  intros Hf Hr.
  assert (Hm1 : forall ok t,
             match_here ok (NAtEnd :: re_keyed "OPENAPI_GENERATOR_VERSION=") t = None)
    by (intros; apply match_ps1; do 2 eexists; split; reflexivity).
  assert (Hm2 : forall ok t, match_here ok (NAtEnd :: re_keyed "SPEC_PATH=") t = None)
    by (intros; apply match_ps1; do 2 eexists; split; reflexivity).
  assert (Hlast : stdout (after_same "oapigen.ps1" w)
                  = stdout w ++ [no_changes "oapigen.ps1"])
    by (unfold stdout, after_same; simpl; rewrite omap_app; reflexivity).
  assert (Hquiet : stdout (after_read "oapigen.ps1" w) = stdout w)
    by (unfold stdout, after_read; simpl; rewrite omap_app, app_nil_r; reflexivity).
  assert (Hv : view w "oapigen.ps1" = Some (universal_newlines data))
    by (unfold view; rewrite Hf; reflexivity).
  assert (Hw : forall w0 : world,
             writes {| files := files w0; trace := trace w0 ++ [EvRead "oapigen.ps1"] |}
             = writes w0)
    by (intros w0; unfold writes; simpl; rewrite omap_app, app_nil_r; reflexivity).
  assert (Hws : writes (after_same "oapigen.ps1" w) = writes w)
    by (unfold writes, after_same; simpl; rewrite omap_app, app_nil_r; reflexivity).
  destruct Hr as [<-|[<-|[]]]; unfold apply_rule; cbn [target pattern replacement];
    rewrite replace_view, Hv; unfold re_sub.
  - rewrite compile_ps1_gen. split; [eauto|].
    destruct (parse_template (rep_ps1_gen g)) as [tpl|].
    + rewrite sub_ps1_gen, settle_same. cbn [snd].
      split; [reflexivity|]. split; [exact Hws|].
      split; [intros _; auto|intros [=]].
    + cbn [snd]. split; [reflexivity|]. split; [apply Hw|].
      split; [intros [? [=]]|intros _; auto].
  - rewrite compile_ps1_spec. split; [eauto|].
    destruct (parse_template (rep_ps1_spec s)) as [tpl|].
    + rewrite sub_ps1_spec, settle_same. cbn [snd].
      split; [reflexivity|]. split; [exact Hws|].
      split; [intros _; auto|intros [=]].
    + cbn [snd]. split; [reflexivity|]. split; [apply Hw|].
      split; [intros [? [=]]|intros _; auto].
Qed.

Lemma ps1_rules_change_nothing_witness :
  let r := Rule "oapigen.ps1" pat_ps1_gen (rep_ps1_gen (TString (txt "5.4.0"))) in
  files world_ok !! "oapigen.ps1" = Some oapigen_ps1
  /\ is_Some (parse_template (replacement r))
  /\ (exists re, compile (pattern r) = Some re
                 /\ forall ok t, match_here ok re t = None)
  /\ files (snd (apply_rule r world_ok)) = files world_ok
  /\ writes (snd (apply_rule r world_ok)) = writes world_ok
  /\ (is_Some (parse_template (replacement r)) ->
      apply_rule r world_ok = (inr tt, after_same "oapigen.ps1" world_ok)
      /\ stdout (after_same "oapigen.ps1" world_ok)
         = stdout world_ok ++ [no_changes "oapigen.ps1"])
  /\ (parse_template (replacement r) = None ->
      apply_rule r world_ok = (inl TemplateError, after_read "oapigen.ps1" world_ok)
      /\ stdout (after_read "oapigen.ps1" world_ok) = stdout world_ok).
Proof.
  intros r. split; [reflexivity|]. split; [eexists; vm_compute; reflexivity|].
  apply (ps1_rules_change_nothing world_ok oapigen_ps1 (TString (txt "5.4.0"))
           (TString (txt "3.1.0")) r); [reflexivity|left; reflexivity].
Defined.

(** *** What is written for a value *)

(** C5, as stated, fails: [re.sub] reads the replacement as a template.  A
    version made of a backslash and the letter n reaches the files as a
    line feed between the quotes. *)
Lemma backslash_value_not_verbatim :
  let v := TString (txt "\n") in
  let r := main (ConfigParsed doc_backslash) world_ok in
  field doc_backslash "version" "version" = Some v
  /\ rep_label v = txt "LABEL version=" ++ dq ++ txt "\n" ++ dq
  /\ fst r = inr tt
  /\ files (snd r) !! "Dockerfile"
     = Some (lines [ txt "FROM scratch"; txt "LABEL version=" ++ dq ++ [LF] ++ dq ])
  /\ files (snd r) !! "Dockerfile"
     <> Some (lines [ txt "FROM scratch"; rep_label v ]).
Proof. vm_compute. repeat split. discriminate. Qed.

Section Inserts.
Variables (re : regex) (Occ : text -> Prop).
Hypothesis Hmatch : forall s rest,
  match_here any_end re s = Some rest <-> exists m, Occ m /\ s = m ++ rest.
Hypothesis Hne : forall m, Occ m -> m <> [].
Hypothesis Hapart : forall m1 m2 u x y,
  Occ m1 -> Occ m2 -> u <> [] -> m1 ++ x = u ++ m2 ++ y -> length m1 <= length u.

(** A call whose replacement is a key and a quoted text without backslash
    puts exactly that text in the place of a match, wherever the match
    stands in the file. *)
Lemma call_inserts (w : world) (file : string) (pat : text) (key : string)
    (val data pre m post : text) :
  compile pat = Some re ->
  plain (txt key) -> plain val ->
  files w !! file = Some data ->
  universal_newlines data = pre ++ m ++ post ->
  match_here any_end re (m ++ post) = Some post ->
  exists pre' post',
    re_sub pat (txt key ++ dq ++ val ++ dq) pre = inr pre'
    /\ re_sub pat (txt key ++ dq ++ val ++ dq) post = inr post'
    /\ replace file pat (txt key ++ dq ++ val ++ dq) w
       = (inr tt, settle file (pre ++ m ++ post)
                         (pre' ++ txt key ++ dq ++ val ++ dq ++ post') w).
Proof.
  intros Hc Hk Hv Hf Hd Hm.
  assert (Ho : Occ m).
  { apply Hmatch in Hm as (m' & Hm' & E).
    apply app_inv_tail in E. subst m'. exact Hm'. }
  set (rep := txt key ++ dq ++ val ++ dq).
  assert (Hp : plain rep).
  { apply Forall_app; split; [exact Hk|].
    apply Forall_app; split; [repeat constructor|].
    apply Forall_app; split; [exact Hv|repeat constructor]. }
  exists (sub re (map TLit rep) pre), (sub re (map TLit rep) post).
  rewrite !(re_sub_plain pat re) by assumption.
  split; [reflexivity|]. split; [reflexivity|].
  rewrite replace_view. unfold view. rewrite Hf. simpl. rewrite Hd.
  rewrite (re_sub_plain pat re) by assumption.
  rewrite (sub_around re _ Occ Hmatch Hne Hapart) by exact Ho.
  rewrite expand_lits. unfold rep. rewrite <- !app_assoc. reflexivity.
Qed.
End Inserts.

(** C5, amended.  For configuration values whose text has no backslash,
    each call of lines 20-30 puts in the place of every match of its
    pattern, wherever the match stands in the file, the key of its
    f-string, a quote, the text of its value character for character and
    a quote; the text of a string value is the string itself.  That text
    is what the call stores under the path of the file. *)
Theorem plain_value_inserted_verbatim
    (w : world) (v g s : value) (r : rule) (re : regex)
    (data pre m post : text) :
  In r (script_rules v g s) ->
  plain (format_value v) -> plain (format_value g) -> plain (format_value s) ->
  files w !! target r = Some data ->
  compile (pattern r) = Some re ->
  universal_newlines data = pre ++ m ++ post ->
  match_here any_end re (m ++ post) = Some post ->
  exists key x pre' post',
    In (pattern r, key, x) (inserted v g s)
    /\ (forall t, x = TString t -> format_value x = t)
    /\ re_sub (pattern r) (replacement r) pre = inr pre'
    /\ re_sub (pattern r) (replacement r) post = inr post'
    /\ apply_rule r w
       = (inr tt, settle (target r) (pre ++ m ++ post)
                         (pre' ++ txt key ++ dq ++ format_value x ++ dq ++ post') w).
Proof.
  intros Hr Hv Hg Hs Hf Hc Hd Hm.
  assert (Hpin : forall x t, x = TString t -> format_value x = t)
    by (intros x t ->; reflexivity).
  assert (Hkeyed : forall file pat key x,
             DistinctStart key -> plain (txt key) -> plain (format_value x) ->
             compile pat = Some (re_keyed key) ->
             files w !! file = Some data ->
             match_here any_end (re_keyed key) (m ++ post) = Some post ->
             exists pre' post',
               re_sub pat (fstring key x) pre = inr pre'
               /\ re_sub pat (fstring key x) post = inr post'
               /\ replace file pat (fstring key x) w
                  = (inr tt, settle file (pre ++ m ++ post)
                       (pre' ++ txt key ++ dq ++ format_value x ++ dq ++ post') w)).
  { intros file pat key x Hdk Hpk Hpx Hck Hfk Hmk.
    exact (call_inserts (re_keyed key) (Keyed key) (match_keyed key)
             (Keyed_nonempty key) (keyed_apart key Hdk) w file pat
             key (format_value x) data pre m post Hck Hpk Hpx Hfk Hd Hmk). }
  unfold script_rules in Hr. cbn [In] in Hr.
  destruct Hr as [<-|[<-|[<-|[<-|[<-|[<-|[<-|[]]]]]]]];
    unfold apply_rule; cbn [target pattern replacement] in *.
  - rewrite compile_label in Hc. injection Hc as <-.
    destruct (Hkeyed "Dockerfile.deploy" pat_label "LABEL version=" v distinct_label
                ltac:(repeat constructor) Hv compile_label Hf Hm)
      as (pre' & post' & H1 & H2 & H3).
    exists "LABEL version=", v, pre', post'.
    split; [left; reflexivity|]. split; [apply Hpin|]. auto.
  - rewrite compile_label in Hc. injection Hc as <-.
    destruct (Hkeyed "Dockerfile" pat_label "LABEL version=" v distinct_label
                ltac:(repeat constructor) Hv compile_label Hf Hm)
      as (pre' & post' & H1 & H2 & H3).
    exists "LABEL version=", v, pre', post'.
    split; [left; reflexivity|]. split; [apply Hpin|]. auto.
  - rewrite compile_cargo in Hc. injection Hc as <-.
    destruct (call_inserts re_cargo CargoVersion match_cargo Cargo_nonempty
                cargo_apart w "Cargo.toml" pat_cargo "version = "
                (format_value v) data pre m post compile_cargo
                ltac:(repeat constructor) Hv Hf Hd Hm)
      as (pre' & post' & H1 & H2 & H3).
    exists "version = ", v, pre', post'.
    split; [right; left; reflexivity|]. split; [apply Hpin|]. auto.
  - rewrite compile_ps1_gen in Hc. injection Hc as <-.
    rewrite match_ps1 in Hm by (do 2 eexists; split; reflexivity). discriminate.
  - rewrite compile_ps1_spec in Hc. injection Hc as <-.
    rewrite match_ps1 in Hm by (do 2 eexists; split; reflexivity). discriminate.
  - rewrite compile_sh_gen in Hc. injection Hc as <-.
    destruct (Hkeyed "oapigen.sh" pat_sh_gen "OPENAPI_GENERATOR_VERSION=" g distinct_sh_gen
                ltac:(repeat constructor) Hg compile_sh_gen Hf Hm)
      as (pre' & post' & H1 & H2 & H3).
    exists "OPENAPI_GENERATOR_VERSION=", g, pre', post'.
    split; [do 4 right; left; reflexivity|]. split; [apply Hpin|]. auto.
  - rewrite compile_sh_spec in Hc. injection Hc as <-.
    destruct (Hkeyed "oapigen.sh" pat_sh_spec "SPEC_PATH=" s distinct_sh_spec
                ltac:(repeat constructor) Hs compile_sh_spec Hf Hm)
      as (pre' & post' & H1 & H2 & H3).
    exists "SPEC_PATH=", s, pre', post'.
    split; [do 5 right; left; reflexivity|]. split; [apply Hpin|]. auto.
Qed.

Lemma plain_value_inserted_verbatim_witness :
  let v := TString (txt "2.0.1") in
  let g := TString (txt "5.4.0") in
  let s := TString (txt "3.1.0") in
  let r := Rule "Dockerfile" pat_label (rep_label v) in
  let re := re_keyed "LABEL version=" in
  let pre := txt "FROM scratch" ++ [LF] in
  let m := txt "LABEL version=" ++ q "1.0.0" in
  let post := [LF] in
  In r (script_rules v g s)
  /\ plain (format_value v) /\ plain (format_value g) /\ plain (format_value s)
  /\ files world_ok !! target r = Some dockerfile
  /\ compile (pattern r) = Some re
  /\ universal_newlines dockerfile = pre ++ m ++ post
  /\ match_here any_end re (m ++ post) = Some post
  /\ exists key x pre' post',
      In (pattern r, key, x) (inserted v g s)
      /\ (forall t, x = TString t -> format_value x = t)
      /\ re_sub (pattern r) (replacement r) pre = inr pre'
      /\ re_sub (pattern r) (replacement r) post = inr post'
      /\ apply_rule r world_ok
         = (inr tt, settle (target r) (pre ++ m ++ post)
                           (pre' ++ txt key ++ dq ++ format_value x ++ dq ++ post')
                           world_ok).
Proof.
  intros v g s r re pre m post.
  assert (Hin : In r (script_rules v g s)) by (right; left; reflexivity).
  assert (Hv : plain (format_value v)) by (repeat constructor).
  assert (Hg : plain (format_value g)) by (repeat constructor).
  assert (Hs : plain (format_value s)) by (repeat constructor).
  assert (Hm : match_here any_end re (m ++ post) = Some post)
    by (vm_compute; reflexivity).
  split; [exact Hin|]. split; [exact Hv|]. split; [exact Hg|]. split; [exact Hs|].
  split; [reflexivity|]. split; [exact compile_label|]. split; [reflexivity|].
  split; [exact Hm|].
  apply (plain_value_inserted_verbatim world_ok v g s r re dockerfile pre m post);
    [exact Hin|exact Hv|exact Hg|exact Hs|reflexivity|exact compile_label
    |reflexivity|exact Hm].
Defined.




(** *** Two runs in succession *)

Section TwoRuns.
Implicit Types (w : world) (rs : list (rule * regex)) (t : text).

Lemma replace_literal r re w t :
  Literal r re -> view w (target r) = Some t ->
  apply_rule r w = (inr tt, settle (target r) t (act r re t) w).
Proof.
  intros (Hc & Hp & _) Hv. unfold apply_rule. rewrite replace_view, Hv.
  rewrite (re_sub_plain _ re) by assumption. reflexivity.
Qed.

Lemma act_nocr r re t : Literal r re -> nocr t -> nocr (act r re t).
Proof. intros (_ & _ & Hn) Ht. apply sub_lits_nocr; assumption. Qed.

(** A run of literal rules on files that exist succeeds, and each file
    then reads as the rules on it made it. *)
Lemma run_literal rs : forall w,
  Forall (fun '(r, re) => Literal r re) rs ->
  (forall r re, In (r, re) rs -> is_Some (view w (target r))) ->
  exists w', run_rules (map fst rs) w = (inr tt, w')
             /\ forall f, view w' f = passes rs f <$> view w f.
Proof.
  induction rs as [|[r re] rs IH]; intros w Hl Hex.
  - exists w. split; [reflexivity|]. intros f. simpl.
    destruct (view w f); reflexivity.
  - apply Forall_cons in Hl as [Hr Hl].
    destruct (Hex r re (or_introl eq_refl)) as [t Ht].
    set (w1 := settle (target r) t (act r re t) w).
    assert (Hv1 : forall f, view w1 f
              = if String.eqb (target r) f then Some (act r re t) else view w f).
    { intros f. destruct (String.eqb_spec (target r) f) as [<-|Hne].
      - apply view_settle; [exact Ht|].
        apply act_nocr; [exact Hr|]. eapply view_nocr, Ht.
      - apply view_settle_other. congruence. }
    destruct (IH w1 Hl) as (w' & Hrun & Hview).
    { intros r' re' Hin. rewrite Hv1.
      destruct (String.eqb (target r) (target r')); [eauto|].
      apply (Hex r' re'). right. exact Hin. }
    exists w'. split.
    + simpl. rewrite (bind_ok _ _ _ _ _ (replace_literal r re w t Hr Ht)). exact Hrun.
    + intros f. rewrite Hview, Hv1. simpl.
      destruct (String.eqb_spec (target r) f) as [<-|Hne]; [rewrite Ht; reflexivity|].
      reflexivity.
Qed.

(** A run in which every rule finds its file as it would leave it changes
    nothing. *)
Lemma run_fixed rs : forall w,
  Forall (fun '(r, re) => Literal r re) rs ->
  (forall r re, In (r, re) rs ->
     exists t, view w (target r) = Some t /\ act r re t = t) ->
  run_rules (map fst rs) w = (inr tt, quiet (map (fun p => target (fst p)) rs) w).
Proof.
  induction rs as [|[r re] rs IH]; intros w Hl Hfix; [reflexivity|].
  apply Forall_cons in Hl as [Hr Hl].
  destruct (Hfix r re (or_introl eq_refl)) as (t & Ht & Hact).
  simpl. rewrite (bind_ok _ _ _ _ _ (replace_literal r re w t Hr Ht)).
  rewrite Hact, settle_same. apply IH; [exact Hl|].
  intros r' re' Hin. rewrite view_after_same. apply (Hfix r' re'). right. exact Hin.
Qed.

Lemma quiet_spec fs : forall w,
  files (quiet fs w) = files w
  /\ writes (quiet fs w) = writes w
  /\ stdout (quiet fs w) = stdout w ++ map no_changes fs.
Proof.
  induction fs as [|f fs IH]; intros w; simpl.
  - rewrite app_nil_r. auto.
  - destruct (IH (after_same f w)) as (Hf & Hw & Hs).
    rewrite Hf, Hw, Hs. repeat split.
    + unfold writes, after_same. simpl. rewrite omap_app, app_nil_r. reflexivity.
    + unfold stdout, after_same. simpl. rewrite omap_app, <- app_assoc. reflexivity.
Qed.
End TwoRuns.

Section Idempotence.
Implicit Types (w : world) (v g s : value) (t : text).

Lemma Semver_chars fv :
  Semver fv -> Forall (fun c => isdecimal c = true \/ c = "."%char) fv.
Proof.
  intros (a & b & c & -> & [_ Ha] & [_ Hb] & [_ Hc]).
  assert (Hd : forall l, Forall (fun c => isdecimal c = true) l ->
                         Forall (fun c => isdecimal c = true \/ c = "."%char) l)
    by (intros l Hl; eapply List.Forall_impl; [|exact Hl]; auto).
  apply Forall_app; split; [auto|].
  apply Forall_cons; split; [auto|].
  apply Forall_app; split; [auto|].
  apply Forall_cons; split; [auto|auto].
Qed.

Lemma Semver_plain fv : Semver fv -> plain fv.
Proof.
  intros H. eapply List.Forall_impl; [|apply Semver_chars, H].
  intros c [Hc| ->]; [|reflexivity].
  destruct (eqc c BACKSLASH) eqn:E; [|reflexivity].
  apply eqc_true in E. subst c. discriminate.
Qed.

Lemma Semver_nocr fv : Semver fv -> nocr fv.
Proof.
  intros H. eapply List.Forall_impl; [|apply Semver_chars, H].
  intros c [Hc| ->]; [|reflexivity].
  destruct (eqc c CR) eqn:E; [|reflexivity].
  apply eqc_true in E. subst c. discriminate.
Qed.

Lemma literal_fstring file pat re before x :
  compile pat = Some re -> plain (txt before) -> nocr (txt before) ->
  Semver (format_value x) ->
  Literal (Rule file pat (fstring before x)) re.
Proof.
  intros Hc Hp Hn Hx. split; [exact Hc|]. split; simpl; unfold fstring.
  - apply Forall_app; split; [exact Hp|].
    apply Forall_app; split; [repeat constructor|].
    apply Forall_app; split; [apply Semver_plain, Hx|repeat constructor].
  - apply Forall_app; split; [exact Hn|].
    apply Forall_app; split; [repeat constructor|].
    apply Forall_app; split; [apply Semver_nocr, Hx|repeat constructor].
Qed.

Lemma script_literal v g s :
  Semver (format_value v) -> Semver (format_value g) -> Semver (format_value s) ->
  Forall (fun '(r, re) => Literal r re)
         (combine (script_rules v g s) script_regexes).
Proof.
  intros Hv Hg Hs. simpl.
  repeat (apply Forall_cons; split;
          [apply literal_fstring; [reflexivity|repeat constructor|repeat constructor|assumption]|]).
  constructor.
Qed.
End Idempotence.

Section SecondRun.
Implicit Types (w : world) (v g s : value) (t : text).
Local Arguments act : simpl never.

Lemma second_pass v g s w :
  Semver (format_value v) -> Semver (format_value g) -> Semver (format_value s) ->
  (forall p, In p targets -> is_Some (files w !! p)) ->
  exists w1,
    run_rules (script_rules v g s) w = (inr tt, w1)
    /\ run_rules (script_rules v g s) w1 = (inr tt, quiet targets w1).
Proof.
  intros Hv Hg Hs Hex.
  pose proof (script_literal v g s Hv Hg Hs) as Hl.
  set (rs := combine (script_rules v g s) script_regexes) in *.
  assert (Hview : forall p, In p targets -> exists t, view w p = Some t).
  { intros p Hp. destruct (Hex p Hp) as [d Hd]. unfold view. rewrite Hd. simpl. eauto. }
  destruct (run_literal rs w Hl) as (w1 & Hrun & Hv1).
  { intros r re Hin. destruct (Hview (target r)) as [t Ht]; [|rewrite Ht; eauto].
    simpl in Hin. unfold targets.
    repeat (destruct Hin as [[= <- _]|Hin]; [simpl; tauto|]). destruct Hin. }
  exists w1. split; [exact Hrun|].
  change (script_rules v g s) with (map fst rs).
  change targets with (map (fun p : rule * regex => target (fst p)) rs).
  apply run_fixed; [exact Hl|].
  intros r re Hin. simpl in Hin.
  destruct Hin as [[= <- <-]|Hin].
  { destruct (Hview "Dockerfile.deploy") as [t Ht]; [simpl; tauto|].
    eexists. split; [cbn [target]; rewrite Hv1, Ht; reflexivity|].
    exact (keyed_idempotent "LABEL version=" (format_value v) t distinct_label Hv). }
  destruct Hin as [[= <- <-]|Hin].
  { destruct (Hview "Dockerfile") as [t Ht]; [simpl; tauto|].
    eexists. split; [cbn [target]; rewrite Hv1, Ht; reflexivity|].
    exact (keyed_idempotent "LABEL version=" (format_value v) t distinct_label Hv). }
  destruct Hin as [[= <- <-]|Hin].
  { destruct (Hview "Cargo.toml") as [t Ht]; [simpl; tauto|].
    eexists. split; [cbn [target]; rewrite Hv1, Ht; reflexivity|].
    exact (cargo_idempotent (format_value v) t Hv). }
  destruct Hin as [[= <- <-]|Hin].
  { destruct (Hview "oapigen.ps1") as [t Ht]; [simpl; tauto|].
    exists t. split.
    - cbn [target]. rewrite Hv1, Ht. cbn [fmap option_fmap option_map]. f_equal.
      change (passes rs "oapigen.ps1" t)
        with (sub (NAtEnd :: re_keyed "SPEC_PATH=") (map TLit (rep_ps1_spec s))
                (sub (NAtEnd :: re_keyed "OPENAPI_GENERATOR_VERSION=")
                     (map TLit (rep_ps1_gen g)) t)).
      rewrite sub_ps1_gen, sub_ps1_spec. reflexivity.
    - apply sub_ps1_gen. }
  destruct Hin as [[= <- <-]|Hin].
  { destruct (Hview "oapigen.ps1") as [t Ht]; [simpl; tauto|].
    exists t. split.
    - cbn [target]. rewrite Hv1, Ht. cbn [fmap option_fmap option_map]. f_equal.
      change (passes rs "oapigen.ps1" t)
        with (sub (NAtEnd :: re_keyed "SPEC_PATH=") (map TLit (rep_ps1_spec s))
                (sub (NAtEnd :: re_keyed "OPENAPI_GENERATOR_VERSION=")
                     (map TLit (rep_ps1_gen g)) t)).
      rewrite sub_ps1_gen, sub_ps1_spec. reflexivity.
    - apply sub_ps1_spec. }
  destruct Hin as [[= <- <-]|Hin].
  { destruct (Hview "oapigen.sh") as [t Ht]; [simpl; tauto|].
    eexists. split; [cbn [target]; rewrite Hv1, Ht; reflexivity|].
    exact (proj1 (sh_second_run (format_value g) (format_value s) t Hg Hs)). }
  destruct Hin as [[= <- <-]|Hin].
  { destruct (Hview "oapigen.sh") as [t Ht]; [simpl; tauto|].
    eexists. split; [cbn [target]; rewrite Hv1, Ht; reflexivity|].
    exact (proj2 (sh_second_run (format_value g) (format_value s) t Hg Hs)). }
  destruct Hin.
Qed.
End SecondRun.

(** C6, as stated, fails: with a version that closes the quote and opens
    a second label, the first run writes two labels for one and the second
    run finds both and writes four; it prints Updated for three files. *)
Lemma second_run_updates :
  let r1 := main (ConfigParsed doc_echo) world_ok in
  let r2 := main (ConfigParsed doc_echo) (snd r1) in
  fst r1 = inr tt /\ fst r2 = inr tt
  /\ stdout (snd r2)
     = stdout (snd r1)
       ++ [ updated "Dockerfile.deploy"; updated "Dockerfile"; updated "Cargo.toml";
            no_changes "oapigen.ps1"; no_changes "oapigen.ps1";
            no_changes "oapigen.sh"; no_changes "oapigen.sh" ]
  /\ files (snd r2) !! "Dockerfile" <> files (snd r1) !! "Dockerfile".
Proof. vm_compute. repeat split. discriminate. Qed.

(** C6, amended.  When the three values are of the form digits, dot,
    digits, dot, digits and the five target files exist, a run succeeds and
    a second run with the same configuration modifies no file, writes
    nothing and prints the No-changes line for each of its seven calls. *)
Theorem second_run_changes_nothing (doc : table) (v g s : value) (w : world) :
  field doc "version" "version" = Some v ->
  field doc "openapi" "oapigen-version" = Some g ->
  field doc "openapi" "oapi-spec" = Some s ->
  Semver (format_value v) -> Semver (format_value g) -> Semver (format_value s) ->
  (forall p, In p targets -> is_Some (files w !! p)) ->
  exists w1 w2,
    main (ConfigParsed doc) w = (inr tt, w1)
    /\ main (ConfigParsed doc) w1 = (inr tt, w2)
    /\ files w2 = files w1
    /\ writes w2 = writes w1
    /\ stdout w2 = stdout w1 ++ map no_changes targets.
Proof.
  intros Fv Fg Fs Hv Hg Hs Hex.
  destruct (second_pass v g s w Hv Hg Hs Hex) as (w1 & H1 & H2).
  exists w1, (quiet targets w1).
  rewrite !(main_rules doc v g s) by assumption.
  split; [exact H1|]. split; [exact H2|]. apply quiet_spec.
Qed.

Lemma second_run_changes_nothing_witness :
  let v := TString (txt "2.0.1") in
  let g := TString (txt "5.4.0") in
  let s := TString (txt "3.1.0") in
  field doc_ok "version" "version" = Some v
  /\ field doc_ok "openapi" "oapigen-version" = Some g
  /\ field doc_ok "openapi" "oapi-spec" = Some s
  /\ Semver (format_value v) /\ Semver (format_value g) /\ Semver (format_value s)
  /\ (forall p, In p targets -> is_Some (files world_ok !! p))
  /\ exists w1 w2,
      main (ConfigParsed doc_ok) world_ok = (inr tt, w1)
      /\ main (ConfigParsed doc_ok) w1 = (inr tt, w2)
      /\ files w2 = files w1
      /\ writes w2 = writes w1
      /\ stdout w2 = stdout w1 ++ map no_changes targets.
Proof.
  intros v g s.
  assert (Hd : forall a b c : ascii,
             isdecimal a = true -> isdecimal b = true -> isdecimal c = true ->
             Semver [a; "."%char; b; "."%char; c]).
  { intros a b c Ha Hb Hc. exists [a], [b], [c]. split; [reflexivity|].
    repeat split; try discriminate; repeat constructor; assumption. }
  assert (Hex : forall p, In p targets -> is_Some (files world_ok !! p)).
  { intros p Hp. simpl in Hp.
    repeat (destruct Hp as [<-|Hp]; [vm_compute; eauto|]). destruct Hp. }
  repeat (split; [first [reflexivity | apply Hd; reflexivity | exact Hex]|]).
  apply (second_run_changes_nothing doc_ok v g s world_ok);
    first [reflexivity | apply Hd; reflexivity | exact Hex].
Defined.

(** *** The order of the calls *)

Section Order.
Implicit Types (w : world) (l : list rule) (a b : rule).

Lemma same_outcome_refl w : same_outcome w w.
Proof. split; reflexivity. Qed.

Lemma same_outcome_trans w1 w2 w3 :
  same_outcome w1 w2 -> same_outcome w2 w3 -> same_outcome w1 w3.
Proof. intros [F1 P1] [F2 P2]. split; [congruence|]. etransitivity; eassumption. Qed.

(** [replace] looks at the files only, and adds to the trace. *)
Lemma replace_same_outcome file pat repl w w' res w1 :
  same_outcome w w' -> replace file pat repl w = (res, w1) ->
  exists w1', replace file pat repl w' = (res, w1') /\ same_outcome w1 w1'.
Proof.
  intros [HF HP]. rewrite !replace_view. unfold view. rewrite <- HF.
  destruct (files w !! file) as [d|]; simpl.
  - destruct (re_sub pat repl (universal_newlines d)) as [e|n].
    + intros [= <- <-]. eexists. split; [reflexivity|].
      split; simpl; [exact HF|]. apply Permutation_app_tail. exact HP.
    + intros [= <- <-]. eexists. split; [reflexivity|].
      unfold settle. destruct (bool_decide _); split; simpl;
        try (apply Permutation_app_tail; exact HP); congruence.
  - intros [= <- <-]. eexists. split; [reflexivity|]. split; assumption.
Qed.

Lemma run_same_outcome l : forall w w' res w1,
  same_outcome w w' -> run_rules l w = (res, w1) ->
  exists w1', run_rules l w' = (res, w1') /\ same_outcome w1 w1'.
Proof.
  induction l as [|r l IH]; intros w w' res w1 Hs; simpl.
  - intros [= <- <-]. eauto.
  - unfold bind, apply_rule.
    destruct (replace (target r) (pattern r) (replacement r) w) as [[e|[]] wa] eqn:E;
      destruct (replace_same_outcome _ _ _ w w' _ _ Hs E) as (wa' & -> & Hsa).
    + intros [= <- <-]. eauto.
    + apply IH. exact Hsa.
Qed.

Lemma run_rules_app l1 l2 w :
  run_rules (l1 ++ l2) w = (run_rules l1 ;;; run_rules l2) w.
Proof.
  revert w. induction l1 as [|r l1 IH]; intros w; [reflexivity|].
  simpl. unfold bind.
  destruct (apply_rule r w) as [[e|[]] w1]; [reflexivity|]. rewrite IH. reflexivity.
Qed.

(** Two calls on different files, one after the other, in either order. *)
Lemma exchange a b w w2 :
  target a <> target b ->
  (apply_rule a ;;; apply_rule b) w = (inr tt, w2) ->
  exists w2', (apply_rule b ;;; apply_rule a) w = (inr tt, w2')
              /\ same_outcome w2 w2'.
Proof.
  intros Hne. unfold bind, apply_rule.
  destruct (replace (target a) _ _ w) as [[e|[]] wa] eqn:Ea; [discriminate|].
  intros Eb.
  apply replace_ok_inv in Ea as (ta & na & Hva & Hra & ->).
  apply replace_ok_inv in Eb as (tb & nb & Hvb & Hrb & ->).
  rewrite view_settle_other in Hvb by congruence.
  rewrite (replace_view (target b)), Hvb, Hrb.
  rewrite (replace_view (target a)), view_settle_other, Hva, Hra by congruence.
  eexists. split; [reflexivity|].
  split.
  - rewrite !files_settle.
    destruct (bool_decide (ta = na)), (bool_decide (tb = nb)); try reflexivity.
    apply insert_insert_ne. congruence.
  - unfold settle.
    destruct (bool_decide (ta = na)), (bool_decide (tb = nb)); simpl;
      rewrite <- !app_assoc; apply Permutation_app_head;
      match goal with
      | |- Permutation (?x ++ ?y) _ => apply (Permutation_app_comm x y)
      end.
Qed.

Lemma reorder_run l l' :
  Reorder l l' ->
  forall w w1, run_rules l w = (inr tt, w1) ->
  exists w2, run_rules l' w = (inr tt, w2) /\ same_outcome w1 w2.
Proof.
  induction 1 as [l|l1 a b l2 Hne|l1 l2 l3 _ IH1 _ IH2]; intros w w1 Hrun.
  - eauto using same_outcome_refl.
  - rewrite run_rules_app in Hrun. rewrite run_rules_app.
    unfold bind at 1 in Hrun. unfold bind at 1.
    destruct (run_rules l1 w) as [[e|[]] wa]; [discriminate|].
    change (run_rules (a :: b :: l2) wa)
      with (bind (apply_rule a) (fun _ => bind (apply_rule b) (fun _ => run_rules l2)) wa)
      in Hrun.
    change (run_rules (b :: a :: l2) wa)
      with (bind (apply_rule b) (fun _ => bind (apply_rule a) (fun _ => run_rules l2)) wa).
    destruct ((apply_rule a ;;; apply_rule b) wa) as [[e|[]] wb] eqn:Eab.
    + exfalso. revert Eab Hrun. unfold bind.
      destruct (apply_rule a wa) as [[?|[]] ?]; [discriminate|].
      destruct (apply_rule b _) as [[?|[]] ?]; discriminate.
    + destruct (exchange a b wa wb Hne Eab) as (wb' & Eba & Hs).
      assert (Hrun2 : run_rules l2 wb = (inr tt, w1)).
      { revert Eab Hrun. unfold bind.
        destruct (apply_rule a wa) as [[?|[]] ?]; [discriminate|].
        destruct (apply_rule b _) as [[?|[]] ?]; [discriminate|].
        intros [= <-]. auto. }
      destruct (run_same_outcome l2 wb wb' _ _ Hs Hrun2) as (w2 & Hrun2' & Hs2).
      exists w2. split; [|exact Hs2].
      revert Eba. unfold bind.
      destruct (apply_rule b wa) as [[?|[]] ?]; [discriminate|].
      destruct (apply_rule a _) as [[?|[]] ?]; [discriminate|].
      intros [= <-]. exact Hrun2'.
  - destruct (IH1 w w1 Hrun) as (w2 & H2 & S12).
    destruct (IH2 w w2 H2) as (w3 & H3 & S23).
    eauto using same_outcome_trans.
Qed.

Lemma stdout_same_outcome w w' :
  same_outcome w w' -> Permutation (stdout w) (stdout w').
Proof. intros [_ HP]. unfold stdout. rewrite HP. reflexivity. Qed.
End Order.

(** C7, as stated, fails: the seven calls go to five paths, and the two
    calls on [oapigen.sh] do not commute.  With a generator version that
    brings a [SPEC_PATH] assignment along, the script's order rewrites that
    assignment and the exchanged order leaves it. *)
Lemma order_matters_on_shared_file :
  let v := TString (txt "2.0.1") in
  let g := TString carrier_version in
  let s := TString (txt "3.1.0") in
  let r := main (ConfigParsed doc_carrier) world_ok in
  let r' := run_rules (rules_sh_exchanged v g s) world_ok in
  ~ List.NoDup targets
  /\ Permutation (script_rules v g s) (rules_sh_exchanged v g s)
  /\ fst r = inr tt /\ fst r' = inr tt
  /\ files (snd r) !! "oapigen.sh"
     = Some (lines [ txt "OPENAPI_GENERATOR_VERSION=" ++ q "0" ++ txt " SPEC_PATH="
                       ++ q "3.1.0";
                     txt "SPEC_PATH=" ++ q "3.1.0" ])
  /\ files (snd r') !! "oapigen.sh"
     = Some (lines [ txt "OPENAPI_GENERATOR_VERSION=" ++ q "0" ++ txt " SPEC_PATH="
                       ++ q "1.2.3";
                     txt "SPEC_PATH=" ++ q "3.1.0" ])
  /\ files (snd r) <> files (snd r').
Proof.
  intros v g s r r'. split.
  { unfold targets. intros H.
    apply List.NoDup_cons_iff in H. destruct H as [_ H].
    apply List.NoDup_cons_iff in H. destruct H as [_ H].
    apply List.NoDup_cons_iff in H. destruct H as [_ H].
    apply List.NoDup_cons_iff in H. destruct H as [H _].
    apply H. left. reflexivity. }
  split.
  { unfold script_rules, rules_sh_exchanged.
    do 5 apply perm_skip. apply perm_swap. }
  split; [vm_compute; reflexivity|]. split; [vm_compute; reflexivity|].
  assert (H1 : files (snd r) !! "oapigen.sh"
     = Some (lines [ txt "OPENAPI_GENERATOR_VERSION=" ++ q "0" ++ txt " SPEC_PATH="
                       ++ q "3.1.0";
                     txt "SPEC_PATH=" ++ q "3.1.0" ])) by (vm_compute; reflexivity).
  assert (H2 : files (snd r') !! "oapigen.sh"
     = Some (lines [ txt "OPENAPI_GENERATOR_VERSION=" ++ q "0" ++ txt " SPEC_PATH="
                       ++ q "1.2.3";
                     txt "SPEC_PATH=" ++ q "3.1.0" ])) by (vm_compute; reflexivity).
  split; [exact H1|]. split; [exact H2|].
  intros E. rewrite E, H2 in H1. revert H1.
  apply (proj1 (bool_decide_eq_false _)). vm_compute. reflexivity.
Qed.

(** C7, amended.  Exchanging neighbouring calls on different target files,
    any number of times, does not change what a run that completes leaves
    behind: the reordered calls complete too, with the same final file
    contents, the same events up to order and so the same status lines up
    to order. *)
Theorem reorder_across_files
    (doc : table) (v g s : value) (w w1 : world) (rs : list rule) :
  field doc "version" "version" = Some v ->
  field doc "openapi" "oapigen-version" = Some g ->
  field doc "openapi" "oapi-spec" = Some s ->
  main (ConfigParsed doc) w = (inr tt, w1) ->
  Reorder (script_rules v g s) rs ->
  exists w2,
    run_rules rs w = (inr tt, w2)
    /\ files w2 = files w1
    /\ Permutation (trace w2) (trace w1)
    /\ Permutation (stdout w2) (stdout w1).
Proof.
  intros Hv Hg Hs Hrun Hre. rewrite (main_rules doc v g s w Hv Hg Hs) in Hrun.
  destruct (reorder_run _ _ Hre w w1 Hrun) as (w2 & H2 & Hso).
  exists w2. split; [exact H2|]. pose proof (stdout_same_outcome _ _ Hso) as Hout.
  destruct Hso as [HF HP]. split; [congruence|]. split; symmetry; assumption.
Qed.

(** The two Dockerfile calls moved behind calls on other files. *)
Lemma reorder_across_files_witness :
  let v := TString (txt "2.0.1") in
  let g := TString (txt "5.4.0") in
  let s := TString (txt "3.1.0") in
  let w1 := snd (main (ConfigParsed doc_ok) world_ok) in
  let rs := [ Rule "Cargo.toml" pat_cargo (rep_cargo v);
              Rule "oapigen.ps1" pat_ps1_gen (rep_ps1_gen g);
              Rule "Dockerfile.deploy" pat_label (rep_label v);
              Rule "oapigen.ps1" pat_ps1_spec (rep_ps1_spec s);
              Rule "oapigen.sh" pat_sh_gen (rep_sh_gen g);
              Rule "Dockerfile" pat_label (rep_label v);
              Rule "oapigen.sh" pat_sh_spec (rep_sh_spec s) ] in
  main (ConfigParsed doc_ok) world_ok = (inr tt, w1)
  /\ Reorder (script_rules v g s) rs
  /\ exists w2,
      run_rules rs world_ok = (inr tt, w2)
      /\ files w2 = files w1
      /\ Permutation (trace w2) (trace w1)
      /\ Permutation (stdout w2) (stdout w1).
Proof.
  intros v g s w1 rs.
  assert (Hre : Reorder (script_rules v g s) rs).
  { unfold script_rules, rs.
    (* Dockerfile behind Cargo.toml *)
    eapply Reorder_trans; [apply (Reorder_swap [_] _ _ _); discriminate|]. simpl.
    (* Dockerfile.deploy behind Cargo.toml *)
    eapply Reorder_trans; [apply (Reorder_swap [] _ _ _); discriminate|]. simpl.
    (* Dockerfile behind the calls on oapigen.ps1 and the first on oapigen.sh *)
    eapply Reorder_trans; [apply (Reorder_swap [_; _] _ _ _); discriminate|]. simpl.
    eapply Reorder_trans; [apply (Reorder_swap [_; _; _] _ _ _); discriminate|]. simpl.
    eapply Reorder_trans; [apply (Reorder_swap [_; _; _; _] _ _ _); discriminate|]. simpl.
    (* Dockerfile.deploy behind the first call on oapigen.ps1 *)
    eapply Reorder_trans; [apply (Reorder_swap [_] _ _ _); discriminate|]. simpl.
    apply Reorder_refl. }
  split; [vm_compute; reflexivity|]. split; [exact Hre|].
  apply (reorder_across_files doc_ok v g s world_ok w1 rs);
    [reflexivity|reflexivity|reflexivity|vm_compute; reflexivity|exact Hre].
Defined.

(* ===================================================================== *)
(** ** Further properties of the script *)
(* ===================================================================== *)

Import Calls.

(** *** What a call and a run leave alone *)

Section Frame.
Implicit Types (w : world) (file g : string) (cfg : config_file).

Lemma replace_other file pat repl w g :
  g <> file -> files (snd (replace file pat repl w)) !! g = files w !! g.
Proof.
  intros Hg. rewrite replace_view. destruct (view w file) as [t|]; [|reflexivity].
  destruct (re_sub pat repl t) as [e|n]; [reflexivity|].
  cbn [snd]. rewrite files_settle. destruct (bool_decide _); [reflexivity|].
  apply lookup_insert_ne. congruence.
Qed.

Lemma replace_dom file pat repl w :
  dom (files (snd (replace file pat repl w))) = dom (files w).
Proof.
  rewrite replace_view. destruct (view w file) as [t|] eqn:Hv; [|reflexivity].
  destruct (re_sub pat repl t) as [e|n]; [reflexivity|].
  cbn [snd]. rewrite files_settle. destruct (bool_decide _); [reflexivity|].
  apply dom_insert_lookup_L. unfold view in Hv.
  destruct (files w !! file); [eauto|discriminate].
Qed.

Lemma replace_ps1_files pat repl w :
  pat = pat_ps1_gen \/ pat = pat_ps1_spec ->
  files (snd (replace "oapigen.ps1" pat repl w)) = files w.
Proof.
  intros Hp. rewrite replace_view. destruct (view w "oapigen.ps1") as [t|]; [|reflexivity].
  unfold re_sub.
  destruct Hp as [-> | ->];
    [rewrite compile_ps1_gen|rewrite compile_ps1_spec];
    (destruct (parse_template repl) as [tpl|]; [|reflexivity]).
  - rewrite sub_ps1_gen, settle_same. reflexivity.
  - rewrite sub_ps1_spec, settle_same. reflexivity.
Qed.

(** Whatever holds between the worlds before and after each of the seven
    calls, and is reflexive and transitive, holds between the worlds before
    and after a run, however the run ends. *)
Lemma main_invariant (P : world -> world -> Prop) :
  (forall w, P w w) ->
  (forall w1 w2 w3, P w1 w2 -> P w2 w3 -> P w1 w3) ->
  (forall file pat rep v w,
      In (file, pat, rep) calls -> P w (snd (replace file pat (rep v) w))) ->
  forall cfg w, P w (snd (main cfg w)).
Proof.
  intros Hrefl Htrans Hcall cfg w.
  assert (Hc : forall file pat rep v w0 res w1,
             In (file, pat, rep) calls ->
             replace file pat (rep v) w0 = (res, w1) -> P w0 w1).
  { intros file pat rep v w0 res w1 Hin E.
    pose proof (Hcall file pat rep v w0 Hin) as H. rewrite E in H. exact H. }
  destruct cfg as [| |doc]; [apply Hrefl|apply Hrefl|].
  unfold main, load. cbv beta iota delta [bind ret getitem raise].
  destruct (lookup_key "version" doc) as [[| | | |sh d]|]; try apply Hrefl.
  destruct (lookup_key "version" d) as [v|]; [|apply Hrefl].
  destruct (replace "Dockerfile.deploy" pat_label (rep_label v) w)
    as [[?|[]] w1] eqn:E1;
    pose proof (Hc "Dockerfile.deploy" pat_label rep_label _ _ _ _ ltac:(simpl; tauto) E1) as P1;
    cbv beta iota; [exact P1|].
  destruct (replace "Dockerfile" pat_label (rep_label v) w1)
    as [[?|[]] w2] eqn:E2;
    pose proof (Htrans _ _ _ P1 (Hc "Dockerfile" pat_label rep_label _ _ _ _ ltac:(simpl; tauto) E2)) as P2;
    cbv beta iota; [exact P2|].
  destruct (replace "Cargo.toml" pat_cargo (rep_cargo v) w2)
    as [[?|[]] w3] eqn:E3;
    pose proof (Htrans _ _ _ P2 (Hc "Cargo.toml" pat_cargo rep_cargo _ _ _ _ ltac:(simpl; tauto) E3)) as P3;
    cbv beta iota; [exact P3|].
  destruct (lookup_key "openapi" doc) as [[| | | |sh2 d2]|]; try exact P3.
  destruct (lookup_key "oapigen-version" d2) as [g|]; [|exact P3].
  cbv beta iota.
  destruct (replace "oapigen.ps1" pat_ps1_gen (rep_ps1_gen g) w3)
    as [[?|[]] w4] eqn:E4;
    pose proof (Htrans _ _ _ P3 (Hc "oapigen.ps1" pat_ps1_gen rep_ps1_gen _ _ _ _ ltac:(simpl; tauto) E4)) as P4;
    cbv beta iota; [exact P4|].
  destruct (lookup_key "oapi-spec" d2) as [s|]; [|exact P4].
  cbv beta iota.
  destruct (replace "oapigen.ps1" pat_ps1_spec (rep_ps1_spec s) w4)
    as [[?|[]] w5] eqn:E5;
    pose proof (Htrans _ _ _ P4 (Hc "oapigen.ps1" pat_ps1_spec rep_ps1_spec _ _ _ _ ltac:(simpl; tauto) E5)) as P5;
    cbv beta iota; [exact P5|].
  destruct (replace "oapigen.sh" pat_sh_gen (rep_sh_gen g) w5)
    as [[?|[]] w6] eqn:E6;
    pose proof (Htrans _ _ _ P5 (Hc "oapigen.sh" pat_sh_gen rep_sh_gen _ _ _ _ ltac:(simpl; tauto) E6)) as P6;
    cbv beta iota; [exact P6|].
  destruct (replace "oapigen.sh" pat_sh_spec (rep_sh_spec s) w6)
    as [[?|[]] w7] eqn:E7;
    pose proof (Htrans _ _ _ P6 (Hc "oapigen.sh" pat_sh_spec rep_sh_spec _ _ _ _ ltac:(simpl; tauto) E7)) as P7;
    exact P7.
Qed.
End Frame.

(** X1.  A run neither creates nor removes a file, however it ends: the
    set of paths that exist is the same after it as before. *)
Theorem run_keeps_the_set_of_files (cfg : config_file) (w : world) :
  dom (files (snd (main cfg w))) = dom (files w).
Proof.
  apply (main_invariant (fun w0 w1 => dom (files w1) = dom (files w0))).
  - reflexivity.
  - intros w1 w2 w3 H12 H23. congruence.
  - intros file pat rep v w0 _. apply replace_dom.
Qed.

(** X2.  A run modifies no file other than Dockerfile.deploy, Dockerfile,
    Cargo.toml and oapigen.sh, whatever the configuration and however it
    ends; in particular [oapigen.ps1] is never changed. *)
Theorem run_modifies_four_files_at_most
    (cfg : config_file) (w : world) (g : string) :
  ~ In g written_files ->
  files (snd (main cfg w)) !! g = files w !! g.
Proof.
  intros Hg.
  apply (main_invariant (fun w0 w1 => files w1 !! g = files w0 !! g)).
  - reflexivity.
  - intros w1 w2 w3 H12 H23. congruence.
  - intros file pat rep v w0 Hin. simpl in Hin.
    destruct Hin as [[= <- <- <-]|Hin];
      [apply replace_other; intros ->; apply Hg; simpl; tauto|].
    destruct Hin as [[= <- <- <-]|Hin];
      [apply replace_other; intros ->; apply Hg; simpl; tauto|].
    destruct Hin as [[= <- <- <-]|Hin];
      [apply replace_other; intros ->; apply Hg; simpl; tauto|].
    destruct Hin as [[= <- <- <-]|Hin];
      [rewrite replace_ps1_files by auto; reflexivity|].
    destruct Hin as [[= <- <- <-]|Hin];
      [rewrite replace_ps1_files by auto; reflexivity|].
    destruct Hin as [[= <- <- <-]|Hin];
      [apply replace_other; intros ->; apply Hg; simpl; tauto|].
    destruct Hin as [[= <- <- <-]|Hin];
      [apply replace_other; intros ->; apply Hg; simpl; tauto|].
    destruct Hin.
Qed.

Lemma run_modifies_four_files_at_most_witness :
  ~ In "oapigen.ps1" written_files
  /\ files (snd (main (ConfigParsed doc_ok) world_ok)) !! "oapigen.ps1"
     = files world_ok !! "oapigen.ps1".
Proof.
  assert (H : ~ In "oapigen.ps1" written_files).
  { simpl. intros [H|[H|[H|[H|[]]]]]; discriminate. }
  split; [exact H|].
  apply (run_modifies_four_files_at_most (ConfigParsed doc_ok) world_ok "oapigen.ps1" H).
Defined.

(** *** When a call changes its file *)

Section Changes.
Implicit Types (w : world) (file key : string) (t m : text).

Lemma sub_unmatched re tpl t : Unmatched re t -> sub re tpl t = t.
Proof.
  induction t as [|c t IH]; intros Hu.
  - rewrite sub_none; [reflexivity|]. apply (Hu [] []). reflexivity.
  - rewrite sub_none by (apply (Hu [] (c :: t)); reflexivity).
    f_equal. apply IH. intros u s ->. apply (Hu (c :: u) s). reflexivity.
Qed.

Lemma unmatchedb_sound re t : unmatchedb re t = true -> Unmatched re t.
Proof.
  unfold unmatchedb. intros H u s E.
  assert (Hs : In s (suffixes t)).
  { clear H. revert u E. induction t as [|c t IH]; intros u E.
    - symmetry in E. apply app_eq_nil in E as [_ ->]. left. reflexivity.
    - destruct u as [|c' u]; [left; exact E|].
      right. injection E as _ E. apply (IH u E). }
  rewrite forallb_forall in H. specialize (H s Hs).
  destruct (match_here any_end re s); [discriminate|reflexivity].
Qed.

Lemma view_some w file data :
  files w !! file = Some data -> view w file = Some (universal_newlines data).
Proof. intros H. unfold view. rewrite H. reflexivity. Qed.

Lemma compile_keyed file key :
  In (file, key) keyed_calls ->
  compile (keyed_pattern key) = Some (re_keyed key) /\ DistinctStart key
  /\ plain (txt key) /\ nocr (txt key).
Proof.
  simpl. intros [[= <- <-]|[[= <- <-]|[[= <- <-]|[[= <- <-]|[]]]]].
  - split; [reflexivity|]. split; [apply distinct_label|]. split; repeat constructor.
  - split; [reflexivity|]. split; [apply distinct_label|]. split; repeat constructor.
  - split; [reflexivity|]. split; [apply distinct_sh_gen|]. split; repeat constructor.
  - split; [reflexivity|]. split; [apply distinct_sh_spec|]. split; repeat constructor.
Qed.

Lemma plain_fstring key v :
  plain (txt key) -> plain (format_value v) -> plain (fstring key v).
Proof.
  intros Hk Hv. unfold fstring.
  apply Forall_app; split; [exact Hk|].
  apply Forall_app; split; [repeat constructor|].
  apply Forall_app; split; [exact Hv|repeat constructor].
Qed.

(** A text that the substitution leaves as it is has every occurrence
    equal to the replacement. *)
Lemma sub_fixed_settled re tpl (Occ : text -> Prop) (r : text) :
  (forall s rest, match_here any_end re s = Some rest
                  <-> exists m, Occ m /\ s = m ++ rest) ->
  (forall m, Occ m -> m <> []) ->
  (forall m, expand tpl m = r) ->
  (forall m1 m2 u x y, Occ m1 -> Occ m2 -> u <> [] ->
                       m1 ++ x = u ++ m2 ++ y -> length m1 <= length u) ->
  Occ r ->
  forall t, sub re tpl t = t -> Settled Occ r t.
Proof.
  intros Hmatch Hne Htpl Hapart Hr t.
  induction t as [|c s Hno IH|m1 rest Hm1 IH] using (scan_ind re Occ Hmatch Hne);
    intros Hfix u m z E Hm.
  - symmetry in E. apply app_eq_nil in E as [_ E]. apply app_eq_nil in E as [-> _].
    destruct (Hne _ Hm eq_refl).
  - rewrite (sub_copy re tpl c s Hno) in Hfix. injection Hfix as Hfix.
    destruct u as [|c' u].
    + simpl in E. rewrite E in Hno.
      rewrite (occ_match re Occ Hmatch m z Hm) in Hno. discriminate.
    + injection E as _ E. apply (IH Hfix u m z E Hm).
  - rewrite (sub_occ re tpl Occ r Hmatch Hne Htpl m1 rest Hm1) in Hfix.
    destruct (occ_unique re Occ Hmatch r m1 _ _ Hr Hm1 Hfix) as [<- Hrest].
    destruct u as [|c u].
    + simpl in E. symmetry in E.
      destruct (occ_unique re Occ Hmatch m r _ _ Hm Hr E) as [-> _]. reflexivity.
    + pose proof (Hapart r m (c :: u) _ _ Hr Hm ltac:(discriminate) E) as Hl.
      destruct (app_eq_le _ _ _ _ E Hl) as (l & _ & E').
      apply (IH Hrest l m z E' Hm).
Qed.
End Changes.

(** X3.  For a pattern of the fragment of [Re] (ordinary characters,
    escaped punctuation, [\d], [\s], the dot, the dollar sign and greedy
    star, plus and question mark on one character, which holds the seven
    patterns of the script) and a replacement string that is a valid
    template: if the compiled pattern matches at no place of the text of
    the file, the call leaves every file as it is, writes nothing and
    prints the No-changes line, whatever the replacement. *)
Theorem absent_pattern_changes_nothing
    (w : world) (file : string) (pattern replacement data : text)
    (re : regex) (tpl : template) :
  files w !! file = Some data ->
  compile pattern = Some re ->
  parse_template replacement = Some tpl ->
  Unmatched re (universal_newlines data) ->
  replace file pattern replacement w = (inr tt, after_same file w).
Proof.
  intros Hf Hc Ht Hu. rewrite replace_view, (view_some _ _ _ Hf).
  unfold re_sub. rewrite Hc, Ht, (sub_unmatched re tpl _ Hu), settle_same.
  reflexivity.
Qed.

Lemma absent_pattern_changes_nothing_witness :
  let w := World (<["Dockerfile" := txt "FROM scratch"]> ∅) [] in
  files w !! "Dockerfile" = Some (txt "FROM scratch")
  /\ Unmatched (re_keyed "LABEL version=") (universal_newlines (txt "FROM scratch"))
  /\ replace "Dockerfile" pat_label (rep_label (TString (txt "2.0.1"))) w
     = (inr tt, after_same "Dockerfile" w).
Proof.
  intros w.
  assert (Hu : Unmatched (re_keyed "LABEL version=")
                         (universal_newlines (txt "FROM scratch"))).
  { apply unmatchedb_sound. vm_compute. reflexivity. }
  split; [reflexivity|]. split; [exact Hu|].
  apply (absent_pattern_changes_nothing w "Dockerfile" pat_label
           (rep_label (TString (txt "2.0.1"))) (txt "FROM scratch")
           (re_keyed "LABEL version=")
           (map TLit (rep_label (TString (txt "2.0.1")))));
    [reflexivity|reflexivity|reflexivity|exact Hu].
Defined.

(** X4.  For a call of lines 20, 21, 29, 30 and a value of the form
    digits, dot, digits, dot, digits: the call prints the No-changes line
    and writes nothing when every occurrence of the pattern in the file is
    already the replacement, and it rewrites the file and prints the
    Updated line when some occurrence differs from it. *)
Theorem keyed_call_updates_iff_stale
    (w : world) (file key : string) (data : text) (v : value) :
  In (file, key) keyed_calls ->
  files w !! file = Some data ->
  Semver (format_value v) ->
  let t := universal_newlines data in
  let r := fstring key v in
  (Settled (Keyed key) r t ->
   replace file (keyed_pattern key) r w = (inr tt, after_same file w))
  /\ ((exists u m z, t = u ++ m ++ z /\ Keyed key m /\ m <> r) ->
      exists new_text,
        new_text <> t
        /\ replace file (keyed_pattern key) r w
           = (inr tt, after_update file new_text w)).
Proof.
  intros Hin Hf Hv t r.
  destruct (compile_keyed file key Hin) as (Hc & Hd & Hp & _).
  assert (Hpr : plain r) by (apply plain_fstring; [exact Hp|apply Semver_plain, Hv]).
  assert (Hrun : replace file (keyed_pattern key) r w
                 = (inr tt, settle file t (sub (re_keyed key) (map TLit r) t) w)).
  { rewrite replace_view, (view_some _ _ _ Hf), (re_sub_plain _ _ _ _ Hc Hpr).
    reflexivity. }
  split.
  - intros Hs. rewrite Hrun.
    assert (Hsub : sub (re_keyed key) (map TLit r) t = t)
      by exact (keyed_settled key (format_value v) t Hs).
    rewrite Hsub, settle_same. reflexivity.
  - intros (u & m & z & E & Hm & Hne).
    exists (sub (re_keyed key) (map TLit r) t).
    assert (Hch : sub (re_keyed key) (map TLit r) t <> t).
    { intros Hfix. apply Hne.
      apply (sub_fixed_settled (re_keyed key) (map TLit r) (Keyed key) r
               (match_keyed key) (Keyed_nonempty key) (expand_lits r)
               (keyed_apart key Hd) (quoted_keyed key _ Hv) t Hfix u m z E Hm). }
    split; [exact Hch|]. rewrite Hrun. unfold settle.
    rewrite bool_decide_eq_false_2 by congruence. reflexivity.
Qed.

Lemma keyed_call_updates_iff_stale_witness :
  let v := TString (txt "2.0.1") in
  let t := universal_newlines dockerfile in
  let r := fstring "LABEL version=" v in
  In ("Dockerfile", "LABEL version=") keyed_calls
  /\ files world_ok !! "Dockerfile" = Some dockerfile
  /\ Semver (format_value v)
  /\ (exists u m z, t = u ++ m ++ z /\ Keyed "LABEL version=" m /\ m <> r)
  /\ (Settled (Keyed "LABEL version=") r t ->
      replace "Dockerfile" (keyed_pattern "LABEL version=") r world_ok
      = (inr tt, after_same "Dockerfile" world_ok))
  /\ ((exists u m z, t = u ++ m ++ z /\ Keyed "LABEL version=" m /\ m <> r) ->
      exists new_text,
        new_text <> t
        /\ replace "Dockerfile" (keyed_pattern "LABEL version=") r world_ok
           = (inr tt, after_update "Dockerfile" new_text world_ok)).
Proof.
  intros v t r.
  assert (Hd : forall a b c : ascii,
             isdecimal a = true -> isdecimal b = true -> isdecimal c = true ->
             Semver [a; "."%char; b; "."%char; c]).
  { intros a b c Ha Hb Hc. exists [a], [b], [c]. split; [reflexivity|].
    repeat split; try discriminate; repeat constructor; assumption. }
  split; [simpl; tauto|]. split; [reflexivity|]. split; [apply Hd; reflexivity|].
  split.
  { exists (txt "FROM scratch" ++ [LF]), (quoted "LABEL version=" (txt "1.0.0")), [LF].
    split; [reflexivity|]. split; [|discriminate].
    exists (txt "1.0.0"). split; [apply Hd; reflexivity|reflexivity]. }
  apply (keyed_call_updates_iff_stale world_ok "Dockerfile" "LABEL version="
           dockerfile v); [simpl; tauto|reflexivity|apply Hd; reflexivity].
Defined.

(** X5.  A call of lines 20, 21, 29, 30 rewrites an occurrence of its
    pattern wherever it stands in the file: for a value without a
    backslash, the text computed for [pre ++ m ++ post] with [m] an
    occurrence is the rewritten [pre], the key with the quoted value, and
    the rewritten [post]. *)
Theorem keyed_call_rewrites_every_occurrence
    (w : world) (file key : string) (data pre m post : text) (v : value) :
  In (file, key) keyed_calls ->
  files w !! file = Some data ->
  universal_newlines data = pre ++ m ++ post ->
  Keyed key m ->
  plain (format_value v) ->
  exists pre' post',
    re_sub (keyed_pattern key) (fstring key v) pre = inr pre'
    /\ re_sub (keyed_pattern key) (fstring key v) post = inr post'
    /\ replace file (keyed_pattern key) (fstring key v) w
       = (inr tt, settle file (pre ++ m ++ post)
                         (pre' ++ fstring key v ++ post') w).
Proof.
  intros Hin Hf Hd Hm Hv.
  destruct (compile_keyed file key Hin) as (Hc & Hds & Hp & _).
  assert (Hpr : plain (fstring key v)) by (apply plain_fstring; assumption).
  exists (sub (re_keyed key) (map TLit (fstring key v)) pre),
         (sub (re_keyed key) (map TLit (fstring key v)) post).
  rewrite !(re_sub_plain _ _ _ _ Hc Hpr). split; [reflexivity|]. split; [reflexivity|].
  rewrite replace_view, (view_some _ _ _ Hf), Hd, (re_sub_plain _ _ _ _ Hc Hpr).
  rewrite (sub_around (re_keyed key) _ (Keyed key) (match_keyed key)
             (Keyed_nonempty key) (keyed_apart key Hds)) by exact Hm.
  rewrite expand_lits. reflexivity.
Qed.

Lemma keyed_call_rewrites_every_occurrence_witness :
  let v := TString (txt "9.9.9") in
  let pre := txt "FROM scratch" ++ [LF] in
  let m := txt "LABEL version=" ++ q "1.0.0" in
  let post := [LF] in
  In ("Dockerfile", "LABEL version=") keyed_calls
  /\ files world_ok !! "Dockerfile" = Some dockerfile
  /\ universal_newlines dockerfile = pre ++ m ++ post
  /\ Keyed "LABEL version=" m
  /\ plain (format_value v)
  /\ exists pre' post',
      re_sub (keyed_pattern "LABEL version=") (fstring "LABEL version=" v) pre
      = inr pre'
      /\ re_sub (keyed_pattern "LABEL version=") (fstring "LABEL version=" v) post
         = inr post'
      /\ replace "Dockerfile" (keyed_pattern "LABEL version=")
                 (fstring "LABEL version=" v) world_ok
         = (inr tt, settle "Dockerfile" (pre ++ m ++ post)
                           (pre' ++ fstring "LABEL version=" v ++ post') world_ok).
Proof.
  intros v pre m post.
  assert (Hm : Keyed "LABEL version=" m).
  { exists (txt "1.0.0"). split; [|reflexivity].
    exists ["1"%char], ["0"%char], ["0"%char]. split; [reflexivity|].
    repeat split; try discriminate; repeat constructor. }
  split; [simpl; tauto|]. split; [reflexivity|]. split; [reflexivity|].
  split; [exact Hm|]. split; [repeat constructor|].
  apply (keyed_call_rewrites_every_occurrence world_ok "Dockerfile" "LABEL version="
           dockerfile pre m post v);
    [simpl; tauto|reflexivity|reflexivity|exact Hm|repeat constructor].
Defined.

(** *** What a run leaves behind *)

Section Outcome.
Implicit Types (w : world) (v g s : value) (t : text).

Lemma cargo_settles fv t :
  Semver fv ->
  Settled CargoVersion (quoted "version = " fv)
          (sub re_cargo (map TLit (quoted "version = " fv)) t).
Proof.
  intros Hv.
  exact (sub_settles re_cargo _ CargoVersion (quoted "version = " fv)
           match_cargo Cargo_nonempty (expand_lits _) cargo_apart
           (quoted_cargo fv Hv) t).
Qed.

Lemma first_pass v g s w :
  Semver (format_value v) -> Semver (format_value g) -> Semver (format_value s) ->
  (forall p, In p targets -> is_Some (files w !! p)) ->
  exists w1,
    run_rules (script_rules v g s) w = (inr tt, w1)
    /\ forall f, view w1 f
                 = passes (combine (script_rules v g s) script_regexes) f <$> view w f.
Proof.
  intros Hv Hg Hs Hex.
  pose proof (script_literal v g s Hv Hg Hs) as Hl.
  destruct (run_literal _ w Hl) as (w1 & Hrun & Hv1).
  { intros r re Hin.
    assert (Ht : In (target r) targets).
    { simpl in Hin. unfold targets.
      repeat (destruct Hin as [[= <- _]|Hin]; [simpl; tauto|]). destruct Hin. }
    destruct (Hex _ Ht) as [d Hd]. unfold view. rewrite Hd. simpl. eauto. }
  exists w1. split; [exact Hrun|exact Hv1].
Qed.
End Outcome.

(** X6.  When the three values are of the form digits, dot, digits, dot,
    digits and the five target files exist, the run succeeds and leaves no
    stale version behind: as read back, every occurrence of the label
    pattern in Dockerfile.deploy and Dockerfile and of the version pattern
    in Cargo.toml is the text written for [version.version], and in
    oapigen.sh every occurrence of either pattern is the text written for
    its value. *)
Theorem run_leaves_no_stale_version (doc : table) (v g s : value) (w : world) :
  field doc "version" "version" = Some v ->
  field doc "openapi" "oapigen-version" = Some g ->
  field doc "openapi" "oapi-spec" = Some s ->
  Semver (format_value v) -> Semver (format_value g) -> Semver (format_value s) ->
  (forall p, In p targets -> is_Some (files w !! p)) ->
  exists w1,
    main (ConfigParsed doc) w = (inr tt, w1)
    /\ (exists t, view w1 "Dockerfile.deploy" = Some t
                  /\ Settled (Keyed "LABEL version=") (rep_label v) t)
    /\ (exists t, view w1 "Dockerfile" = Some t
                  /\ Settled (Keyed "LABEL version=") (rep_label v) t)
    /\ (exists t, view w1 "Cargo.toml" = Some t
                  /\ Settled CargoVersion (rep_cargo v) t)
    /\ (exists t, view w1 "oapigen.sh" = Some t
                  /\ Settled (Keyed "OPENAPI_GENERATOR_VERSION=") (rep_sh_gen g) t
                  /\ Settled (Keyed "SPEC_PATH=") (rep_sh_spec s) t).
Proof.
  intros Fv Fg Fs Hv Hg Hs Hex.
  destruct (first_pass v g s w Hv Hg Hs Hex) as (w1 & Hrun & Hv1).
  assert (Hview : forall p, In p targets -> exists t, view w p = Some t).
  { intros p Hp. destruct (Hex p Hp) as [d Hd]. unfold view. rewrite Hd. simpl. eauto. }
  exists w1. rewrite (main_rules doc v g s w Fv Fg Fs). split; [exact Hrun|].
  split; [|split; [|split]].
  - destruct (Hview "Dockerfile.deploy") as [t Ht]; [simpl; tauto|].
    eexists. split; [rewrite Hv1, Ht; reflexivity|].
    exact (keyed_settles "LABEL version=" (format_value v) t distinct_label Hv).
  - destruct (Hview "Dockerfile") as [t Ht]; [simpl; tauto|].
    eexists. split; [rewrite Hv1, Ht; reflexivity|].
    exact (keyed_settles "LABEL version=" (format_value v) t distinct_label Hv).
  - destruct (Hview "Cargo.toml") as [t Ht]; [simpl; tauto|].
    eexists. split; [rewrite Hv1, Ht; reflexivity|].
    exact (cargo_settles (format_value v) t Hv).
  - destruct (Hview "oapigen.sh") as [t Ht]; [simpl; tauto|].
    eexists. split; [rewrite Hv1, Ht; reflexivity|]. split.
    + apply (spec_keeps_gen (format_value g) (format_value s) _ Hs).
      exact (keyed_settles "OPENAPI_GENERATOR_VERSION=" (format_value g) t
               distinct_sh_gen Hg).
    + exact (keyed_settles "SPEC_PATH=" (format_value s) _ distinct_sh_spec Hs).
Qed.

Lemma run_leaves_no_stale_version_witness :
  let v := TString (txt "2.0.1") in
  let g := TString (txt "5.4.0") in
  let s := TString (txt "3.1.0") in
  field doc_ok "version" "version" = Some v
  /\ field doc_ok "openapi" "oapigen-version" = Some g
  /\ field doc_ok "openapi" "oapi-spec" = Some s
  /\ Semver (format_value v) /\ Semver (format_value g) /\ Semver (format_value s)
  /\ (forall p, In p targets -> is_Some (files world_ok !! p))
  /\ exists w1,
      main (ConfigParsed doc_ok) world_ok = (inr tt, w1)
      /\ (exists t, view w1 "Dockerfile.deploy" = Some t
                    /\ Settled (Keyed "LABEL version=") (rep_label v) t)
      /\ (exists t, view w1 "Dockerfile" = Some t
                    /\ Settled (Keyed "LABEL version=") (rep_label v) t)
      /\ (exists t, view w1 "Cargo.toml" = Some t
                    /\ Settled CargoVersion (rep_cargo v) t)
      /\ (exists t, view w1 "oapigen.sh" = Some t
                    /\ Settled (Keyed "OPENAPI_GENERATOR_VERSION=") (rep_sh_gen g) t
                    /\ Settled (Keyed "SPEC_PATH=") (rep_sh_spec s) t).
Proof.
  intros v g s.
  assert (Hd : forall a b c : ascii,
             isdecimal a = true -> isdecimal b = true -> isdecimal c = true ->
             Semver [a; "."%char; b; "."%char; c]).
  { intros a b c Ha Hb Hc. exists [a], [b], [c]. split; [reflexivity|].
    repeat split; try discriminate; repeat constructor; assumption. }
  assert (Hex : forall p, In p targets -> is_Some (files world_ok !! p)).
  { intros p Hp. simpl in Hp.
    repeat (destruct Hp as [<-|Hp]; [vm_compute; eauto|]). destruct Hp. }
  repeat (split; [first [reflexivity | apply Hd; reflexivity | exact Hex]|]).
  apply (run_leaves_no_stale_version doc_ok v g s world_ok);
    first [reflexivity | apply Hd; reflexivity | exact Hex].
Defined.

(** *** Each file depends on the calls on it alone *)

Section OwnCalls.
Implicit Types (w : world) (rs : list rule) (f : string).

Lemma settle_lookup file t new_text w f :
  files (settle file t new_text w) !! f
  = if String.eqb file f then
      (if bool_decide (t = new_text) then files w !! f else Some new_text)
    else files w !! f.
Proof.
  rewrite files_settle. destruct (String.eqb_spec file f) as [<-|Hne].
  - destruct (bool_decide _); [reflexivity|]. apply lookup_insert_eq.
  - destruct (bool_decide _); [reflexivity|]. apply lookup_insert_ne. exact Hne.
Qed.

(** After a run that completes, each file holds what the calls on it made
    of it. *)
Lemma run_content rs : forall w w',
  run_rules rs w = (inr tt, w') ->
  forall f, files w' !! f = content_after rs f (files w !! f).
Proof.
  induction rs as [|r rs IH]; intros w w'; simpl.
  - intros [= <-] f. reflexivity.
  - unfold bind, apply_rule.
    destruct (replace (target r) (pattern r) (replacement r) w) as [[e|[]] w1] eqn:E;
      [discriminate|].
    intros Hrun f. rewrite (IH _ _ Hrun f). f_equal.
    apply replace_ok_inv in E as (t & n & Hv & Hs & ->).
    rewrite settle_lookup. destruct (String.eqb_spec (target r) f) as [<-|Hne];
      [|reflexivity].
    unfold view in Hv. destruct (files w !! target r) as [data|]; [|discriminate].
    simpl in Hv. injection Hv as <-. rewrite Hs. reflexivity.
Qed.

Lemma content_after_on_file rs f : forall c,
  content_after rs f c = content_after (on_file f rs) f c.
Proof.
  unfold on_file. induction rs as [|r rs IH]; intros c; [reflexivity|].
  rewrite filter_cons. simpl. destruct (decide (String.eqb (target r) f = true)) as [E|E].
  - simpl. rewrite E. apply IH.
  - destruct (String.eqb (target r) f); [congruence|]. apply IH.
Qed.

Lemma runs_agree rs1 rs2 w w1 w2 f :
  run_rules rs1 w = (inr tt, w1) -> run_rules rs2 w = (inr tt, w2) ->
  on_file f rs1 = on_file f rs2 ->
  files w1 !! f = files w2 !! f.
Proof.
  intros H1 H2 E.
  rewrite (run_content _ _ _ H1 f), (run_content _ _ _ H2 f).
  rewrite (content_after_on_file rs1), (content_after_on_file rs2), E. reflexivity.
Qed.
End OwnCalls.

(** X7.  Of two runs from the same files that both complete, with
    configurations that agree on [version.version], the three files that
    take the version end up the same, whatever the [openapi] values are;
    and with configurations that agree on the two [openapi] values,
    oapigen.sh ends up the same, whatever the version is. *)
Theorem file_depends_on_its_own_values
    (doc1 doc2 : table) (w w1 w2 : world) :
  main (ConfigParsed doc1) w = (inr tt, w1) ->
  main (ConfigParsed doc2) w = (inr tt, w2) ->
  (field doc1 "version" "version" = field doc2 "version" "version" ->
   files w1 !! "Dockerfile.deploy" = files w2 !! "Dockerfile.deploy"
   /\ files w1 !! "Dockerfile" = files w2 !! "Dockerfile"
   /\ files w1 !! "Cargo.toml" = files w2 !! "Cargo.toml")
  /\ (field doc1 "openapi" "oapigen-version" = field doc2 "openapi" "oapigen-version" ->
      field doc1 "openapi" "oapi-spec" = field doc2 "openapi" "oapi-spec" ->
      files w1 !! "oapigen.sh" = files w2 !! "oapigen.sh").
Proof.
  intros H1 H2.
  destruct (main_ok_fields _ _ _ H1) as (d1 & v1 & g1 & s1 & [= <-] & Fv1 & Fg1 & Fs1).
  destruct (main_ok_fields _ _ _ H2) as (d2 & v2 & g2 & s2 & [= <-] & Fv2 & Fg2 & Fs2).
  rewrite (main_rules _ _ _ _ _ Fv1 Fg1 Fs1) in H1.
  rewrite (main_rules _ _ _ _ _ Fv2 Fg2 Fs2) in H2.
  split.
  - rewrite Fv1, Fv2. intros [= <-].
    repeat split; apply (runs_agree _ _ _ _ _ _ H1 H2); reflexivity.
  - rewrite Fg1, Fg2, Fs1, Fs2. intros [= <-] [= <-].
    apply (runs_agree _ _ _ _ _ _ H1 H2); reflexivity.
Qed.

Lemma file_depends_on_its_own_values_witness :
  let w1 := snd (main (ConfigParsed doc_ok) world_ok) in
  let w2 := snd (main (ConfigParsed doc_carrier) world_ok) in
  main (ConfigParsed doc_ok) world_ok = (inr tt, w1)
  /\ main (ConfigParsed doc_carrier) world_ok = (inr tt, w2)
  /\ field doc_ok "version" "version" = field doc_carrier "version" "version"
  /\ (field doc_ok "version" "version" = field doc_carrier "version" "version" ->
      files w1 !! "Dockerfile.deploy" = files w2 !! "Dockerfile.deploy"
      /\ files w1 !! "Dockerfile" = files w2 !! "Dockerfile"
      /\ files w1 !! "Cargo.toml" = files w2 !! "Cargo.toml")
  /\ (field doc_ok "openapi" "oapigen-version"
      = field doc_carrier "openapi" "oapigen-version" ->
      field doc_ok "openapi" "oapi-spec" = field doc_carrier "openapi" "oapi-spec" ->
      files w1 !! "oapigen.sh" = files w2 !! "oapigen.sh").
Proof.
  intros w1 w2.
  split; [vm_compute; reflexivity|]. split; [vm_compute; reflexivity|].
  split; [reflexivity|].
  apply (file_depends_on_its_own_values doc_ok doc_carrier world_ok w1 w2);
    vm_compute; reflexivity.
Defined.

(** *** Failures in the middle of a run *)

Import MoreExamples.

Section Failures.
Implicit Types (w : world) (rs : list rule).

Lemma run_rules_dom rs : forall w,
  dom (files (snd (run_rules rs w))) = dom (files w).
Proof.
  induction rs as [|r rs IH]; intros w; [reflexivity|].
  simpl. unfold bind, apply_rule.
  pose proof (replace_dom (target r) (pattern r) (replacement r) w) as Hd.
  destruct (replace (target r) (pattern r) (replacement r) w) as [[e|[]] w1];
    [exact Hd|].
  rewrite IH. exact Hd.
Qed.

Lemma letter_not_digit c :
  isasciiletter c = true -> isdecimal c = false /\ eqc c "0" = false.
Proof.
  destruct c as [[] [] [] [] [] [] [] []]; vm_compute; intros H;
    first [discriminate H | split; reflexivity].
Qed.

Lemma parse_template_bad_escape pre c post :
  plain pre -> bad_escape_letter c = true ->
  parse_template (pre ++ BACKSLASH :: c :: post) = None.
Proof.
  intros Hp Hc. unfold parse_template.
  induction Hp as [|a pre Ha _ IH].
  - simpl. unfold bad_escape_letter in Hc.
    apply andb_prop in Hc as [Hc Hk]. apply andb_prop in Hc as [Hl Hg].
    destruct (letter_not_digit c Hl) as [Hd H0].
    apply negb_true_iff in Hg. rewrite Hg, H0, Hd, Hl.
    destruct (known_escape c); [discriminate|reflexivity].
  - simpl. unfold step_text. rewrite Ha. simpl. rewrite IH. reflexivity.
Qed.
End Failures.

(** X8.  If the file of a call does not exist when the run starts, the run
    ends with [FileNotFoundError] for it at that call, provided the calls
    before it completed; what those calls wrote stays written (the world is
    the one they left), and no later call is made. *)
Theorem missing_target_stops_the_run
    (doc : table) (v g s : value) (w w1 : world)
    (before : list rule) (r : rule) (later : list rule) :
  field doc "version" "version" = Some v ->
  field doc "openapi" "oapigen-version" = Some g ->
  field doc "openapi" "oapi-spec" = Some s ->
  script_rules v g s = before ++ r :: later ->
  run_rules before w = (inr tt, w1) ->
  files w !! target r = None ->
  main (ConfigParsed doc) w = (inl (FileNotFoundError (target r)), w1).
Proof.
  intros Fv Fg Fs Hsplit Hrun Hmiss.
  rewrite (main_rules doc v g s w Fv Fg Fs), Hsplit, run_rules_app.
  unfold bind at 1. rewrite Hrun. simpl. unfold bind, apply_rule.
  rewrite replace_view.
  assert (Hn : view w1 (target r) = None).
  { apply view_none. apply not_elem_of_dom.
    pose proof (run_rules_dom before w) as Hd. rewrite Hrun in Hd. simpl in Hd.
    rewrite Hd. apply not_elem_of_dom. exact Hmiss. }
  rewrite Hn. reflexivity.
Qed.

Lemma missing_target_stops_the_run_witness :
  let v := TString (txt "2.0.1") in
  let g := TString (txt "5.4.0") in
  let s := TString (txt "3.1.0") in
  let before := [ Rule "Dockerfile.deploy" pat_label (rep_label v);
                  Rule "Dockerfile" pat_label (rep_label v) ] in
  let r := Rule "Cargo.toml" pat_cargo (rep_cargo v) in
  let w1 := snd (run_rules before world_no_cargo) in
  run_rules before world_no_cargo = (inr tt, w1)
  /\ files world_no_cargo !! target r = None
  /\ map fst (writes w1) = ["Dockerfile.deploy"; "Dockerfile"]
  /\ main (ConfigParsed doc_ok) world_no_cargo
     = (inl (FileNotFoundError (target r)), w1).
Proof.
  intros v g s before r w1.
  split; [vm_compute; reflexivity|]. split; [vm_compute; reflexivity|].
  split; [vm_compute; reflexivity|].
  apply (missing_target_stops_the_run doc_ok v g s world_no_cargo w1 before r
           [ Rule "oapigen.ps1" pat_ps1_gen (rep_ps1_gen g);
             Rule "oapigen.ps1" pat_ps1_spec (rep_ps1_spec s);
             Rule "oapigen.sh" pat_sh_gen (rep_sh_gen g);
             Rule "oapigen.sh" pat_sh_spec (rep_sh_spec s) ]);
    try reflexivity; vm_compute; reflexivity.
Defined.

(** X9.  If the text of [version.version] has, after a part without
    backslash, a backslash followed by an ASCII letter other than a, b, f,
    g, n, r, t, v, then [re] rejects the replacement of the first call: the
    run reads Dockerfile.deploy and ends with an exception without writing
    or printing anything. *)
Theorem bad_escape_in_version_stops_the_run
    (doc : table) (v : value) (w : world) (data pre post : text) (c : ascii) :
  field doc "version" "version" = Some v ->
  format_value v = pre ++ BACKSLASH :: c :: post ->
  plain pre ->
  bad_escape_letter c = true ->
  files w !! "Dockerfile.deploy" = Some data ->
  main (ConfigParsed doc) w = (inl TemplateError, after_read "Dockerfile.deploy" w).
Proof.
  intros Fv Hfmt Hp Hc Hf.
  assert (Hrep : replace "Dockerfile.deploy" pat_label (rep_label v) w
                 = (inl TemplateError, after_read "Dockerfile.deploy" w)).
  { rewrite replace_view, (view_some _ _ _ Hf). unfold re_sub.
    rewrite compile_label.
    assert (Ht : parse_template (rep_label v) = None).
    { unfold rep_label, fstring. rewrite Hfmt.
      replace (txt "LABEL version=" ++ dq ++ (pre ++ BACKSLASH :: c :: post) ++ dq)
        with ((txt "LABEL version=" ++ dq ++ pre) ++ BACKSLASH :: c :: (post ++ dq))
        by (rewrite <- !app_assoc; reflexivity).
      apply parse_template_bad_escape; [|exact Hc].
      apply Forall_app; split; [repeat constructor|].
      apply Forall_app; split; [repeat constructor|exact Hp]. }
    rewrite Ht. reflexivity. }
  revert Fv. unfold field, main, load. cbv beta iota delta [bind ret getitem raise].
  destruct (lookup_key "version" doc) as [[| | | |sh d]|]; try discriminate.
  intros ->. cbv beta iota. rewrite Hrep. reflexivity.
Qed.

Lemma bad_escape_in_version_stops_the_run_witness :
  let v := TString (txt "2.0.1\x") in
  field doc_bad_escape "version" "version" = Some v
  /\ format_value v = txt "2.0.1" ++ BACKSLASH :: "x"%char :: []
  /\ plain (txt "2.0.1")
  /\ bad_escape_letter "x" = true
  /\ files world_ok !! "Dockerfile.deploy" = Some dockerfile
  /\ main (ConfigParsed doc_bad_escape) world_ok
     = (inl TemplateError, after_read "Dockerfile.deploy" world_ok).
Proof.
  intros v.
  split; [reflexivity|]. split; [reflexivity|]. split; [repeat constructor|].
  split; [reflexivity|]. split; [reflexivity|].
  apply (bad_escape_in_version_stops_the_run doc_bad_escape v world_ok dockerfile
           (txt "2.0.1") [] "x"); first [reflexivity | repeat constructor].
Defined.

(** *** What the patterns recognise *)

(** X10.  The pattern of a call of lines 20, 21, 29, 30 compiles, and it
    matches at the start of a text exactly when the text begins with the
    key, a double quote, digits, a dot, digits, a dot, digits and a double
    quote; the match ends behind that quote, whatever follows. *)
Theorem keyed_pattern_matches_exactly (file key : string) :
  In (file, key) keyed_calls ->
  exists re,
    compile (keyed_pattern key) = Some re
    /\ forall s rest,
        match_here any_end re s = Some rest
        <-> exists fv, Semver fv /\ s = txt key ++ dq ++ fv ++ dq ++ rest.
Proof.
  intros Hin. destruct (compile_keyed file key Hin) as (Hc & _).
  exists (re_keyed key). split; [exact Hc|].
  intros s rest. rewrite match_keyed. split.
  - intros (m & (fv & Hfv & ->) & ->). exists fv. split; [exact Hfv|].
    unfold quoted. rewrite <- !app_assoc. reflexivity.
  - intros (fv & Hfv & ->). exists (quoted key fv). split; [exists fv; auto|].
    unfold quoted. rewrite <- !app_assoc. reflexivity.
Qed.

Lemma keyed_pattern_matches_exactly_witness :
  In ("oapigen.sh", "SPEC_PATH=") keyed_calls
  /\ exists re,
      compile (keyed_pattern "SPEC_PATH=") = Some re
      /\ forall s rest,
          match_here any_end re s = Some rest
          <-> exists fv, Semver fv /\ s = txt "SPEC_PATH=" ++ dq ++ fv ++ dq ++ rest.
Proof.
  split; [simpl; tauto|].
  apply (keyed_pattern_matches_exactly "oapigen.sh" "SPEC_PATH="). simpl. tauto.
Defined.

(** X11.  The Cargo.toml pattern compiles, and it matches at the start of
    a text exactly when the text begins with the word version, any white
    space (line ends included), an equals sign, any white space, and a
    quoted digits-dot-digits-dot-digits; nothing ties the match to the
    start of a line or of a key. *)
Theorem cargo_pattern_matches_exactly :
  exists re,
    compile pat_cargo = Some re
    /\ forall s rest,
        match_here any_end re s = Some rest
        <-> exists ws1 ws2 fv,
              Spaces ws1 /\ Spaces ws2 /\ Semver fv
              /\ s = txt "version" ++ ws1 ++ "="%char :: ws2 ++ dq ++ fv ++ dq ++ rest.
Proof.
  exists re_cargo. split; [exact compile_cargo|].
  intros s rest. rewrite match_cargo. split.
  - intros (m & (ws1 & ws2 & fv & H1 & H2 & Hfv & ->) & ->).
    exists ws1, ws2, fv. repeat (split; [assumption|]).
    rewrite <- !app_assoc. simpl. rewrite <- !app_assoc. simpl.
    rewrite <- !app_assoc. reflexivity.
  - intros (ws1 & ws2 & fv & H1 & H2 & Hfv & ->).
    eexists. split; [exists ws1, ws2, fv; repeat (split; [eassumption|]); reflexivity|].
    rewrite <- !app_assoc. simpl. rewrite <- !app_assoc. simpl.
    rewrite <- !app_assoc. reflexivity.
Qed.

(** *** What a run does, in order *)

Section Events.
Implicit Types (w : world) (evs : list event).

Lemma call_events_app evs1 evs2 :
  call_events evs1 -> call_events evs2 -> call_events (evs1 ++ evs2).
Proof.
  intros H1 H2. induction H1; simpl; [exact H2| |]; constructor; assumption.
Qed.

(** Calls that completed, and then a failure that leaves no event. *)
Lemma run_events_failed {A} (e : exn) evs :
  call_events evs -> run_events (inl e : exn + A) evs.
Proof.
  intros H. exists evs, []. rewrite app_nil_r. auto.
Qed.

(** One more call after calls that completed. *)
Lemma replace_events file pat repl w0 w evs :
  trace w = trace w0 ++ evs -> call_events evs ->
  match replace file pat repl w with
  | (inr _, w') =>
      exists evs', trace w' = trace w0 ++ evs' /\ call_events evs'
  | (inl e, w') =>
      exists evs', trace w' = trace w0 ++ evs'
                   /\ run_events (inl e : exn + unit) evs'
  end.
Proof.
  intros Ht Hc. rewrite replace_view. destruct (view w file) as [t|].
  - destruct (re_sub pat repl t) as [e|n].
    + exists (evs ++ [EvRead file]). split.
      * unfold after_read. cbn [trace]. rewrite Ht, app_assoc. reflexivity.
      * exists evs, [EvRead file]. split; [reflexivity|]. split; [exact Hc|].
        right. exists file. reflexivity.
    + unfold settle. destruct (bool_decide _).
      * exists (evs ++ [EvRead file; EvPrint (no_changes file)]). split.
        -- unfold after_same. cbn [trace]. rewrite Ht, app_assoc. reflexivity.
        -- apply call_events_app; [exact Hc|].
           apply call_events_same, call_events_none.
      * exists (evs ++ [EvRead file; EvWrite file n; EvPrint (updated file)]). split.
        -- unfold after_update. cbn [trace]. rewrite Ht, app_assoc. reflexivity.
        -- apply call_events_app; [exact Hc|].
           apply call_events_updated, call_events_none.
  - exists evs. split; [exact Ht|]. apply run_events_failed. exact Hc.
Qed.
End Events.

(** X12.  Provided no write and no print itself fails: whatever the
    configuration and however the run ends, what it does is a sequence of
    completed calls, each of which reads its file and then either prints
    the No-changes line for that file, or writes that file and prints the
    Updated line for it at once; a run that completes does nothing else,
    and a run that ends with an exception does nothing else but, at most,
    the read of the call in which [re.sub] raised, as its last action.  So
    every write is followed by its Updated line, every Updated line follows
    a write of that file, and no call is made after one that raised. *)
Theorem run_reports_what_it_writes (cfg : config_file) (w : world) :
  exists evs,
    trace (snd (main cfg w)) = trace w ++ evs
    /\ run_events (fst (main cfg w)) evs.
Proof.
  pose (Q := fun (o : (exn + unit) * world) =>
               exists evs, trace (snd o) = trace w ++ evs
                           /\ run_events (fst o) evs).
  pose (D := fun w1 : world =>
               exists evs, trace w1 = trace w ++ evs /\ call_events evs).
  change (Q (main cfg w)).
  assert (Hfail : forall e w1, D w1 -> Q (inl e, w1)).
  { intros e w1 (evs & Ht & Hc). exists evs. split; [exact Ht|].
    apply run_events_failed. exact Hc. }
  assert (Hdone : forall w1, D w1 -> Q (inr tt, w1)).
  { intros w1 (evs & Ht & Hc). exists evs. split; [exact Ht|].
    exists evs, []. rewrite app_nil_r.
    split; [reflexivity|]. split; [exact Hc|reflexivity]. }
  assert (Hstep : forall file pat repl w1 res w2,
             D w1 -> replace file pat repl w1 = (res, w2) ->
             match res with
             | inr _ => D w2
             | inl e => Q (inl e, w2)
             end).
  { intros file pat repl w1 res w2 (evs & Ht & Hc) E.
    pose proof (replace_events file pat repl w w1 evs Ht Hc) as H.
    rewrite E in H. destruct res as [e|[]]; exact H. }
  assert (D0 : D w).
  { exists []. rewrite app_nil_r. split; [reflexivity|constructor]. }
  destruct cfg as [| |doc]; [apply Hfail, D0|apply Hfail, D0|].
  unfold main, load. cbv beta iota delta [bind ret getitem raise].
  destruct (lookup_key "version" doc) as [[| | | |sh d]|]; try apply (Hfail _ _ D0).
  destruct (lookup_key "version" d) as [v|]; [|apply (Hfail _ _ D0)].
  destruct (replace "Dockerfile.deploy" pat_label (rep_label v) w)
    as [[?|[]] w1] eqn:E1;
    pose proof (Hstep _ _ _ _ _ _ D0 E1) as D1; cbv beta iota in D1 |- *;
    [exact D1|].
  destruct (replace "Dockerfile" pat_label (rep_label v) w1)
    as [[?|[]] w2] eqn:E2;
    pose proof (Hstep _ _ _ _ _ _ D1 E2) as D2; cbv beta iota in D2 |- *;
    [exact D2|].
  destruct (replace "Cargo.toml" pat_cargo (rep_cargo v) w2)
    as [[?|[]] w3] eqn:E3;
    pose proof (Hstep _ _ _ _ _ _ D2 E3) as D3; cbv beta iota in D3 |- *;
    [exact D3|].
  destruct (lookup_key "openapi" doc) as [[| | | |sh2 d2]|]; try apply (Hfail _ _ D3).
  destruct (lookup_key "oapigen-version" d2) as [g|]; [|apply (Hfail _ _ D3)].
  cbv beta iota.
  destruct (replace "oapigen.ps1" pat_ps1_gen (rep_ps1_gen g) w3)
    as [[?|[]] w4] eqn:E4;
    pose proof (Hstep _ _ _ _ _ _ D3 E4) as D4; cbv beta iota in D4 |- *;
    [exact D4|].
  destruct (lookup_key "oapi-spec" d2) as [s|]; [|apply (Hfail _ _ D4)].
  cbv beta iota.
  destruct (replace "oapigen.ps1" pat_ps1_spec (rep_ps1_spec s) w4)
    as [[?|[]] w5] eqn:E5;
    pose proof (Hstep _ _ _ _ _ _ D4 E5) as D5; cbv beta iota in D5 |- *;
    [exact D5|].
  destruct (replace "oapigen.sh" pat_sh_gen (rep_sh_gen g) w5)
    as [[?|[]] w6] eqn:E6;
    pose proof (Hstep _ _ _ _ _ _ D5 E6) as D6; cbv beta iota in D6 |- *;
    [exact D6|].
  destruct (replace "oapigen.sh" pat_sh_spec (rep_sh_spec s) w6)
    as [[?|[]] w7] eqn:E7;
    pose proof (Hstep _ _ _ _ _ _ D6 E7) as D7; cbv beta iota in D7 |- *;
    [exact D7|apply Hdone, D7].
Qed.

(** *** Two patterns whose occurrences stay clear of each other *)

Section Clear.
Variables (reA reB : regex) (tplA tplB : template).
Variables (OccA OccB : text -> Prop) (rA rB : text).
Hypothesis HmA : forall s rest,
  match_here any_end reA s = Some rest <-> exists m, OccA m /\ s = m ++ rest.
Hypothesis HmB : forall s rest,
  match_here any_end reB s = Some rest <-> exists m, OccB m /\ s = m ++ rest.
Hypothesis HnA : forall m, OccA m -> m <> [].
Hypothesis HnB : forall m, OccB m -> m <> [].
Hypothesis HtA : forall m, expand tplA m = rA.
Hypothesis HtB : forall m, expand tplB m = rB.
Hypothesis HrA : OccA rA.
Hypothesis HrB : OccB rB.
(** No occurrence of the one shape starts inside an occurrence of the other. *)
Hypothesis HAB : forall mA mB u x y,
  OccA mA -> OccB mB -> mA ++ x = u ++ mB ++ y -> length mA <= length u.
Hypothesis HBA : forall mB mA u x y,
  OccB mB -> OccA mA -> mB ++ x = u ++ mA ++ y -> length mB <= length u.
Implicit Types (s t u m x y z : text).

Lemma skip_B m y : OccA m -> sub reB tplB (m ++ y) = m ++ sub reB tplB y.
Proof.
  intros Hm.
  assert (H : forall v u, m = u ++ v -> sub reB tplB (v ++ y) = v ++ sub reB tplB y).
  { induction v as [|c v IH]; intros u E; [reflexivity|].
    simpl. rewrite sub_copy.
    - f_equal. apply (IH (u ++ [c])). rewrite <- app_assoc. exact E.
    - destruct (match_here any_end reB (c :: v ++ y)) as [rest|] eqn:Em; [|reflexivity].
      exfalso. apply HmB in Em as (mB & HmB' & Em).
      assert (E2 : m ++ y = u ++ mB ++ rest).
      { rewrite E, <- app_assoc. simpl. rewrite Em. reflexivity. }
      pose proof (HAB m mB u y rest Hm HmB' E2) as Hl.
      rewrite E, length_app in Hl. simpl in Hl. lia. }
  apply (H m []). reflexivity.
Qed.

Lemma skip_A m y : OccB m -> sub reA tplA (m ++ y) = m ++ sub reA tplA y.
Proof.
  intros Hm.
  assert (H : forall v u, m = u ++ v -> sub reA tplA (v ++ y) = v ++ sub reA tplA y).
  { induction v as [|c v IH]; intros u E; [reflexivity|].
    simpl. rewrite sub_copy.
    - f_equal. apply (IH (u ++ [c])). rewrite <- app_assoc. exact E.
    - destruct (match_here any_end reA (c :: v ++ y)) as [rest|] eqn:Em; [|reflexivity].
      exfalso. apply HmA in Em as (mA & HmA' & Em).
      assert (E2 : m ++ y = u ++ mA ++ rest).
      { rewrite E, <- app_assoc. simpl. rewrite Em. reflexivity. }
      pose proof (HBA m mA u y rest Hm HmA' E2) as Hl.
      rewrite E, length_app in Hl. simpl in Hl. lia. }
  apply (H m []). reflexivity.
Qed.

Lemma still_no_B c s :
  match_here any_end reB (c :: s) = None ->
  match_here any_end reB (c :: sub reA tplA s) = None.
Proof.
  intros Hno.
  destruct (match_here any_end reB (c :: sub reA tplA s)) as [rest|] eqn:Em;
    [|reflexivity].
  exfalso. apply HmB in Em as (mB & HmB' & Em).
  destruct (reach_back reA tplA OccA rA HmA HnA HtA OccB
              (fun m u x y Hm _ E => HBA m rA u x y Hm HrA E) s [c] mB rest)
    as [z' Hz']; [discriminate|exact HmB'|exact Em|].
  simpl in Hz'. rewrite Hz', (occ_match reB OccB HmB mB z' HmB') in Hno. discriminate.
Qed.

Lemma still_no_A c s :
  match_here any_end reA (c :: s) = None ->
  match_here any_end reA (c :: sub reB tplB s) = None.
Proof.
  intros Hno.
  destruct (match_here any_end reA (c :: sub reB tplB s)) as [rest|] eqn:Em;
    [|reflexivity].
  exfalso. apply HmA in Em as (mA & HmA' & Em).
  destruct (reach_back reB tplB OccB rB HmB HnB HtB OccA
              (fun m u x y Hm _ E => HAB m rB u x y Hm HrB E) s [c] mA rest)
    as [z' Hz']; [discriminate|exact HmA'|exact Em|].
  simpl in Hz'. rewrite Hz', (occ_match reA OccA HmA mA z' HmA') in Hno. discriminate.
Qed.

(** The two substitutions commute. *)
Lemma sub_commute t :
  sub reB tplB (sub reA tplA t) = sub reA tplA (sub reB tplB t).
Proof.
  induction t as [t IH] using text_length_ind.
  destruct (match_here any_end reA t) as [rest|] eqn:EA.
  - apply HmA in EA as (m & Hm & ->).
    rewrite (sub_occ reA tplA OccA rA HmA HnA HtA m rest Hm).
    rewrite (skip_B rA _ HrA), (skip_B m _ Hm).
    rewrite (sub_occ reA tplA OccA rA HmA HnA HtA m _ Hm).
    f_equal. apply IH. rewrite length_app. specialize (HnA m Hm).
    destruct m; [congruence|simpl; lia].
  - destruct (match_here any_end reB t) as [rest|] eqn:EB.
    + apply HmB in EB as (m & Hm & ->).
      rewrite (skip_A m _ Hm).
      rewrite (sub_occ reB tplB OccB rB HmB HnB HtB m rest Hm).
      rewrite (sub_occ reB tplB OccB rB HmB HnB HtB m _ Hm).
      rewrite (skip_A rB _ HrB).
      f_equal. apply IH. rewrite length_app. specialize (HnB m Hm).
      destruct m; [congruence|simpl; lia].
    + destruct t as [|c s].
      * rewrite (sub_empty reA tplA OccA HmA HnA), (sub_empty reB tplB OccB HmB HnB).
        rewrite (sub_empty reA tplA OccA HmA HnA). reflexivity.
      * rewrite (sub_copy reA tplA c s EA), (sub_copy reB tplB c s EB).
        rewrite (sub_copy reB tplB c _ (still_no_B c s EB)).
        rewrite (sub_copy reA tplA c _ (still_no_A c s EA)).
        f_equal. apply IH. simpl. lia.
Qed.
End Clear.

Lemma sh_calls_commute fg fs t :
  Semver fg -> Semver fs ->
  let G := sub (re_keyed "OPENAPI_GENERATOR_VERSION=")
               (map TLit (quoted "OPENAPI_GENERATOR_VERSION=" fg)) in
  let S := sub (re_keyed "SPEC_PATH=") (map TLit (quoted "SPEC_PATH=" fs)) in
  S (G t) = G (S t).
Proof.
  intros Hg Hs G S.
  apply (sub_commute (re_keyed "OPENAPI_GENERATOR_VERSION=") (re_keyed "SPEC_PATH=")
           _ _ (Keyed "OPENAPI_GENERATOR_VERSION=") (Keyed "SPEC_PATH=")
           (quoted "OPENAPI_GENERATOR_VERSION=" fg) (quoted "SPEC_PATH=" fs)
           (match_keyed _) (match_keyed _) (Keyed_nonempty _) (Keyed_nonempty _)
           (expand_lits _) (expand_lits _) (quoted_keyed _ _ Hg) (quoted_keyed _ _ Hs)).
  - intros mA mB u x y HA (v & _ & ->) E.
    eapply (framed_inside (txt "OPENAPI_GENERATOR_VERSION=") "S" "P");
      [apply Keyed_framed, HA|reflexivity|reflexivity|reflexivity|exact E].
  - intros mB mA u x y HB (v & _ & ->) E.
    eapply (framed_inside (txt "SPEC_PATH=") "O" "P");
      [apply Keyed_framed, HB|reflexivity|reflexivity|reflexivity|exact E].
Qed.

(** *** Any order of the calls, for values of the right shape *)

Section AnyOrder.
Implicit Types (w : world) (rs : list rule) (v g s : value) (f : string).

Lemma run_completes rs : forall w,
  (forall r, In r rs -> exists re, Literal r re) ->
  (forall r, In r rs -> is_Some (files w !! target r)) ->
  exists w', run_rules rs w = (inr tt, w').
Proof.
  induction rs as [|r rs IH]; intros w Hl Hex; [exists w; reflexivity|].
  destruct (Hl r (or_introl eq_refl)) as [re Hr].
  destruct (Hex r (or_introl eq_refl)) as [d Hd].
  pose proof (replace_literal r re w _ Hr (view_some _ _ _ Hd)) as E.
  destruct (IH (settle (target r) (universal_newlines d)
                       (act r re (universal_newlines d)) w)) as [w' Hw'].
  - intros r' Hin. apply Hl. right. exact Hin.
  - intros r' Hin. apply (elem_of_dom (D := gset string)).
    pose proof (replace_dom (target r) (pattern r) (replacement r) w) as Hdom.
    unfold apply_rule in E. rewrite E in Hdom. simpl in Hdom. rewrite Hdom.
    apply elem_of_dom. apply Hex. right. exact Hin.
  - exists w'. simpl. rewrite (bind_ok _ _ _ _ _ E). exact Hw'.
Qed.

Lemma script_literal_each v g s r :
  Semver (format_value v) -> Semver (format_value g) -> Semver (format_value s) ->
  In r (script_rules v g s) -> exists re, Literal r re.
Proof.
  intros Hv Hg Hs Hin.
  pose proof (script_literal v g s Hv Hg Hs) as Hl.
  rewrite List.Forall_forall in Hl.
  simpl in Hin.
  repeat (destruct Hin as [<-|Hin];
          [eexists; apply (Hl (_, _)); simpl; tauto|]).
  destruct Hin.
Qed.

Lemma content_after_other rs f c :
  (forall r, In r rs -> target r <> f) -> content_after rs f c = c.
Proof.
  revert c. induction rs as [|r rs IH]; intros c H; [reflexivity|].
  simpl. destruct (String.eqb_spec (target r) f) as [E|_].
  - destruct (H r (or_introl eq_refl) E).
  - apply IH. intros r' Hin. apply H. right. exact Hin.
Qed.

(** The content one literal call leaves. *)
Lemma content_literal r re f c :
  Literal r re -> target r = f ->
  content_after [r] f c
  = match c with
    | Some data =>
        let t := universal_newlines data in
        if bool_decide (t = act r re t) then Some data else Some (act r re t)
    | None => None
    end.
Proof.
  intros (Hc & Hp & _) <-. simpl. rewrite String.eqb_refl.
  destruct c as [data|]; [|reflexivity].
  rewrite (re_sub_plain _ _ _ _ Hc Hp). reflexivity.
Qed.

(** Two literal calls on one file whose substitutions commute leave the
    same content in either order. *)
Lemma content_exchange a b rea reb f c :
  Literal a rea -> Literal b reb -> target a = f -> target b = f ->
  (forall t, act b reb (act a rea t) = act a rea (act b reb t)) ->
  content_after [a; b] f c = content_after [b; a] f c.
Proof.
  intros Ha Hb Ea Eb Hcomm.
  change (content_after [a; b] f c)
    with (content_after [b] f (content_after [a] f c)).
  change (content_after [b; a] f c)
    with (content_after [a] f (content_after [b] f c)).
  rewrite (content_literal a rea f c Ha Ea), (content_literal b reb f c Hb Eb).
  rewrite (content_literal b reb f _ Hb Eb), (content_literal a rea f _ Ha Ea).
  destruct c as [data|]; [|reflexivity].
  assert (HA : forall x, nocr x -> universal_newlines (act a rea x) = act a rea x)
    by (intros x Hx; apply universal_newlines_id; apply (act_nocr a rea x Ha Hx)).
  assert (HB : forall x, nocr x -> universal_newlines (act b reb x) = act b reb x)
    by (intros x Hx; apply universal_newlines_id; apply (act_nocr b reb x Hb Hx)).
  pose proof (universal_newlines_nocr data) as Hnt.
  remember (universal_newlines data) as t eqn:Et.
  cbv beta iota zeta.
  destruct (bool_decide (t = act a rea t)) eqn:E1;
    destruct (bool_decide (t = act b reb t)) eqn:E2;
    cbv beta iota zeta; rewrite <- ?Et, ?HA, ?HB by exact Hnt.
  - rewrite E1, E2. reflexivity.
  - rewrite E2. apply bool_decide_eq_true in E1.
    rewrite <- Hcomm, <- E1, bool_decide_eq_true_2 by reflexivity. reflexivity.
  - rewrite E1. apply bool_decide_eq_true in E2.
    rewrite Hcomm, <- E2, bool_decide_eq_true_2 by reflexivity. reflexivity.
  - rewrite Hcomm.
    destruct (bool_decide (act a rea t = act a rea (act b reb t))) eqn:E3;
      destruct (bool_decide (act b reb t = act a rea (act b reb t))) eqn:E4;
      try apply bool_decide_eq_true in E3; try apply bool_decide_eq_true in E4;
      congruence.
Qed.
End AnyOrder.

(** X13.  When the three values are of the form digits, dot, digits, dot,
    digits and the five target files exist, the seven calls may be made in
    any order whatever: every order completes and leaves the same file
    contents as the order of the script. *)
Theorem any_order_leaves_the_same_files
    (doc : table) (v g s : value) (w w1 : world) (rs : list rule) :
  field doc "version" "version" = Some v ->
  field doc "openapi" "oapigen-version" = Some g ->
  field doc "openapi" "oapi-spec" = Some s ->
  Semver (format_value v) -> Semver (format_value g) -> Semver (format_value s) ->
  (forall p, In p targets -> is_Some (files w !! p)) ->
  main (ConfigParsed doc) w = (inr tt, w1) ->
  Permutation (script_rules v g s) rs ->
  exists w2, run_rules rs w = (inr tt, w2) /\ files w2 = files w1.
Proof.
  intros Fv Fg Fs Hv Hg Hs Hex Hmain HP.
  rewrite (main_rules doc v g s w Fv Fg Fs) in Hmain.
  assert (Hin : forall r, In r rs -> In r (script_rules v g s)).
  { intros r Hr. apply (Permutation_in r (Permutation_sym HP) Hr). }
  assert (Htgt : forall r, In r (script_rules v g s) -> In (target r) targets).
  { intros r Hr. apply (in_map target) in Hr. exact Hr. }
  destruct (run_completes rs w) as [w2 Hrun].
  { intros r Hr. apply (script_literal_each v g s r Hv Hg Hs), Hin, Hr. }
  { intros r Hr. apply Hex, Htgt, Hin, Hr. }
  exists w2. split; [exact Hrun|].
  apply map_eq. intros f.
  rewrite (run_content _ _ _ Hrun f), (run_content _ _ _ Hmain f).
  destruct (in_dec string_dec f targets) as [Hf|Hf].
  2:{ rewrite !content_after_other; [reflexivity| |].
      - intros r Hr E. apply Hf. rewrite <- E. apply Htgt, Hr.
      - intros r Hr E. apply Hf. rewrite <- E. apply Htgt, Hin, Hr. }
  rewrite (content_after_on_file rs), (content_after_on_file (script_rules v g s)).
  assert (HPf : Permutation (on_file f (script_rules v g s)) (on_file f rs))
    by (unfold on_file; rewrite HP; reflexivity).
  assert (Lps1g : Literal (Rule "oapigen.ps1" pat_ps1_gen (rep_ps1_gen g))
                          (NAtEnd :: re_keyed "OPENAPI_GENERATOR_VERSION="))
    by (apply literal_fstring; [reflexivity|repeat constructor|repeat constructor|exact Hg]).
  assert (Lps1s : Literal (Rule "oapigen.ps1" pat_ps1_spec (rep_ps1_spec s))
                          (NAtEnd :: re_keyed "SPEC_PATH="))
    by (apply literal_fstring; [reflexivity|repeat constructor|repeat constructor|exact Hs]).
  assert (Lshg : Literal (Rule "oapigen.sh" pat_sh_gen (rep_sh_gen g))
                         (re_keyed "OPENAPI_GENERATOR_VERSION="))
    by (apply literal_fstring; [reflexivity|repeat constructor|repeat constructor|exact Hg]).
  assert (Lshs : Literal (Rule "oapigen.sh" pat_sh_spec (rep_sh_spec s))
                         (re_keyed "SPEC_PATH="))
    by (apply literal_fstring; [reflexivity|repeat constructor|repeat constructor|exact Hs]).
  unfold targets in Hf. simpl in Hf.
  destruct Hf as [<-|[<-|[<-|[<-|[<-|[<-|[<-|[]]]]]]]].
  - change (on_file "Dockerfile.deploy" (script_rules v g s))
      with [Rule "Dockerfile.deploy" pat_label (rep_label v)] in *.
    apply Permutation_length_1_inv in HPf. rewrite HPf. reflexivity.
  - change (on_file "Dockerfile" (script_rules v g s))
      with [Rule "Dockerfile" pat_label (rep_label v)] in *.
    apply Permutation_length_1_inv in HPf. rewrite HPf. reflexivity.
  - change (on_file "Cargo.toml" (script_rules v g s))
      with [Rule "Cargo.toml" pat_cargo (rep_cargo v)] in *.
    apply Permutation_length_1_inv in HPf. rewrite HPf. reflexivity.
  - change (on_file "oapigen.ps1" (script_rules v g s))
      with [Rule "oapigen.ps1" pat_ps1_gen (rep_ps1_gen g);
            Rule "oapigen.ps1" pat_ps1_spec (rep_ps1_spec s)] in *.
    apply Permutation_length_2_inv in HPf as [-> | ->]; [reflexivity|].
    symmetry. apply (content_exchange _ _ _ _ _ _ Lps1g Lps1s eq_refl eq_refl).
    intros t. unfold act. rewrite !sub_ps1_gen, !sub_ps1_spec. reflexivity.
  - change (on_file "oapigen.ps1" (script_rules v g s))
      with [Rule "oapigen.ps1" pat_ps1_gen (rep_ps1_gen g);
            Rule "oapigen.ps1" pat_ps1_spec (rep_ps1_spec s)] in *.
    apply Permutation_length_2_inv in HPf as [-> | ->]; [reflexivity|].
    symmetry. apply (content_exchange _ _ _ _ _ _ Lps1g Lps1s eq_refl eq_refl).
    intros t. unfold act. rewrite !sub_ps1_gen, !sub_ps1_spec. reflexivity.
  - change (on_file "oapigen.sh" (script_rules v g s))
      with [Rule "oapigen.sh" pat_sh_gen (rep_sh_gen g);
            Rule "oapigen.sh" pat_sh_spec (rep_sh_spec s)] in *.
    apply Permutation_length_2_inv in HPf as [-> | ->]; [reflexivity|].
    symmetry. apply (content_exchange _ _ _ _ _ _ Lshg Lshs eq_refl eq_refl).
    intros t. exact (sh_calls_commute (format_value g) (format_value s) t Hg Hs).
  - change (on_file "oapigen.sh" (script_rules v g s))
      with [Rule "oapigen.sh" pat_sh_gen (rep_sh_gen g);
            Rule "oapigen.sh" pat_sh_spec (rep_sh_spec s)] in *.
    apply Permutation_length_2_inv in HPf as [-> | ->]; [reflexivity|].
    symmetry. apply (content_exchange _ _ _ _ _ _ Lshg Lshs eq_refl eq_refl).
    intros t. exact (sh_calls_commute (format_value g) (format_value s) t Hg Hs).
Qed.

Lemma any_order_leaves_the_same_files_witness :
  let v := TString (txt "2.0.1") in
  let g := TString (txt "5.4.0") in
  let s := TString (txt "3.1.0") in
  let w1 := snd (main (ConfigParsed doc_ok) world_ok) in
  field doc_ok "version" "version" = Some v
  /\ field doc_ok "openapi" "oapigen-version" = Some g
  /\ field doc_ok "openapi" "oapi-spec" = Some s
  /\ Semver (format_value v) /\ Semver (format_value g) /\ Semver (format_value s)
  /\ (forall p, In p targets -> is_Some (files world_ok !! p))
  /\ main (ConfigParsed doc_ok) world_ok = (inr tt, w1)
  /\ Permutation (script_rules v g s) (rev (script_rules v g s))
  /\ exists w2,
      run_rules (rev (script_rules v g s)) world_ok = (inr tt, w2)
      /\ files w2 = files w1.
Proof.
  intros v g s w1.
  assert (Hd : forall a b c : ascii,
             isdecimal a = true -> isdecimal b = true -> isdecimal c = true ->
             Semver [a; "."%char; b; "."%char; c]).
  { intros a b c Ha Hb Hc. exists [a], [b], [c]. split; [reflexivity|].
    repeat split; try discriminate; repeat constructor; assumption. }
  assert (Hex : forall p, In p targets -> is_Some (files world_ok !! p)).
  { intros p Hp. simpl in Hp.
    repeat (destruct Hp as [<-|Hp]; [vm_compute; eauto|]). destruct Hp. }
  split; [reflexivity|]. split; [reflexivity|]. split; [reflexivity|].
  split; [apply Hd; reflexivity|]. split; [apply Hd; reflexivity|].
  split; [apply Hd; reflexivity|]. split; [exact Hex|].
  split; [vm_compute; reflexivity|]. split; [apply Permutation_rev|].
  apply (any_order_leaves_the_same_files doc_ok v g s world_ok w1
           (rev (script_rules v g s)));
    [reflexivity|reflexivity|reflexivity|apply Hd; reflexivity|apply Hd; reflexivity
    |apply Hd; reflexivity|exact Hex|vm_compute; reflexivity|apply Permutation_rev].
Defined.

(** *** Line ends of a rewritten file *)

Section LineEnds.
(** The [re.sub] of [Re] brings no carriage return into a text that has
    none, when the replacement has neither backslash nor carriage return. *)
Lemma re_sub_nocr (pattern replacement t n : text) :
  plain replacement -> nocr replacement ->
  nocr t -> re_sub pattern replacement t = inr n -> nocr n.
Proof.
  intros Hp Hn Ht. unfold re_sub.
  destruct (compile pattern) as [re|]; [|discriminate].
  rewrite (parse_template_plain _ Hp). intros [= <-].
  apply sub_lits_nocr; assumption.
Qed.
End LineEnds.

(** X14.  For every pattern and replacement for which [re.sub] brings no
    carriage return into a text that has none: a call that completes
    either leaves the file store as it is, so a file with CR LF line ends
    keeps them, or stores under its path the text [re.sub] returned for
    the text read with LF line ends, a text without any carriage return
    that differs from the text read.  The line ends of an updated file are
    all LF, as the text is written as computed. *)
Theorem updated_file_has_lf_line_ends
    (resub : text -> text -> text -> exn + text)
    (w w1 : world) (file : string) (pattern replacement data : text) :
  files w !! file = Some data ->
  (forall t n, nocr t -> resub pattern replacement t = inr n -> nocr n) ->
  replace_with resub file pattern replacement w = (inr tt, w1) ->
  files w1 = files w
  \/ exists new_text,
       resub pattern replacement (universal_newlines data) = inr new_text
       /\ files w1 = <[file := new_text]> (files w)
       /\ nocr new_text
       /\ new_text <> universal_newlines data.
Proof.
  intros Hf Hsub Hr.
  rewrite replace_with_eq, Hf in Hr.
  destruct (resub pattern replacement (universal_newlines data))
    as [e|new_text] eqn:E; [discriminate|].
  destruct (bool_decide (universal_newlines data = new_text)) eqn:Eb.
  - injection Hr as <-. left. reflexivity.
  - injection Hr as <-. right. apply bool_decide_eq_false in Eb.
    exists new_text. split; [reflexivity|]. split; [reflexivity|].
    split; [|congruence].
    apply (Hsub (universal_newlines data) new_text);
      [apply universal_newlines_nocr|exact E].
Qed.

Lemma updated_file_has_lf_line_ends_witness :
  let r := rep_label (TString (txt "2.0.1")) in
  let w1 := snd (replace "Dockerfile" pat_label r world_crlf) in
  files world_crlf !! "Dockerfile" = Some dockerfile_crlf
  /\ (forall t n, nocr t -> re_sub pat_label r t = inr n -> nocr n)
  /\ replace "Dockerfile" pat_label r world_crlf = (inr tt, w1)
  /\ (files w1 = files world_crlf
      \/ exists new_text,
           re_sub pat_label r (universal_newlines dockerfile_crlf) = inr new_text
           /\ files w1 = <["Dockerfile" := new_text]> (files world_crlf)
           /\ nocr new_text
           /\ new_text <> universal_newlines dockerfile_crlf).
Proof.
  intros r w1.
  assert (Hp : plain r) by (repeat constructor).
  assert (Hn : nocr r) by (repeat constructor).
  assert (Hs : forall t n, nocr t -> re_sub pat_label r t = inr n -> nocr n)
    by (intros t n; apply re_sub_nocr; assumption).
  split; [reflexivity|]. split; [exact Hs|].
  split; [vm_compute; reflexivity|].
  apply (updated_file_has_lf_line_ends re_sub world_crlf w1 "Dockerfile" pat_label r
           dockerfile_crlf);
    [reflexivity|exact Hs|vm_compute; reflexivity].
Defined.

(** *** A value the pattern does not match *)

Section Clears.
Variables (re : regex) (tpl : template) (Occ : text -> Prop) (r : text).
Hypothesis Hmatch : forall s rest,
  match_here any_end re s = Some rest <-> exists m, Occ m /\ s = m ++ rest.
Hypothesis Hne : forall m, Occ m -> m <> [].
Hypothesis Htpl : forall m, expand tpl m = r.
Hypothesis Hover : forall m u x y,
  Occ m -> u <> [] -> m ++ x = u ++ r ++ y -> length m <= length u.
Hypothesis Hinside : forall m u y z,
  Occ m -> r ++ y = u ++ m ++ z -> length r <= length u.

(** When no occurrence starts in the replacement or reaches into it, the
    substitution leaves no occurrence at all. *)
Lemma sub_clears t : forall u m z, sub re tpl t = u ++ m ++ z -> ~ Occ m.
Proof.
  induction t as [|c s Hno IH|m1 rest Hm1 IH] using (scan_ind re Occ Hmatch Hne);
    intros u m z E Hm.
  - rewrite (sub_empty re tpl Occ Hmatch Hne) in E. symmetry in E.
    apply app_eq_nil in E as [_ E]. apply app_eq_nil in E as [-> _].
    destruct (Hne _ Hm eq_refl).
  - rewrite (sub_copy re tpl c s Hno) in E.
    destruct u as [|c' u].
    + destruct (reach_back re tpl Occ r Hmatch Hne Htpl Occ Hover s [c] m z)
        as [z' Hz']; [discriminate|exact Hm|exact E|].
      simpl in Hz'. rewrite Hz', (occ_match re Occ Hmatch m z' Hm) in Hno.
      discriminate.
    + injection E as _ E. apply (IH u m z E Hm).
  - rewrite (sub_occ re tpl Occ r Hmatch Hne Htpl m1 rest Hm1) in E.
    pose proof (Hinside m u _ z Hm E) as Hl.
    destruct (app_eq_le _ _ _ _ E Hl) as (l & _ & E').
    apply (IH l m z E' Hm).
Qed.

Lemma sub_clears_unmatched t : Unmatched re (sub re tpl t).
Proof.
  intros u s E.
  destruct (match_here any_end re s) as [rest|] eqn:Em; [|reflexivity].
  exfalso. apply Hmatch in Em as (m & Hm & ->).
  exact (sub_clears t u m rest E Hm).
Qed.
End Clears.

Section Locked.
Implicit Types (key : string) (fv m u x y z : text).

Lemma Digits_no_quote a : Digits a -> ~ In DQUOTE a.
Proof.
  intros [_ Ha] Hin. rewrite List.Forall_forall in Ha.
  apply Ha in Hin. discriminate.
Qed.

Lemma Semver_no_quote v : Semver v -> ~ In DQUOTE v.
Proof.
  intros (a & b & c & -> & Ha & Hb & Hc) Hin.
  apply in_app_or in Hin as [Hin|[Hin|Hin]];
    [exact (Digits_no_quote a Ha Hin)|discriminate|].
  apply in_app_or in Hin as [Hin|[Hin|Hin]];
    [exact (Digits_no_quote b Hb Hin)|discriminate|].
  exact (Digits_no_quote c Hc Hin).
Qed.

(** Two texts that stand in front of the first occurrence of [d] in the
    same text are equal. *)
Lemma until_first {A} (d : A) (l1 l2 x y : list A) :
  ~ In d l1 -> ~ In d l2 -> l1 ++ d :: x = l2 ++ d :: y -> l1 = l2.
Proof.
  revert l2. induction l1 as [|a l1 IH]; intros [|b l2] H1 H2 E; simpl in *.
  - reflexivity.
  - injection E as -> _. destruct H2. left. reflexivity.
  - injection E as -> _. destruct H1. left. reflexivity.
  - injection E as -> E. f_equal. apply (IH l2); [tauto|tauto|exact E].
Qed.

(** An occurrence does not reach into a replacement that starts later,
    whatever the value. *)
Lemma keyed_before key fv :
  DistinctStart key ->
  forall m u x y,
    Keyed key m -> u <> [] -> m ++ x = u ++ quoted key fv ++ y ->
    length m <= length u.
Proof.
  intros (a & b & l & Hk & Ha & Hb & Hp) m u x y Hm Hu E.
  unfold quoted in E. rewrite Hk in E. rewrite Hk in Hp.
  eapply (framed_apart (a :: b :: l) a b l);
    [rewrite <- Hk; apply Keyed_framed, Hm|exact Ha|exact Hb|exact Hp|exact Hu|].
  rewrite E. list_norm.
Qed.

(** No occurrence starts in the replacement of an unmatchable value. *)
Lemma keyed_not_inside key fv :
  DistinctStart key -> Unmatchable key fv ->
  forall m u y z,
    Keyed key m -> quoted key fv ++ y = u ++ m ++ z ->
    length (quoted key fv) <= length u.
Proof.
  intros (a & b & l & Hk & Ha & Hb & Hp) (Hns & Hnq & Hna) m u y z (v & Hv & ->) E.
  specialize (Hna a (b :: l) Hk).
  destruct (Nat.le_gt_cases (length (quoted key fv)) (length u)) as [|Hl];
    [assumption|exfalso].
  unfold quoted in E, Hl. rewrite Hk in E, Hl. rewrite Hk in Hp.
  destruct u as [|c u].
  - assert (E0 : (a :: b :: l) ++ DQUOTE :: fv ++ DQUOTE :: y
                 = (a :: b :: l) ++ DQUOTE :: v ++ DQUOTE :: z).
    { transitivity (((a :: b :: l) ++ dq ++ fv ++ dq) ++ y); [list_norm|].
      rewrite E. rewrite <- Hk. list_norm. }
    apply app_inv_head in E0. injection E0 as E0.
    apply Hns.
    rewrite (until_first DQUOTE fv v y z Hnq (Semver_no_quote v Hv) E0). exact Hv.
  - assert (E1 : ((a :: b :: l) ++ dq) ++ (fv ++ dq ++ y)
                 = (c :: u) ++ (a :: b :: l ++ dq ++ v ++ dq) ++ z)
      by (transitivity (((a :: b :: l) ++ dq ++ fv ++ dq) ++ y);
          [list_norm|rewrite E; list_norm]).
    destruct (Nat.le_gt_cases (length ((a :: b :: l) ++ dq)) (length (c :: u)))
      as [Hk1|Hk1].
    + destruct (app_eq_le _ _ _ _ E1 Hk1) as (l' & El' & E2).
      assert (Hl' : length l' < length (fv ++ dq)).
      { rewrite El' in Hl. rewrite !length_app in Hl. rewrite !length_app.
        simpl in Hl. simpl. lia. }
      assert (E3 : (fv ++ dq) ++ y
                   = l' ++ a :: (b :: l ++ dq ++ v ++ dq) ++ z)
        by (rewrite <- app_assoc; exact E2).
      pose proof (mid_in (fv ++ dq) y l' _ a E3 Hl') as Hin.
      apply in_app_or in Hin as [Hin|[Hin|[]]]; [exact (Hna Hin)|].
      subst a. discriminate Ha.
    + pose proof (pair_overlap a b (l ++ dq ++ v ++ dq) dq (fv ++ dq ++ y) z
                    ltac:(repeat constructor) ltac:(discriminate) Ha Hb
                    (c :: u) (a :: b :: l) 0 E1 Hk1) as Hin.
      rewrite List.Forall_forall in Hp. apply Hp in Hin. discriminate Hin.
Qed.

Lemma keyed_clears key fv t :
  DistinctStart key -> Unmatchable key fv ->
  Unmatched (re_keyed key) (sub (re_keyed key) (map TLit (quoted key fv)) t).
Proof.
  intros Hd Hu.
  exact (sub_clears_unmatched (re_keyed key) _ (Keyed key) (quoted key fv)
           (match_keyed key) (Keyed_nonempty key) (expand_lits _)
           (keyed_before key fv Hd) (keyed_not_inside key fv Hd Hu) t).
Qed.
End Locked.

(** X15.  For a call of lines 20, 21, 29, 30 and a value that is not of the
    form digits, dot, digits, dot, digits (a pre-release such as 2.0.1-rc1,
    a two-part version, an integer) and has no double quote, no backslash,
    no carriage return and not the first character of the key: the call
    completes, and in the file it leaves the pattern matches at no place.
    From then on the same call with any other value without backslash
    prints the No-changes line and leaves the file as it is: once such a
    value is written, no run replaces it. *)
Theorem unmatchable_value_locks_the_file
    (w : world) (file key : string) (data : text) (v : value) :
  In (file, key) keyed_calls ->
  files w !! file = Some data ->
  plain (format_value v) -> nocr (format_value v) ->
  Unmatchable key (format_value v) ->
  exists w1 t1,
    replace file (keyed_pattern key) (fstring key v) w = (inr tt, w1)
    /\ view w1 file = Some t1
    /\ Unmatched (re_keyed key) t1
    /\ forall v', plain (format_value v') ->
         replace file (keyed_pattern key) (fstring key v') w1
         = (inr tt, after_same file w1).
Proof.
  intros Hin Hf Hp Hn Hu.
  destruct (compile_keyed file key Hin) as (Hc & Hd & Hpk & Hnk).
  set (t := universal_newlines data).
  set (r := fstring key v).
  assert (Hpr : plain r) by (apply plain_fstring; assumption).
  assert (Hnr : nocr r).
  { unfold r, fstring.
    apply Forall_app; split; [exact Hnk|].
    apply Forall_app; split; [repeat constructor|].
    apply Forall_app; split; [exact Hn|repeat constructor]. }
  set (t1 := sub (re_keyed key) (map TLit r) t).
  assert (Hv : view w file = Some t) by exact (view_some _ _ _ Hf).
  assert (Hn1 : nocr t1)
    by (apply sub_lits_nocr; [exact Hnr|apply universal_newlines_nocr]).
  assert (Hun : Unmatched (re_keyed key) t1)
    by exact (keyed_clears key (format_value v) t Hd Hu).
  assert (Hv1 : view (settle file t t1 w) file = Some t1)
    by exact (view_settle file t t1 w Hv Hn1).
  exists (settle file t t1 w), t1.
  split.
  { rewrite replace_view, Hv, (re_sub_plain _ _ _ _ Hc Hpr). reflexivity. }
  split; [exact Hv1|]. split; [exact Hun|].
  intros v' Hp'.
  assert (Hpr' : plain (fstring key v')) by (apply plain_fstring; assumption).
  rewrite replace_view, Hv1, (re_sub_plain _ _ _ _ Hc Hpr').
  rewrite (sub_unmatched _ _ _ Hun), settle_same. reflexivity.
Qed.

Lemma unmatchable_value_locks_the_file_witness :
  In ("Dockerfile", "LABEL version=") keyed_calls
  /\ files world_ok !! "Dockerfile" = Some dockerfile
  /\ plain (format_value prerelease) /\ nocr (format_value prerelease)
  /\ Unmatchable "LABEL version=" (format_value prerelease)
  /\ exists w1 t1,
      replace "Dockerfile" (keyed_pattern "LABEL version=")
              (fstring "LABEL version=" prerelease) world_ok = (inr tt, w1)
      /\ view w1 "Dockerfile" = Some t1
      /\ Unmatched (re_keyed "LABEL version=") t1
      /\ forall v', plain (format_value v') ->
           replace "Dockerfile" (keyed_pattern "LABEL version=")
                   (fstring "LABEL version=" v') w1
           = (inr tt, after_same "Dockerfile" w1).
Proof.
  assert (Hk : In ("Dockerfile", "LABEL version=") keyed_calls)
    by (cbn [keyed_calls In]; tauto).
  assert (Hp : plain (format_value prerelease)) by (repeat constructor).
  assert (Hn : nocr (format_value prerelease)) by (repeat constructor).
  assert (Hu : Unmatchable "LABEL version=" (format_value prerelease)).
  { split; [|split].
    - intros Hs. apply Semver_sym in Hs. rewrite List.Forall_forall in Hs.
      specialize (Hs "-"%char). cbn [format_value prerelease] in Hs.
      assert (Hd : sym "-"%char = true)
        by (apply Hs; vm_compute; tauto).
      vm_compute in Hd. discriminate Hd.
    - intros Hq. vm_compute in Hq. decompose [or] Hq; try discriminate; assumption.
    - intros a l E Ha. injection E as <- _. vm_compute in Ha.
      decompose [or] Ha; try discriminate; assumption. }
  split; [exact Hk|]. split; [reflexivity|]. split; [exact Hp|].
  split; [exact Hn|]. split; [exact Hu|].
  apply (unmatchable_value_locks_the_file world_ok "Dockerfile" "LABEL version="
           dockerfile prerelease); [exact Hk|reflexivity|exact Hp|exact Hn|exact Hu].
Defined.
